(** * preprocess.py: CT/PET volume preprocessing, verified

    A shallow embedding of [src/preprocess.py] and of the array-library
    operations it calls, followed by the properties established about it.

    Layout of the development:
    - [py]         Python-level outcomes (a value or a raised exception);
    - [np]         the NumPy operations the program uses: n-d arrays as nested
                   lists, [int16] wrap-around, binary64 arithmetic (the kernel's
                   primitive floats), [np.unique], [np.argmax], [np.round];
    - [ndimage]    [scipy.ndimage]: binary erosion, dilation, closing, and
                   the spline [zoom];
    - [measure]    [skimage.measure.label];
    - [preprocess] the functions of [src/preprocess.py], line by line;
    - [driver]     its callers [load_image] and [display_ct_pet], from what
                   was read from disk on;
    - the theory: one section per function of the program. *)

From Stdlib Require Import ZArith List Bool Lia Arith.
From Stdlib Require Import QArith Qround Qabs Lqa.
From Stdlib Require Import Floats.
From Stdlib Require Import Sorted Permutation.
Import ListNotations.
Open Scope Z_scope.


(** * Part I: the embedding *)

(** ** Python-level outcomes *)

Module py.

(** The exceptions that can leave the functions of [preprocess.py].  The first
    three are raised by Python and by the array libraries.  The last two are the
    error kinds the specification names for the resampler and the Hounsfield
    converter; no statement of the program raises them. *)
Inductive exn : Set :=
| IndexError
| ValueError
| OverflowError
| NonPositiveSpacingError
| PrecisionOverflowError.

Inductive result (A : Type) : Type :=
| Ok (a : A)
| Raise (e : exn).

Arguments Ok {A} a.
Arguments Raise {A} e.

Definition bind {A B : Type} (r : result A) (k : A -> result B) : result B :=
  match r with
  | Ok a => k a
  | Raise e => Raise e
  end.

Definition is_ok {A : Type} (r : result A) : bool :=
  match r with Ok _ => true | Raise _ => false end.

End py.

Notation "x <- c ;; k" := (py.bind c (fun x => k))
  (at level 61, c at next level, right associativity).

(** ** NumPy *)

Module np.

(** *** Arrays

    An n-dimensional array is a nested list in C (row-major) order, the way
    NumPy prints it; NumPy arrays are rectangular, which [rect3] records. *)

Definition arr2 (A : Type) : Type := list (list A).
Definition arr3 (A : Type) : Type := list (list (list A)).

(** A voxel position [(i, j, k)]; coordinates are integers because the
    morphological operations and the labelling add negative offsets. *)
Definition pos : Set := (Z * Z * Z)%type.

Definition padd (p d : pos) : pos :=
  let '(i, j, k) := p in
  let '(di, dj, dk) := d in
  (i + di, j + dj, k + dk).

(** [l[i]] for an integer [i], [None] outside [0 <= i < len(l)] (no negative
    indexing: every caller below checks or saturates itself). *)
Definition zth {A : Type} (l : list A) (i : Z) : option A :=
  if i <? 0 then None else nth_error l (Z.to_nat i).

Definition get2 {A : Type} (a : arr2 A) (j k : Z) : option A :=
  match zth a j with
  | Some row => zth row k
  | None => None
  end.

Definition get3 {A : Type} (a : arr3 A) (p : pos) : option A :=
  let '(i, j, k) := p in
  match zth a i with
  | Some plane => get2 plane j k
  | None => None
  end.

(** [map] with the element's index. *)
Fixpoint mapi_from {A B : Type} (f : Z -> A -> B) (i : Z) (l : list A) : list B :=
  match l with
  | [] => []
  | x :: r => f i x :: mapi_from f (i + 1) r
  end.

Definition mapi {A B : Type} (f : Z -> A -> B) (l : list A) : list B :=
  mapi_from f 0 l.

Definition mapi3 {A B : Type} (f : pos -> A -> B) (a : arr3 A) : arr3 B :=
  mapi (fun i plane =>
    mapi (fun j row =>
      mapi (fun k x => f (i, j, k) x) row) plane) a.

Definition map2 {A B : Type} (f : A -> B) (a : arr2 A) : arr2 B :=
  map (map f) a.

Definition map3 {A B : Type} (f : A -> B) (a : arr3 A) : arr3 B :=
  map (map (map f)) a.

(** [a.ravel()] *)
Definition ravel2 {A : Type} (a : arr2 A) : list A := concat a.
Definition ravel3 {A : Type} (a : arr3 A) : list A := concat (concat a).

(** [a.shape == (n1, n2, n3)] *)
Definition rect2 {A : Type} (a : arr2 A) (n2 n3 : nat) : Prop :=
  length a = n2 /\ Forall (fun row => length row = n3) a.

Definition rect3 {A : Type} (a : arr3 A) (n1 n2 n3 : nat) : Prop :=
  length a = n1 /\ Forall (fun plane => rect2 plane n2 n3) a.

(** [np.full((n1, n2, n3), c)] *)
Definition full3 {A : Type} (n1 n2 n3 : nat) (c : A) : arr3 A :=
  repeat (repeat (repeat c n3) n2) n1.

(** [np.count_nonzero] of a boolean array. *)
Definition count_true (l : list bool) : nat := length (filter (fun b => b) l).

(** *** Integer dtypes *)

(** Two's-complement wrap-around into [int16]: what [astype(np.int16)] does to
    an integer and what [int16] addition does on overflow. *)
Definition int16 (z : Z) : Z := (z + 32768) mod 65536 - 32768.

Definition in_int16 (z : Z) : bool := (-32768 <=? z) && (z <=? 32767).

(** [l[i] = x] on a list (a new list; out of range the list is unchanged,
    callers check the range first). *)
Fixpoint set_nth {A : Type} (i : nat) (x : A) (l : list A) : list A :=
  match l, i with
  | [], _ => []
  | _ :: r, O => x :: r
  | y :: r, S i' => y :: set_nth i' x r
  end.

(** [a.shape] of a 2-d array (the row length is read off the first row). *)
Definition shape2 {A : Type} (a : arr2 A) : nat * nat :=
  (length a, match a with [] => 0%nat | row :: _ => length row end).

Definition same_shape2 {A : Type} (a b : arr2 A) : bool :=
  let '(h, w) := shape2 a in
  let '(h', w') := shape2 b in
  (h =? h')%nat && (w =? w')%nat.

(** [np.stack(arrays)]: the arrays as the planes of a new array.  It raises
    [ValueError] on an empty list and on arrays of different shapes. *)
Definition stack {A : Type} (arrays : list (arr2 A)) : py.result (arr3 A) :=
  match arrays with
  | [] => py.Raise py.ValueError
  | a :: r =>
      if forallb (same_shape2 a) r then py.Ok arrays
      else py.Raise py.ValueError
  end.

(** *** binary64

    [np.float64] is IEEE 754 binary64, which is what the kernel's primitive
    floats are: the arithmetic below is the arithmetic NumPy performs. *)
Definition float64 : Set := PrimFloat.float.

(** [astype(np.float64)] of an integer.  Exact for [|z| < 2^53], which covers
    every value of the integer dtypes narrower than [int64]. *)
Definition to_float64 (z : Z) : float64 :=
  match z with
  | Z0 => 0%float
  | Zpos _ => PrimFloat.of_uint63 (Uint63.of_Z z)
  | Zneg p => PrimFloat.opp (PrimFloat.of_uint63 (Uint63.of_Z (Zpos p)))
  end.

(** The integer part of a binary64 value, rounding toward zero (the C
    conversion of a floating-point value to an integer). NaN and the
    infinities have no integer part; the model gives them 0. *)
Definition trunc (x : float64) : Z :=
  match Prim2SF x with
  | S754_finite s m e =>
      let mag := if 0 <=? e then Zpos m * 2 ^ e else Zpos m / 2 ^ (- e) in
      if s then - mag else mag
  | _ => 0
  end.

(** Storing a binary64 value into an [int16] array, and [np.int16(x)] of a
    float: the value is truncated toward zero.  When the truncated value is
    outside [int16] the C conversion NumPy uses is undefined; the model wraps
    it like an integer cast, and the theorems that use the result of such a
    store state that it is in range. *)
Definition float_to_int16 (x : float64) : Z := int16 (trunc x).

(** *** [np.unique(a, return_counts=True)]

    The sorted distinct values of the flattened array, and how often each
    occurs.  [bump v] records one more occurrence of [v] in a table that is
    kept sorted by value. *)
Fixpoint bump (v : Z) (t : list (Z * nat)) : list (Z * nat) :=
  match t with
  | [] => [(v, 1%nat)]
  | (w, c) :: r =>
      if v <? w then (v, 1%nat) :: t
      else if v =? w then (w, S c) :: r
      else (w, c) :: bump v r
  end.

Definition tally (a : list Z) : list (Z * nat) := fold_right bump [] a.

Definition unique (a : list Z) : list Z * list nat :=
  (map fst (tally a), map snd (tally a)).

(** How often [v] occurs in [a]. *)
Definition occ (a : list Z) (v : Z) : nat := count_occ Z.eq_dec a v.

(** [a[mask]] for a boolean [mask] of the length of [a]. *)
Fixpoint select {A : Type} (mask : list bool) (a : list A) : list A :=
  match mask, a with
  | m :: ms, x :: xs => if m then x :: select ms xs else select ms xs
  | _, _ => []
  end.

(** [vals != bg], elementwise. *)
Definition neq_mask (vals : list Z) (bg : Z) : list bool :=
  map (fun v => negb (v =? bg)) vals.

(** [np.argmax]: the index of the first occurrence of the maximum.  [argmax_from
    r i bi bv] scans [r], whose head has index [i], having seen the maximum
    [bv] first at index [bi]. *)
Fixpoint argmax_from (r : list nat) (i bi bv : nat) : nat :=
  match r with
  | [] => bi
  | x :: r' =>
      if (bv <? x)%nat then argmax_from r' (S i) i x
      else argmax_from r' (S i) bi bv
  end.

Definition argmax (l : list nat) : nat :=
  match l with
  | [] => 0%nat
  | x :: r => argmax_from r 1 0 x
  end.

(** *** Vectors of three (a shape, a spacing, a zoom factor per axis) *)

Definition vec3 (A : Type) : Type := (A * A * A)%type.

Definition vmap {A B : Type} (f : A -> B) (v : vec3 A) : vec3 B :=
  let '(a, b, c) := v in (f a, f b, f c).

Definition vzip {A B C : Type} (f : A -> B -> C) (v : vec3 A) (w : vec3 B) : vec3 C :=
  let '(a, b, c) := v in
  let '(a', b', c') := w in
  (f a a', f b b', f c c').

(** [a.shape].  The inner extents are read off the first plane and row, so an
    array without elements has shape [(0, 0, 0)] here. *)
Definition shape3 {A : Type} (a : arr3 A) : vec3 Z :=
  match a with
  | [] => (0, 0, 0)
  | plane :: _ =>
      (Z.of_nat (length a), Z.of_nat (length plane),
       match plane with [] => 0 | row :: _ => Z.of_nat (length row) end)
  end.

(** *** Exact arithmetic with the IEEE special values

    The geometry of [resample] (spacings, scale factors) is computed by NumPy
    in floating point.  It is modelled in exact rational arithmetic extended
    with the infinities and NaN that IEEE division by zero produces, so that
    the algebraic law the specification states for it can be decided;
    floating-point rounding error is not part of this model.  Zero carries no
    sign: a non-zero value divided by zero is the infinity of the dividend's
    sign, which is IEEE's result for the positive zero. *)
Inductive xreal : Set :=
| Fin (q : Q)
| Inf (negative : bool)
| NaN.

Definition Qis_neg (q : Q) : bool := Qnum q <? 0.
Definition Qis_zero (q : Q) : bool := Qnum q =? 0.

Definition xmul (x y : xreal) : xreal :=
  match x, y with
  | NaN, _ | _, NaN => NaN
  | Fin a, Fin b => Fin (Qred (a * b))
  | Fin a, Inf s | Inf s, Fin a =>
      if Qis_zero a then NaN else Inf (xorb s (Qis_neg a))
  | Inf s, Inf s' => Inf (xorb s s')
  end.

Definition xdiv (x y : xreal) : xreal :=
  match x, y with
  | NaN, _ | _, NaN => NaN
  | Fin a, Fin b =>
      if Qis_zero b then (if Qis_zero a then NaN else Inf (Qis_neg a))
      else Fin (Qred (a / b))
  | Fin _, Inf _ => Fin 0
  | Inf s, Fin b => Inf (xorb s (Qis_neg b))
  | Inf _, Inf _ => NaN
  end.




Definition x_of_Z (z : Z) : xreal := Fin (inject_Z z).

(** The nearest integer, ties to the even one: the rounding of [np.round]
    and of Python's [round]. *)
Definition Qround_half_even (q : Q) : Z :=
  let f := Qfloor q in
  match Qcompare (q - inject_Z f) (1 # 2) with
  | Lt => f
  | Gt => f + 1
  | Eq => if Z.even f then f else f + 1
  end.

(** [np.round(x)] *)
Definition xround (x : xreal) : xreal :=
  match x with
  | Fin q => Fin (inject_Z (Qround_half_even q))
  | _ => x
  end.

(** [int(round(x))] of Python: it raises on the infinities and on NaN. *)
Definition int_round (x : xreal) : py.result Z :=
  match x with
  | Fin q => py.Ok (Qround_half_even q)
  | Inf _ => py.Raise py.OverflowError
  | NaN => py.Raise py.ValueError
  end.

(** *** Boolean masks *)

(** [a[mask] = c]: the elements of [a] where [mask] is true are replaced. *)
Definition set_where {A : Type} (mask : arr3 bool) (c : A) (a : arr3 A) : arr3 A :=
  mapi3 (fun p x => match get3 mask p with Some true => c | _ => x end) a.

Definition set_where2 {A : Type} (mask : arr2 bool) (c : A) (a : arr2 A) : arr2 A :=
  mapi (fun j row =>
    mapi (fun k x => match get2 mask j k with Some true => c | _ => x end) row) a.

(** The truth value NumPy gives a number. *)
Definition nonzero (v : Z) : bool := negb (v =? 0).

(** The box of offsets [lo .. hi] on each axis, in raster order. *)
Definition zrange (lo hi : Z) : list Z :=
  map (fun n => lo + Z.of_nat n) (seq 0 (Z.to_nat (hi - lo + 1))).

Definition box (lo hi : Z) : list pos :=
  flat_map (fun a => flat_map (fun b => map (fun c => (a, b, c)) (zrange lo hi))
                              (zrange lo hi))
           (zrange lo hi).

Fixpoint list_eqb {A : Type} (eqb : A -> A -> bool) (a b : list A) : bool :=
  match a, b with
  | [], [] => true
  | x :: a', y :: b' => eqb x y && list_eqb eqb a' b'
  | _, _ => false
  end.

Definition arr3_eqb (a b : arr3 Z) : bool :=
  list_eqb (list_eqb (list_eqb Z.eqb)) a b.

Fixpoint sumZ (l : list Z) : Z :=
  match l with
  | [] => 0
  | x :: r => x + sumZ r
  end.

End np.



(** ** SciPy: [scipy.ndimage] *)

Module ndimage.

Import np.

(** *** [zoom]: spline interpolation

    [zoom(input, zoom, mode='nearest')] is called without [order], so it
    interpolates with SciPy's default, a spline of order 3; [mode='nearest']
    only says how the input is extended beyond its edges (by replicating the
    edge sample).  The interpolation is linear in the samples and acts axis by
    axis, so it is written once, for a line of vectors: a line along axis 0 is
    a list of planes, along axis 1 a list of rows, along axis 2 a list of
    numbers.  Values are exact rationals until the final rounding to the
    integer dtype of the input. *)

Class Vec (V : Type) : Type := {
  vadd : V -> V -> V;
  vscale : Q -> V -> V
}.

#[export] Instance Q_Vec : Vec Q := {
  vadd a b := Qred (a + b);
  vscale q a := Qred (q * a)
}.

Fixpoint zip_with {A : Type} (f : A -> A -> A) (a b : list A) : list A :=
  match a, b with
  | x :: a', y :: b' => f x y :: zip_with f a' b'
  | _, _ => []
  end.

#[export] Instance list_Vec {V : Type} `{Vec V} : Vec (list V) := {
  vadd a b := zip_with vadd a b;
  vscale q a := map (vscale q) a
}.

Section Spline.

Context {V : Type} `{Vec V}.

Definition vsub (a b : V) : V := vadd a (vscale (-1 # 1) b).

(** The spline coefficients [c] of the samples [f] with mirror-symmetric
    boundary: [(c[i-1] + 4 c[i] + c[i+1]) / 6 = f[i]] with [c[-1] = c[1]] and
    [c[n] = c[n-2]].  SciPy obtains them with a recursive filter; here the
    tridiagonal system is solved by elimination.  [sweep] is the forward
    elimination: [up] and [dp] are the eliminated super-diagonal entry and
    right-hand side of the previous row; the row being eliminated has
    sub-diagonal entry 2 if it is the last one and 1 otherwise. *)
Fixpoint sweep (f : list V) (up : Q) (dp : V) : list (Q * V) :=
  match f with
  | [] => []
  | x :: r =>
      let a := match r with [] => 2 # 1 | _ => 1 # 1 end in
      let den := Qred ((4 # 1) - a * up) in
      let u := Qred (1 / den) in
      let d := vscale (1 / den) (vsub (vscale (6 # 1) x) (vscale a dp)) in
      (u, d) :: sweep r u d
  end.

(** Back substitution over the eliminated rows. *)
Fixpoint back_substitute (rows : list (Q * V)) : list V :=
  match rows with
  | [] => []
  | [(_, d)] => [d]
  | (u, d) :: rest =>
      match back_substitute rest with
      | [] => [d]
      | c :: cs => vsub d (vscale u c) :: c :: cs
      end
  end.

Definition spline_coefficients (f : list V) : list V :=
  match f with
  | [] => []
  | [x] => [x]
  | x :: r =>
      (* first row: 4 c0 + 2 c1 = 6 f0 *)
      let u0 := 2 # 4 in
      let d0 := vscale (6 # 4) x in
      back_substitute ((u0, d0) :: sweep r u0 d0)
  end.

(** The index of a coefficient outside [0 .. len-1], reflected about the
    end samples. *)
Definition mirror (idx len : Z) : Z :=
  if len <=? 1 then 0
  else
    let p := 2 * (len - 1) in
    let r := idx mod p in
    if r <? len then r else p - r.

(** The four weights of the cubic B-spline at the fractional position [t]. *)
Definition bspline3_weights (t : Q) : list Q :=
  [ (1 - t) * (1 - t) * (1 - t) / 6;
    (4 - 6 * t * t + 3 * t * t * t) / 6;
    (1 + 3 * t + 3 * t * t - 3 * t * t * t) / 6;
    t * t * t / 6 ]%Q.

(** The spline with coefficients [c] at the coordinate [x]. *)
Definition spline_at (c : list V) (zero : V) (x : Q) : V :=
  let i := Qfloor x in
  let w := bspline3_weights (x - inject_Z i) in
  let len := Z.of_nat (length c) in
  let term l := vscale (nth l w 0%Q)
                  (nth (Z.to_nat (mirror (i - 1 + Z.of_nat l) len)) c zero) in
  vadd (vadd (term 0%nat) (term 1%nat)) (vadd (term 2%nat) (term 3%nat)).

(** A line of [n] samples resampled to [m] samples: output sample [o] is the
    spline at input coordinate [o * (n - 1) / (m - 1)].  With
    [mode='nearest'] SciPy (1.6 and later) first pads the line with [npad]
    copies of each end sample and computes the coefficients of the padded
    line; earlier versions did not pad ([npad = 0]). *)
Definition zoom_line (npad : nat) (m : Z) (f : list V) : list V :=
  match f with
  | [] => []
  | f0 :: _ =>
      let n := Z.of_nat (length f) in
      let padded := repeat f0 npad ++ f ++ repeat (last f f0) npad in
      let c := spline_coefficients padded in
      let step := if m =? 1 then 0%Q else (inject_Z (n - 1) / inject_Z (m - 1))%Q in
      map (fun o => spline_at c f0 (Qred (inject_Z (Z.of_nat npad) + inject_Z (Z.of_nat o) * step)))
          (seq 0 (Z.to_nat m))
  end.

End Spline.

(** Storing an interpolated value into an integer array: SciPy rounds half
    away from zero. *)
Definition round_half_away (q : Q) : Z :=
  if Qle_bool 0 q then Qfloor (q + (1 # 2)) else Qceiling (q - (1 # 2)).

(** [zoom(input, zoom)] with order 3 and [mode='nearest'], for an integer
    array.  The output shape is [int(round(n * z))] per axis; NumPy refuses a
    negative extent with [ValueError]. *)
Definition zoom_with (npad : nat) (input : arr3 Z) (zoom : vec3 xreal)
  : py.result (arr3 Z) :=
  let '(n1, n2, n3) := shape3 input in
  let '(z1, z2, z3) := zoom in
  m1 <- int_round (xmul (x_of_Z n1) z1) ;;
  m2 <- int_round (xmul (x_of_Z n2) z2) ;;
  m3 <- int_round (xmul (x_of_Z n3) z3) ;;
  if (m1 <? 0) || (m2 <? 0) || (m3 <? 0) then py.Raise py.ValueError
  else
    let a := map3 inject_Z input in
    let a := map (map (zoom_line npad m3)) a in
    let a := map (zoom_line npad m2) a in
    let a := zoom_line npad m1 a in
    py.Ok (map3 round_half_away a).

(** The padding of current SciPy. *)
Definition spline_npad : nat := 12.

Definition zoom : arr3 Z -> vec3 xreal -> py.result (arr3 Z) :=
  zoom_with spline_npad.

(** *** Binary morphology

    The structuring elements of the program are full cubes, [np.ones([n, n,
    n])].  SciPy centres a structuring element at index [n // 2] on each
    axis, so its offsets run from [-(n // 2)] to [n - 1 - n // 2]. *)
Definition cube (n : Z) : list pos := box (- (n / 2)) (n - 1 - n / 2).

Definition pneg (d : pos) : pos :=
  let '(a, b, c) := d in (- a, - b, - c).

(** The value of a voxel, outside the array the [border_value]. *)
Definition voxel_or (border_value : bool) (input : arr3 bool) (p : pos) : bool :=
  match get3 input p with
  | Some b => b
  | None => border_value
  end.

(** [binary_erosion(input, structure, border_value=0)]: a voxel stays if the
    structuring element centred on it lies within the set. *)
Definition binary_erosion (input : arr3 bool) (structure : list pos) : arr3 bool :=
  mapi3 (fun p _ => forallb (fun d => voxel_or false input (padd p d)) structure) input.

(** [binary_dilation(input, structure, border_value=0)]: the voxels covered
    by the structuring element when its centre is on a voxel of the set. *)
Definition binary_dilation (input : arr3 bool) (structure : list pos) : arr3 bool :=
  mapi3 (fun p _ => existsb (fun d => voxel_or false input (padd p (pneg d))) structure) input.

(** [binary_closing(input, structure)]: the dilation, then the erosion of the
    result, both with [border_value=0]. *)
Definition binary_closing (input : arr3 bool) (structure : list pos) : arr3 bool :=
  binary_erosion (binary_dilation input structure) structure.

End ndimage.


(** ** scikit-image: [skimage.measure.label] *)

Module measure.

Import np.

(** The neighbours of a voxel for [connectivity = c]: the offsets reached by
    at most [c] orthogonal steps of one voxel.  In three dimensions
    [connectivity = 1] gives the 6 face neighbours and [connectivity = 3],
    the default ([connectivity=None], full connectivity), all 26. *)
Definition hops (d : pos) : Z :=
  let '(a, b, c) := d in Z.abs a + Z.abs b + Z.abs c.

Definition neighbours (connectivity : Z) : list pos :=
  filter (fun d => (0 <? hops d) && (hops d <=? connectivity)) (box (-1) 1).

(** The position of a voxel in raster order. *)
Definition raster (shape : vec3 Z) (p : pos) : Z :=
  let '(_, n2, n3) := shape in
  let '(i, j, k) := p in
  (i * n2 + j) * n3 + k.

Section Label.

Variable input : arr3 Z.
Variable background : Z.
Variable nbrs : list pos.

(** One round of propagation: every foreground voxel takes the smallest mark
    among its own and those of its neighbours of equal value. *)
Definition propagate (marks : arr3 Z) : arr3 Z :=
  mapi3 (fun p m =>
    match get3 input p with
    | Some v =>
        if v =? background then m
        else
          fold_left (fun acc d =>
            match get3 input (padd p d), get3 marks (padd p d) with
            | Some v', Some m' => if v' =? v then Z.min acc m' else acc
            | _, _ => acc
            end) nbrs m
    | None => m
    end) marks.

(** Propagation repeated until nothing changes; [settle fuel] allows up to
    [2 ^ fuel] rounds and says whether the marks it returns are stable. *)
Fixpoint settle (fuel : nat) (marks : arr3 Z) : arr3 Z * bool :=
  match fuel with
  | O => let marks' := propagate marks in (marks', arr3_eqb marks' marks)
  | S fuel' =>
      let (marks1, stable) := settle fuel' marks in
      if stable then (marks1, true) else settle fuel' marks1
  end.

(** Every voxel starts with its raster position as mark; when the marks are
    stable each component carries the raster position of its first voxel. *)
Definition initial_marks : arr3 Z :=
  let shape := shape3 input in
  mapi3 (fun p _ => raster shape p) input.

Definition voxel_count : Z :=
  let '(n1, n2, n3) := shape3 input in n1 * n2 * n3.

Definition component_marks : arr3 Z :=
  fst (settle (Z.to_nat (2 * Z.log2_up (voxel_count + 1) + 1)) initial_marks).

(** The marks of the foreground components, in raster order of their first
    voxels. *)
Definition component_roots (marks : arr3 Z) : list Z :=
  let shape := shape3 input in
  concat (ravel3
    (mapi3 (fun p m =>
       match get3 input p with
       | Some v =>
           if negb (v =? background) && (m =? raster shape p)
           then [m] else []
       | None => []
       end) marks)).

(** Components are numbered 1, 2, ... in that order: a component's label is
    the number of roots up to its own. *)
Definition rank (roots : list Z) (m : Z) : Z :=
  Z.of_nat (length (filter (fun r => r <=? m) roots)).

Definition label_with : arr3 Z :=
  let marks := component_marks in
  let roots := component_roots marks in
  mapi3 (fun p v =>
    if v =? background then 0
    else match get3 marks p with
         | Some m => rank roots m
         | None => 0
         end) input.

End Label.

(** [measure.label(input, background=background, connectivity=connectivity)]
    of a 3-d array: voxels of value [background] get the label 0, every other
    voxel the number of its connected component, where two voxels are
    connected when a chain of neighbours of one and the same value joins them. *)
Definition label (input : arr3 Z) (background connectivity : Z) : arr3 Z :=
  label_with input background (neighbours connectivity).

(** The same for a 2-d array, labelled as a volume of one plane. *)
Definition label2 (input : arr2 Z) (background connectivity : Z) : arr2 Z :=
  hd [] (label [input] background connectivity).

End measure.


(** ** The program *)

Module preprocess.

Import np ndimage measure.

(** [largest_label_volume(im, bg)], lines 151-170.  [im] is given flattened:
    [np.unique] flattens its argument, and nothing else reads [im].  Python's
    [None] is [None]. *)
Definition largest_label_volume (im : list Z) (bg : Z) : option Z :=
  (* vals, counts = np.unique(im, return_counts=True) *)
  let '(vals, counts) := unique im in
  (* counts = counts[vals != bg] ; vals = vals[vals != bg] *)
  let counts' := select (neq_mask vals bg) counts in
  let vals' := select (neq_mask vals bg) vals in
  (* if len(counts) > 0: return vals[np.argmax(counts)] else: return None *)
  if (0 <? length counts')%nat
  then Some (nth (argmax counts') vals' 0)
  else None.

(** A DICOM slice as [pydicom] presents it: the attributes the program reads.
    The rescale parameters are binary64 values.  The spacing attributes are
    kept as the decimal (rational) numbers DICOM stores, because the geometry
    of [resample] is analysed in exact arithmetic (see [np.xreal]). *)
Record dicom : Type := {
  pixel_array : arr2 Z;
  RescaleIntercept : float64;
  RescaleSlope : float64;
  SliceThickness : Q;
  PixelSpacing : Q * Q
}.

(** One pass of the loop of [get_pixels_hu], lines 75-86, on slice number [n].
    [image] is the [int16] array being updated in place. *)
Definition rescale_slice (slices : list dicom) (image : arr3 Z) (n : nat)
  : py.result (arr3 Z) :=
  match nth_error slices n, nth_error image n with
  | Some s, Some plane =>
      (* intercept = slices[slice_number].RescaleIntercept *)
      let intercept := RescaleIntercept s in
      (* slope = slices[slice_number].RescaleSlope *)
      let slope := RescaleSlope s in
      (* image[slice_number] = slope * image[slice_number].astype(np.float64)
         the product is binary64; storing it into the int16 array truncates *)
      let plane := map2 (fun v => float_to_int16 (PrimFloat.mul slope (to_float64 v))) plane in
      (* image[slice_number] = image[slice_number].astype(np.int16) *)
      let plane := map2 int16 plane in
      (* image[slice_number] += np.int16(intercept) *)
      let plane := map2 (fun v => int16 (v + float_to_int16 intercept)) plane in
      py.Ok (set_nth n plane image)
  | _, _ => py.Raise py.IndexError
  end.

(** [get_pixels_hu(slices)], lines 58-88. *)
Definition get_pixels_hu (slices : list dicom) : py.result (arr3 Z) :=
  (* image = np.stack([s.pixel_array for s in slices]) *)
  image <- stack (map pixel_array slices) ;;
  (* image = image.astype(np.int16) *)
  let image := map3 int16 image in
  (* for slice_number in range(len(slices)): ... *)
  image <- fold_left (fun acc n => image <- acc ;; rescale_slice slices image n)
             (seq 0 (length slices)) (py.Ok image) ;;
  (* return np.array(image, dtype=np.int16) *)
  py.Ok (map3 int16 image).

(** [normalize(image, min_bound=-1000.0, max_bound=400.0)], lines 235-247, on
    the [int16] volume the pipeline hands it: subtracting the float
    [min_bound] promotes the array to binary64. *)
Definition normalize (image : arr3 Z) (min_bound max_bound : float64) : arr3 float64 :=
  (* image = (image - min_bound) / (max_bound - min_bound) *)
  let image := map3 (fun v => PrimFloat.div (PrimFloat.sub (to_float64 v) min_bound)
                                            (PrimFloat.sub max_bound min_bound)) image in
  (* image[image > 1] = 1. *)
  let image := map3 (fun y => if PrimFloat.ltb 1 y then 1%float else y) image in
  (* image[image < 0] = 0. *)
  let image := map3 (fun y => if PrimFloat.ltb y 0 then 0%float else y) image in
  image.

(** [zero_center(image, pixel_mean=0.25)], lines 250-258. *)
Definition zero_center (image : arr3 float64) (pixel_mean : float64) : arr3 float64 :=
  map3 (fun y => PrimFloat.sub y pixel_mean) image.

(** [resample(image, scan, new_spacing)], lines 91-118.  [new_spacing] is the
    three-element list the callers pass. *)
Definition resample (image : arr3 Z) (scan : list dicom) (new_spacing : vec3 Q)
  : py.result (arr3 Z * vec3 xreal) :=
  match scan with
  | [] => py.Raise py.IndexError   (* scan[0] *)
  | s0 :: _ =>
      (* spacing = np.array([scan[0].SliceThickness, scan[0].PixelSpacing[0],
                             scan[0].PixelSpacing[1]], dtype=np.float32) *)
      let spacing : vec3 xreal :=
        (Fin (SliceThickness s0), Fin (fst (PixelSpacing s0)), Fin (snd (PixelSpacing s0))) in
      (* resize_factor = spacing / new_spacing *)
      let resize_factor := vzip xdiv spacing (vmap Fin new_spacing) in
      (* new_real_shape = image.shape * resize_factor *)
      let new_real_shape := vzip xmul (vmap x_of_Z (shape3 image)) resize_factor in
      (* new_shape = np.round(new_real_shape) *)
      let new_shape := vmap xround new_real_shape in
      (* real_resize_factor = new_shape / image.shape *)
      let real_resize_factor := vzip xdiv new_shape (vmap x_of_Z (shape3 image)) in
      (* new_spacing = spacing / real_resize_factor *)
      let new_spacing := vzip xdiv spacing real_resize_factor in
      (* image = scipy.ndimage.interpolation.zoom(image, real_resize_factor, mode='nearest') *)
      image <- zoom image real_resize_factor ;;
      (* return image, new_spacing *)
      py.Ok (image, new_spacing)
  end.

(** [resample_mask(image, space_directions, new_spacing)], lines 121-148.
    [space_directions] is the 3x3 matrix of the [.nrrd] header. *)
Definition resample_mask (image : arr3 Z) (space_directions : vec3 (vec3 Q))
    (new_spacing : vec3 Q)
  : py.result (arr3 Z * vec3 xreal) :=
  (* spacing = np.array([space_directions[0, 0], space_directions[1, 1],
                         space_directions[2, 2]], dtype=np.float32) *)
  let '((d00, _, _), (_, d11, _), (_, _, d22)) := space_directions in
  let spacing : vec3 xreal := (Fin d00, Fin d11, Fin d22) in
  (* resize_factor = spacing / new_spacing *)
  let resize_factor := vzip xdiv spacing (vmap Fin new_spacing) in
  (* new_real_shape = image.shape * resize_factor *)
  let new_real_shape := vzip xmul (vmap x_of_Z (shape3 image)) resize_factor in
  (* new_shape = np.round(new_real_shape) *)
  let new_shape := vmap xround new_real_shape in
  (* real_resize_factor = new_shape / image.shape *)
  let real_resize_factor := vzip xdiv new_shape (vmap x_of_Z (shape3 image)) in
  (* new_spacing = spacing / real_resize_factor *)
  let new_spacing := vzip xdiv spacing real_resize_factor in
  (* image = scipy.ndimage.interpolation.zoom(image, real_resize_factor, mode='nearest') *)
  image <- zoom image real_resize_factor ;;
  (* return image, new_spacing *)
  py.Ok (image, new_spacing).

(** The fill of line 204-217 on one axial slice of [binary_image]. *)
Definition fill_slice (axial : arr2 Z) : arr2 Z :=
  (* axial_slice = axial_slice - 1 *)
  let axial_slice := map2 (fun v => v - 1) axial in
  (* labeling = measure.label(axial_slice) *)
  let labeling := label2 axial_slice 0 2 in
  (* l_max = largest_label_volume(labeling, bg=0) *)
  let l_max := largest_label_volume (ravel2 labeling) 0 in
  (* if l_max is not None: binary_image[i][labeling != l_max] = 1 *)
  match l_max with
  | Some l_max => set_where2 (map2 (fun l => negb (l =? l_max)) labeling) 1 axial
  | None => axial
  end.

(** [segment_lung_mask], lines 181-185: the thresholded volume after the
    closing, shifted to the values 1 (air) and 2 (everything else). *)
Definition closed_volume (image : arr3 Z) : arr3 Z :=
  (* binary_image = np.array(image > -320, dtype=np.int8) *)
  let binary_image := map3 (fun v => if -320 <? v then 1 else 0) image in
  (* binary_image = scipy.ndimage.morphology.binary_closing(
                      binary_image, structure=np.ones([5, 5, 5])) + 1 *)
  map3 (fun b : bool => if b then 2 else 1)
       (binary_closing (map3 nonzero binary_image) (cube 5)).

(** Line 188: the labelling after the closing. *)
Definition air_labels (binary_image : arr3 Z) : arr3 Z :=
  (* labels = measure.label(binary_image, connectivity=1) *)
  label binary_image 0 1.

(** Lines 194-221: the exterior air is marked, the lung structures are
    filled, and the volume is made binary, 1 for the candidate lung voxels. *)
Definition lung_region (binary_image labels : arr3 Z) (fill_lung_structures : bool)
  : py.result (arr3 Z) :=
  (* background_label = labels[0, 0, 0] *)
  match get3 labels (0, 0, 0) with
  | None => py.Raise py.IndexError
  | Some background_label =>
      (* binary_image[background_label == labels] = 2 *)
      let binary_image :=
        set_where (map3 (fun l => background_label =? l) labels) 2 binary_image in
      (* if fill_lung_structures:
           for i, axial_slice in enumerate(binary_image): ... *)
      let binary_image :=
        if fill_lung_structures then map fill_slice binary_image else binary_image in
      (* binary_image -= 1 *)
      let binary_image := map3 (fun v => v - 1) binary_image in
      (* binary_image = 1 - binary_image *)
      let binary_image := map3 (fun v => 1 - v) binary_image in
      py.Ok binary_image
  end.

(** Line 224: the labelling for the largest-component filter. *)
Definition region_labels (binary_image : arr3 Z) : arr3 Z :=
  (* labels = measure.label(binary_image, background=0) *)
  label binary_image 0 3.

(** Lines 225-227: only the largest component is kept. *)
Definition keep_largest (binary_image labels : arr3 Z) : arr3 Z :=
  (* l_max = largest_label_volume(labels, bg=0) *)
  let l_max := largest_label_volume (ravel3 labels) 0 in
  (* if l_max is not None: binary_image[labels != l_max] = 0 *)
  match l_max with
  | Some l_max => set_where (map3 (fun l => negb (l =? l_max)) labels) 0 binary_image
  | None => binary_image
  end.

(** Lines 181-227 of [segment_lung_mask]: the candidate region, before the
    final dilation. *)
Definition lung_candidate (image : arr3 Z) (fill_lung_structures : bool)
  : py.result (arr3 Z) :=
  let binary_image := closed_volume image in
  let labels := air_labels binary_image in
  binary_image <- lung_region binary_image labels fill_lung_structures ;;
  let labels := region_labels binary_image in
  py.Ok (keep_largest binary_image labels).

(** [segment_lung_mask(image, fill_lung_structures=True)], lines 173-232. *)
Definition segment_lung_mask (image : arr3 Z) (fill_lung_structures : bool)
  : py.result (arr3 bool) :=
  binary_image <- lung_candidate image fill_lung_structures ;;
  (* dilated = scipy.ndimage.morphology.binary_dilation(
                 binary_image, structure=np.ones([10, 10, 10])) *)
  let dilated := binary_dilation (map3 nonzero binary_image) (cube 10) in
  (* return dilated *)
  py.Ok dilated.

End preprocess.


(** ** The callers: [load_image] and [display_ct_pet]

    Reading the files of a patient ([load_scan], [np.load]), printing and
    plotting are outside the embedding: what was read is an argument, and of
    [display_ct_pet] only the computation on the arrays is kept. *)

Module driver.

Import np ndimage measure preprocess.

(** [np.transpose(a, [2, 1, 0])]: the axes in reverse order,
    [out[k][j][i] = a[i][j][k]]. *)
Definition transpose_reversed {A : Type} (a : arr3 A) : arr3 A :=
  let '(n1, n2, n3) := shape3 a in
  map (fun k =>
    map (fun j =>
      flat_map (fun i => match get3 a (i, j, k) with
                         | Some x => [x]
                         | None => []
                         end) (zrange 0 (n1 - 1)))
      (zrange 0 (n2 - 1)))
    (zrange 0 (n3 - 1)).

(** What [load_scan(path)] returns: the CT slices, the PET slices, and the
    tumour mask as [nrrd.read] gives it, the array and the
    ['space directions'] of its header. *)
Definition loaded_scan : Type :=
  (list dicom * list dicom * (arr3 Z * vec3 (vec3 Q)))%type.

(** [load_image(path)], lines 261-289, from [load_scan(path)] on. *)
Definition load_image (loaded : loaded_scan)
  : py.result (arr3 Z * arr3 Z * arr3 Z * arr3 bool) :=
  (* ct_data, pet_data, tumor_mask = load_scan(path) *)
  let '(ct_data, pet_data, tumor_mask) := loaded in
  (* ct_pixel = get_pixels_hu(ct_data) *)
  ct_pixel <- get_pixels_hu ct_data ;;
  (* pet_pixel = get_pixels_hu(pet_data) *)
  pet_pixel <- get_pixels_hu pet_data ;;
  (* tumor_resampled_mask, spacing =
       resample_mask(tumor_mask[0], tumor_mask[1]['space directions']) *)
  resampled <- resample_mask (fst tumor_mask) (snd tumor_mask) (1, 1, 1)%Q ;;
  let tumor_resampled_mask := fst resampled in
  (* ct_resampled_image, spacing = resample(ct_pixel, ct_data, [1, 1, 1]) *)
  resampled <- resample ct_pixel ct_data (1, 1, 1)%Q ;;
  let ct_resampled_image := fst resampled in
  (* pet_resampled_image, spacing = resample(pet_pixel, pet_data, [1, 1, 1]) *)
  resampled <- resample pet_pixel pet_data (1, 1, 1)%Q ;;
  let pet_resampled_image := fst resampled in
  (* tumor_resampled_mask = np.transpose(tumor_resampled_mask, [2, 1, 0]) *)
  let tumor_resampled_mask := transpose_reversed tumor_resampled_mask in
  (* lung_mask = segment_lung_mask(ct_resampled_image, True) *)
  lung_mask <- segment_lung_mask ct_resampled_image true ;;
  (* return ct_resampled_image, pet_resampled_image, tumor_resampled_mask, lung_mask *)
  py.Ok (ct_resampled_image, pet_resampled_image, tumor_resampled_mask, lung_mask).

(** A bound of a Python slice on a sequence of length [n]: a negative index
    counts from the end, and the result is clipped to [0 .. n]. *)
Definition slice_index (n i : Z) : Z :=
  if i <? 0 then Z.max (i + n) 0 else Z.min i n.

(** [l[start:stop]] *)
Definition pyslice {A : Type} (l : list A) (start stop : Z) : list A :=
  let n := Z.of_nat (length l) in
  let a := slice_index n start in
  let b := slice_index n stop in
  firstn (Z.to_nat (b - a)) (skipn (Z.to_nat a) l).

(** Lines 307-308 of [display_ct_pet]: the PET volume is cut to the size of
    the CT volume.  [int] truncates the quotient toward zero. *)
Definition crop_pet {A : Type} (pet ct : arr3 A) : arr3 A :=
  let '(_, pet_rows, _) := shape3 pet in
  let '(_, ct_rows, _) := shape3 ct in
  (* difference = int((pet.shape[1] - ct.shape[1]) / 2) *)
  let difference := Z.quot (pet_rows - ct_rows) 2 in
  (* pet = pet[:, difference:-difference, difference:-difference] *)
  map (fun plane =>
         map (fun row => pyslice row difference (- difference))
             (pyslice plane difference (- difference)))
      pet.

(** [np.argmax(a)] of the flattened array: the position of the first
    occurrence of the maximum.  [argmax_scan r i bi bv] scans [r], whose first
    element has position [i], with the best position [bi] and value [bv] so
    far.  On an empty array NumPy raises [ValueError]. *)
Fixpoint argmax_scan (r : list Z) (i bi : nat) (bv : Z) : nat :=
  match r with
  | [] => bi
  | x :: r' => if bv <? x then argmax_scan r' (S i) i x else argmax_scan r' (S i) bi bv
  end.

Definition argmax_flat (a : list Z) : py.result nat :=
  match a with
  | [] => py.Raise py.ValueError
  | x :: r => py.Ok (argmax_scan r 1 0 x)
  end.

(** Line 311 of [display_ct_pet]: the slice that is shown. *)
Definition image_index (seg : arr3 Z) : py.result Z :=
  let '(_, n2, n3) := shape3 seg in
  (* np.argmax(seg) *)
  flat <- argmax_flat (ravel3 seg) ;;
  (* image_index = np.unravel_index(flat, seg.shape)[0] + 10 *)
  py.Ok (Z.of_nat flat / (n2 * n3) + 10).

End driver.


(** * Part II: the theory *)

(** ** [np.unique] and [np.argmax] *)

Section Unique.

Import np.

(** The number of occurrences a table records for [v]. *)
Fixpoint recorded (v : Z) (t : list (Z * nat)) : nat :=
  match t with
  | [] => 0
  | (w, c) :: r => if v =? w then c else recorded v r
  end.

Definition keys_increasing (t : list (Z * nat)) : Prop :=
  StronglySorted Z.lt (map fst t).

Lemma bump_keys v t x :
  In x (map fst (bump v t)) <-> x = v \/ In x (map fst t).
Proof.
  induction t as [|[w c] r IH]; simpl.
  - intuition.
  - destruct (v <? w) eqn:Hlt; simpl; [intuition|].
    destruct (v =? w) eqn:Heq; simpl.
    + apply Z.eqb_eq in Heq. subst. intuition.
    + rewrite IH. intuition.
Qed.

Lemma bump_increasing v t :
  keys_increasing t -> keys_increasing (bump v t).
Proof.
  unfold keys_increasing.
  induction t as [|[w c] r IH]; simpl; intros Hs.
  - repeat constructor.
  - inversion Hs as [|? ? Hr Hw]; subst.
    destruct (v <? w) eqn:Hlt; simpl.
    + apply Z.ltb_lt in Hlt. constructor; [exact Hs|].
      constructor; [exact Hlt|].
      eapply Forall_impl; [|exact Hw]. intros; lia.
    + destruct (v =? w) eqn:Heq; simpl.
      * constructor; assumption.
      * apply Z.ltb_ge in Hlt. apply Z.eqb_neq in Heq.
        constructor; [apply IH; exact Hr|].
        apply Forall_forall. intros x Hx.
        apply bump_keys in Hx. destruct Hx as [->|Hx]; [lia|].
        rewrite Forall_forall in Hw. auto.
Qed.

Lemma recorded_absent v t :
  ~ In v (map fst t) -> recorded v t = 0%nat.
Proof.
  induction t as [|[w c] r IH]; simpl; intros Hn; [reflexivity|].
  destruct (v =? w) eqn:Heq.
  - apply Z.eqb_eq in Heq. subst. exfalso. auto.
  - apply IH. auto.
Qed.

Lemma recorded_bump v u t :
  keys_increasing t ->
  recorded u (bump v t) = if u =? v then S (recorded u t) else recorded u t.
Proof.
  unfold keys_increasing.
  induction t as [|[w c] r IH]; simpl; intros Hs.
  - destruct (u =? v); reflexivity.
  - inversion Hs as [|? ? Hr Hw]; subst.
    destruct (v <? w) eqn:Hlt; simpl.
    + apply Z.ltb_lt in Hlt.
      destruct (u =? v) eqn:Huv; [|reflexivity].
      apply Z.eqb_eq in Huv. subst u.
      replace (v =? w) with false by (symmetry; apply Z.eqb_neq; lia).
      rewrite recorded_absent; [reflexivity|].
      intros Hin. rewrite Forall_forall in Hw. apply Hw in Hin. lia.
    + destruct (v =? w) eqn:Heq; simpl.
      * apply Z.eqb_eq in Heq. subst w.
        destruct (u =? v); reflexivity.
      * apply Z.eqb_neq in Heq.
        destruct (u =? w) eqn:Huw.
        -- apply Z.eqb_eq in Huw. subst w.
           replace (u =? v) with false by (symmetry; apply Z.eqb_neq; lia).
           reflexivity.
        -- apply IH; exact Hr.
Qed.

Lemma tally_increasing a : keys_increasing (tally a).
Proof.
  induction a as [|x a IH]; simpl.
  - constructor.
  - apply bump_increasing, IH.
Qed.

(** [np.unique] counts every value exactly. *)
Lemma tally_recorded a v : recorded v (tally a) = occ a v.
Proof.
  induction a as [|x a IH]; simpl; [reflexivity|].
  rewrite recorded_bump by apply tally_increasing.
  rewrite IH.
  destruct (Z.eq_dec x v) as [->|Hne].
  - rewrite Z.eqb_refl. reflexivity.
  - replace (v =? x) with false by (symmetry; apply Z.eqb_neq; congruence).
    reflexivity.
Qed.

Lemma tally_keys a x : In x (map fst (tally a)) <-> In x a.
Proof.
  induction a as [|y a IH]; simpl; [tauto|].
  rewrite bump_keys, IH. intuition.
Qed.

Lemma recorded_In v c t :
  keys_increasing t -> In (v, c) t -> recorded v t = c.
Proof.
  unfold keys_increasing.
  induction t as [|[w d] r IH]; simpl; intros Hs Hin; [contradiction|].
  inversion Hs as [|? ? Hr Hw]; subst.
  destruct Hin as [Heq|Hin].
  - inversion Heq; subst. rewrite Z.eqb_refl. reflexivity.
  - destruct (v =? w) eqn:Hvw.
    + apply Z.eqb_eq in Hvw. subst w. exfalso.
      rewrite Forall_forall in Hw.
      assert (v < v) by (apply Hw; apply (in_map (@fst Z nat)) in Hin; exact Hin). lia.
    + apply IH; assumption.
Qed.

Lemma tally_In a v c : In (v, c) (tally a) -> c = occ a v /\ In v a.
Proof.
  intros Hin. split.
  - rewrite <- tally_recorded. symmetry.
    apply recorded_In; [apply tally_increasing|exact Hin].
  - apply tally_keys. apply (in_map (@fst Z nat)) in Hin. exact Hin.
Qed.

Lemma In_tally a v : In v a -> In (v, occ a v) (tally a).
Proof.
  intros Hin. apply tally_keys in Hin.
  apply in_map_iff in Hin. destruct Hin as [[w c] [Hw Hin]].
  simpl in Hw. subst w.
  destruct (tally_In _ _ _ Hin) as [-> _]. exact Hin.
Qed.

(** Selecting by [vals != bg] is filtering the table on its keys. *)
Lemma select_neq_fst t bg :
  select (neq_mask (map fst t) bg) (map fst t)
  = map fst (filter (fun p : Z * nat => negb (fst p =? bg)) t).
Proof.
  unfold neq_mask.
  induction t as [|[w c] r IH]; simpl; [reflexivity|].
  destruct (w =? bg); simpl; rewrite IH; reflexivity.
Qed.

Lemma select_neq_snd t bg :
  select (neq_mask (map fst t) bg) (map snd t)
  = map snd (filter (fun p : Z * nat => negb (fst p =? bg)) t).
Proof.
  unfold neq_mask.
  induction t as [|[w c] r IH]; simpl; [reflexivity|].
  destruct (w =? bg); simpl; rewrite IH; reflexivity.
Qed.

Lemma filter_increasing (f : Z * nat -> bool) t :
  keys_increasing t -> keys_increasing (filter f t).
Proof.
  unfold keys_increasing.
  induction t as [|x r IH]; simpl; intros Hs; [constructor|].
  inversion Hs as [|? ? Hr Hw]; subst.
  destruct (f x); simpl; [|apply IH; exact Hr].
  constructor; [apply IH; exact Hr|].
  rewrite Forall_forall in *. intros y Hy. apply Hw.
  apply in_map_iff in Hy. destruct Hy as [p [<- Hp]].
  apply filter_In in Hp. apply in_map. tauto.
Qed.

(** [np.argmax] returns the first position of the maximum.  The scan is at
    the end of [pre], the part already seen, whose maximum [bv] stands first
    at index [bi]. *)
Lemma argmax_from_spec r : forall pre bi bv,
  (bi < length pre)%nat ->
  nth bi pre 0%nat = bv ->
  (forall j, (j < length pre)%nat -> (nth j pre 0 <= bv)%nat) ->
  (forall j, (j < bi)%nat -> (nth j pre 0 < bv)%nat) ->
  let l := pre ++ r in
  let m := argmax_from r (length pre) bi bv in
  (m < length l)%nat /\
  (forall j, (j < length l)%nat -> (nth j l 0 <= nth m l 0)%nat) /\
  (forall j, (j < m)%nat -> (nth j l 0 < nth m l 0)%nat).
Proof.
  induction r as [|x r IH]; intros pre bi bv Hbi Hbv Hmax Hfirst; simpl.
  - rewrite app_nil_r. subst bv. auto.
  - assert (Hlen : length (pre ++ [x]) = S (length pre))
      by (rewrite length_app; simpl; lia).
    assert (Hx : nth (length pre) (pre ++ [x]) 0%nat = x)
      by (rewrite app_nth2, Nat.sub_diag by lia; reflexivity).
    replace (pre ++ x :: r) with ((pre ++ [x]) ++ r)
      by (rewrite <- app_assoc; reflexivity).
    rewrite <- Hlen.
    destruct (bv <? x)%nat eqn:Hcmp.
    + apply Nat.ltb_lt in Hcmp.
      apply IH.
      * lia.
      * exact Hx.
      * intros j Hj. destruct (Nat.lt_ge_cases j (length pre)) as [Hl|Hg].
        -- rewrite app_nth1 by exact Hl. specialize (Hmax j Hl). lia.
        -- replace j with (length pre) by lia. rewrite Hx. lia.
      * intros j Hj. rewrite app_nth1 by exact Hj. specialize (Hmax j Hj). lia.
    + apply Nat.ltb_ge in Hcmp.
      apply IH.
      * lia.
      * rewrite app_nth1 by exact Hbi. exact Hbv.
      * intros j Hj. destruct (Nat.lt_ge_cases j (length pre)) as [Hl|Hg].
        -- rewrite app_nth1 by exact Hl. auto.
        -- replace j with (length pre) by lia. rewrite Hx. exact Hcmp.
      * intros j Hj. rewrite app_nth1 by lia. auto.
Qed.

Lemma argmax_spec l :
  l <> [] ->
  (argmax l < length l)%nat /\
  (forall j, (j < length l)%nat -> (nth j l 0 <= nth (argmax l) l 0)%nat) /\
  (forall j, (j < argmax l)%nat -> (nth j l 0 < nth (argmax l) l 0)%nat).
Proof.
  destruct l as [|x r]; [congruence|]. intros _.
  apply (argmax_from_spec r [x] 0%nat x); simpl.
  - lia.
  - reflexivity.
  - intros [|j] Hj; [lia|lia].
  - intros j Hj. lia.
Qed.

(** In a table with increasing keys, a later entry has a larger key. *)
Lemma keys_increasing_nth t i j :
  keys_increasing t -> (i < j < length t)%nat ->
  fst (nth i t (0, 0%nat)) < fst (nth j t (0, 0%nat)).
Proof.
  unfold keys_increasing. revert i j.
  induction t as [|x r IH]; intros i j Hs Hij; simpl in *; [lia|].
  inversion Hs as [|? ? Hr Hw]; subst.
  destruct j as [|j]; [lia|].
  destruct i as [|i].
  - rewrite Forall_forall in Hw. apply Hw.
    apply in_map. apply nth_In. lia.
  - apply IH; [exact Hr|lia].
Qed.

End Unique.

(** ** [largest_label_volume] *)

Section LargestLabelVolume.

Import np preprocess.

(** The table [largest_label_volume] takes its answer from: the value/count
    pairs of [np.unique] without the background value. *)
Definition foreground_table (im : list Z) (bg : Z) : list (Z * nat) :=
  filter (fun p : Z * nat => negb (fst p =? bg)) (tally im).

Lemma largest_label_volume_table im bg :
  largest_label_volume im bg =
  match foreground_table im bg with
  | [] => None
  | _ :: _ =>
      Some (fst (nth (argmax (map snd (foreground_table im bg)))
                     (foreground_table im bg) (0, 0%nat)))
  end.
Proof.
  unfold largest_label_volume, unique, foreground_table.
  rewrite select_neq_fst, select_neq_snd.
  set (t := filter _ _).
  rewrite length_map.
  destruct t as [|x r] eqn:Ht; [reflexivity|].
  rewrite <- Ht.
  replace (0 <? length t)%nat with true
    by (symmetry; apply Nat.ltb_lt; rewrite Ht; simpl; lia).
  f_equal.
  change 0 with (fst (0, 0%nat)) at 1.
  apply map_nth.
Qed.

Lemma foreground_table_In im bg v c :
  In (v, c) (foreground_table im bg) <-> v <> bg /\ In v im /\ c = occ im v.
Proof.
  unfold foreground_table. rewrite filter_In. simpl. split.
  - intros [Hin Hne].
    apply negb_true_iff, Z.eqb_neq in Hne.
    destruct (tally_In _ _ _ Hin). auto.
  - intros (Hne & Hin & ->). split; [apply In_tally; exact Hin|].
    apply negb_true_iff, Z.eqb_neq. exact Hne.
Qed.

Lemma foreground_table_nil im bg :
  foreground_table im bg = [] <-> Forall (fun x => x = bg) im.
Proof.
  split.
  - intros Hnil. apply Forall_forall. intros x Hx.
    destruct (Z.eq_dec x bg) as [|Hne]; [assumption|exfalso].
    assert (Hin : In (x, occ im x) (foreground_table im bg))
      by (apply foreground_table_In; auto).
    rewrite Hnil in Hin. exact Hin.
  - intros Hall. destruct (foreground_table im bg) as [|[v c] r] eqn:Ht; [reflexivity|].
    exfalso.
    assert (Hin : In (v, c) (foreground_table im bg)) by (rewrite Ht; left; reflexivity).
    apply foreground_table_In in Hin. destruct Hin as (Hne & Hin & _).
    rewrite Forall_forall in Hall. auto.
Qed.

(** C10.  [largest_label_volume im bg] is [None] exactly when every element of
    [im] is [bg]; otherwise it is a value of [im] other than [bg] that occurs
    at least as often as every other non-background value, and among the
    values tied for the greatest count it is the numerically smallest. *)
Theorem largest_label_volume_spec (im : list Z) (bg : Z) :
  (largest_label_volume im bg = None <-> Forall (fun x => x = bg) im) /\
  (~ Forall (fun x => x = bg) im ->
     exists v, largest_label_volume im bg = Some v /\
       v <> bg /\ In v im /\
       (forall w, w <> bg -> (occ im w <= occ im v)%nat) /\
       (forall w, w <> bg -> occ im w = occ im v -> v <= w)).
Proof.
  rewrite largest_label_volume_table.
  pose proof (foreground_table_nil im bg) as Hnil.
  pose proof (foreground_table_In im bg) as HIn.
  assert (Hinc : keys_increasing (foreground_table im bg))
    by (apply filter_increasing, tally_increasing).
  destruct (foreground_table im bg) as [|x r] eqn:Ht.
  - split; [tauto|]. intros Hn. exfalso. apply Hn, Hnil. reflexivity.
  - rewrite <- Ht in *. set (t := foreground_table im bg) in *.
    assert (Hne : map snd t <> []) by (rewrite Ht; discriminate).
    destruct (argmax_spec _ Hne) as (Hlt & Hmax & Hfirst).
    rewrite length_map in Hlt, Hmax.
    set (m := argmax (map snd t)) in *.
    assert (Hsnd : forall j, nth j (map snd t) 0%nat = snd (nth j t (0, 0%nat))).
    { intros j. change 0%nat with (snd (0, 0%nat)) at 1. apply map_nth. }
    destruct (nth m t (0, 0%nat)) as [v c] eqn:Hv.
    assert (Hvin : In (v, c) t) by (rewrite <- Hv; apply nth_In; exact Hlt).
    apply HIn in Hvin. destruct Hvin as (Hvbg & Hvim & Hc).
    split.
    + split; [discriminate|].
      intros Hall. apply Hnil in Hall. rewrite Ht in Hall. discriminate.
    + intros _. exists v. simpl.
      split; [reflexivity|]. split; [exact Hvbg|]. split; [exact Hvim|].
      assert (Hpos : forall w, w <> bg -> (0 < occ im w)%nat ->
                exists j, (j < length t)%nat /\ nth j t (0, 0%nat) = (w, occ im w)).
      { intros w Hw Hocc.
        assert (Hwin : In (w, occ im w) t).
        { apply HIn. repeat split; auto.
          apply (count_occ_In Z.eq_dec). unfold occ in Hocc. lia. }
        destruct (In_nth _ _ (0, 0%nat) Hwin) as [j [Hj Hnth]]. eauto. }
      split.
      * intros w Hw.
        destruct (Nat.eq_dec (occ im w) 0) as [Hz|Hnz]; [lia|].
        destruct (Hpos w Hw) as [j [Hj Hnth]]; [lia|].
        specialize (Hmax j Hj). rewrite !Hsnd, Hnth, Hv in Hmax.
        simpl in Hmax. lia.
      * intros w Hw Htie.
        assert (Hvpos : (0 < occ im v)%nat)
          by (unfold occ; apply (count_occ_In Z.eq_dec); exact Hvim).
        destruct (Hpos w Hw) as [j [Hj Hnth]]; [lia|].
        destruct (Nat.lt_trichotomy j m) as [Hjm|[Hjm|Hjm]].
        -- specialize (Hfirst j Hjm). rewrite !Hsnd, Hnth, Hv in Hfirst.
           simpl in Hfirst. lia.
        -- subst j. rewrite Hv in Hnth. inversion Hnth. lia.
        -- pose proof (keys_increasing_nth t m j Hinc (conj Hjm Hj)) as Hk.
           rewrite Hnth, Hv in Hk. simpl in Hk. lia.
Qed.

(** The claim at a labelling in which 1 and 2 are tied for the greatest
    count. *)
Lemma largest_label_volume_spec_witness :
  exists v, largest_label_volume [2; 1; 0; 1; 2; 0; 0] 0 = Some v /\
    v <> 0 /\ In v [2; 1; 0; 1; 2; 0; 0] /\
    (forall w, w <> 0 -> (occ [2; 1; 0; 1; 2; 0; 0]%Z w <= occ [2; 1; 0; 1; 2; 0; 0]%Z v)%nat) /\
    (forall w, w <> 0 -> occ [2; 1; 0; 1; 2; 0; 0] w = occ [2; 1; 0; 1; 2; 0; 0] v -> v <= w).
Proof.
  apply (proj2 (largest_label_volume_spec [2; 1; 0; 1; 2; 0; 0] 0)).
  intros H. inversion H as [|x l Hx Hl]. discriminate Hx.
Defined.

End LargestLabelVolume.


(** ** Outcomes *)

Section Outcomes.

Context {A B : Type}.


Lemma bind_ok_inv (c : py.result A) (k : A -> py.result B) b :
  py.bind c k = py.Ok b -> exists a, c = py.Ok a /\ k a = py.Ok b.
Proof.
  destruct c as [a|e']; simpl; intros H; [eauto|discriminate].
Qed.

End Outcomes.

(** ** Arrays: lookups under the elementwise operations *)

Section Lookup.

Import np.

Context {A : Type}.

Lemma zth_Some (l : list A) i x :
  zth l i = Some x -> 0 <= i < Z.of_nat (length l).
Proof.
  unfold zth. destruct (i <? 0) eqn:Hi; [discriminate|].
  apply Z.ltb_ge in Hi. intros H.
  assert (Hn : nth_error l (Z.to_nat i) <> None) by congruence.
  apply nth_error_Some in Hn. lia.
Qed.

Lemma zth_in_range (l : list A) i :
  0 <= i < Z.of_nat (length l) -> exists x, zth l i = Some x.
Proof.
  intros Hi. unfold zth.
  replace (i <? 0) with false by (symmetry; apply Z.ltb_ge; lia).
  destruct (nth_error l (Z.to_nat i)) eqn:Hn; [eauto|].
  apply nth_error_None in Hn. lia.
Qed.

Lemma zth_None (l : list A) i :
  zth l i = None <-> i < 0 \/ Z.of_nat (length l) <= i.
Proof.
  split.
  - intros H. destruct (Z_lt_dec i 0); [auto|].
    destruct (Z_le_dec (Z.of_nat (length l)) i); [auto|].
    destruct (zth_in_range l i) as [x Hx]; [lia|congruence].
  - intros H. destruct (zth l i) eqn:Hz; [|reflexivity].
    apply zth_Some in Hz. lia.
Qed.

Lemma zth_In (l : list A) i x : zth l i = Some x -> In x l.
Proof.
  unfold zth. destruct (i <? 0); [discriminate|]. apply nth_error_In.
Qed.

Lemma zth_cons (x : A) (l : list A) i :
  zth (x :: l) i = if i =? 0 then Some x else zth l (i - 1).
Proof.
  unfold zth. destruct (i =? 0) eqn:H0.
  - apply Z.eqb_eq in H0. subst. reflexivity.
  - apply Z.eqb_neq in H0. destruct (i <? 0) eqn:Hi.
    + replace (i - 1 <? 0) with true by (symmetry; apply Z.ltb_lt; lia). reflexivity.
    + apply Z.ltb_ge in Hi.
      replace (i - 1 <? 0) with false by (symmetry; apply Z.ltb_ge; lia).
      replace (Z.to_nat i) with (S (Z.to_nat (i - 1))) by lia. reflexivity.
Qed.

Lemma zth_repeat (x : A) n i :
  zth (repeat x n) i = if (0 <=? i) && (i <? Z.of_nat n) then Some x else None.
Proof.
  destruct ((0 <=? i) && (i <? Z.of_nat n)) eqn:Hr.
  - apply andb_true_iff in Hr. destruct Hr as [H0 Hn].
    apply Z.leb_le in H0. apply Z.ltb_lt in Hn.
    destruct (zth_in_range (repeat x n) i) as [y Hy].
    { rewrite repeat_length. lia. }
    rewrite Hy. apply zth_In, repeat_spec in Hy. subst. reflexivity.
  - apply zth_None. rewrite repeat_length.
    apply andb_false_iff in Hr. destruct Hr as [H|H];
      [apply Z.leb_gt in H|apply Z.ltb_ge in H]; lia.
Qed.

End Lookup.

Section LookupMap.

Import np.

Context {A B : Type}.

Lemma zth_map (f : A -> B) (l : list A) i :
  zth (map f l) i = option_map f (zth l i).
Proof.
  unfold zth. destruct (i <? 0); [reflexivity|]. apply nth_error_map.
Qed.

Lemma zth_mapi_from (f : Z -> A -> B) (l : list A) : forall s i,
  zth (mapi_from f s l) i = option_map (f (s + i)) (zth l i).
Proof.
  induction l as [|x r IH]; intros s i; simpl.
  - unfold zth. destruct (i <? 0); [reflexivity|].
    destruct (Z.to_nat i); reflexivity.
  - rewrite !zth_cons. destruct (i =? 0) eqn:H0.
    + apply Z.eqb_eq in H0. subst. simpl. rewrite Z.add_0_r. reflexivity.
    + rewrite IH. replace (s + 1 + (i - 1)) with (s + i) by lia. reflexivity.
Qed.

Lemma zth_mapi (f : Z -> A -> B) (l : list A) i :
  zth (mapi f l) i = option_map (f i) (zth l i).
Proof. unfold mapi. rewrite zth_mapi_from. reflexivity. Qed.

Lemma length_mapi_from (f : Z -> A -> B) (l : list A) s :
  length (mapi_from f s l) = length l.
Proof. revert s. induction l; intros; simpl; auto. Qed.

Lemma length_mapi (f : Z -> A -> B) (l : list A) :
  length (mapi f l) = length l.
Proof. apply length_mapi_from. Qed.

End LookupMap.

Section Arrays3.

Import np.

Context {A B : Type}.

Lemma get2_map2 (f : A -> B) (a : arr2 A) j k :
  get2 (map2 f a) j k = option_map f (get2 a j k).
Proof.
  unfold get2, map2. rewrite zth_map.
  destruct (zth a j); simpl; [apply zth_map|reflexivity].
Qed.

Lemma get3_map3 (f : A -> B) (a : arr3 A) p :
  get3 (map3 f a) p = option_map f (get3 a p).
Proof.
  destruct p as [[i j] k]. unfold get3, map3. rewrite zth_map.
  destruct (zth a i); simpl; [apply (get2_map2 f)|reflexivity].
Qed.

Lemma get3_mapi3 (f : pos -> A -> B) (a : arr3 A) p :
  get3 (mapi3 f a) p = option_map (f p) (get3 a p).
Proof.
  destruct p as [[i j] k]. unfold get3, get2, mapi3. rewrite zth_mapi.
  destruct (zth a i) as [plane|]; simpl; [|reflexivity].
  rewrite zth_mapi. destruct (zth plane j) as [row|]; simpl; [|reflexivity].
  rewrite zth_mapi. reflexivity.
Qed.

Lemma get3_full3 n1 n2 n3 (c : A) i j k :
  get3 (full3 n1 n2 n3 c) (i, j, k) =
  if (0 <=? i) && (i <? Z.of_nat n1) && ((0 <=? j) && (j <? Z.of_nat n2))
     && ((0 <=? k) && (k <? Z.of_nat n3))
  then Some c else None.
Proof.
  unfold get3, get2, full3. rewrite zth_repeat.
  destruct ((0 <=? i) && (i <? Z.of_nat n1)); simpl; [|reflexivity].
  rewrite zth_repeat.
  destruct ((0 <=? j) && (j <? Z.of_nat n2)); simpl; [|reflexivity].
  apply zth_repeat.
Qed.

End Arrays3.


(** ** Arrays: membership, extensionality, shapes, sums *)

Section ListExt.

Import np.

Context {A : Type}.

Lemma zth_nat (l : list A) (n : nat) : zth l (Z.of_nat n) = nth_error l n.
Proof.
  unfold zth.
  replace (Z.of_nat n <? 0) with false by (symmetry; apply Z.ltb_ge; lia).
  rewrite Nat2Z.id. reflexivity.
Qed.

Lemma zth_ext (l l' : list A) : (forall i, zth l i = zth l' i) -> l = l'.
Proof.
  intros H. apply nth_error_ext. intros n. rewrite <- !zth_nat. apply H.
Qed.

Lemma In_zth (l : list A) x : In x l <-> exists i, zth l i = Some x.
Proof.
  split.
  - intros H. apply In_nth_error in H. destruct H as [n Hn].
    exists (Z.of_nat n). rewrite zth_nat. exact Hn.
  - intros [i Hi]. eapply zth_In; eauto.
Qed.

Lemma zth_succ (x : A) (l : list A) i :
  0 <= i -> zth (x :: l) (i + 1) = zth l i.
Proof.
  intros Hi. rewrite zth_cons.
  replace (i + 1 =? 0) with false by (symmetry; apply Z.eqb_neq; lia).
  replace (i + 1 - 1) with i by lia. reflexivity.
Qed.

End ListExt.

Section Pointwise2.

Import np.

Context {A B : Type}.

Lemma Forall2_zth (R : A -> B -> Prop) (l : list A) : forall (l' : list B),
  length l = length l' ->
  (forall i x y, zth l i = Some x -> zth l' i = Some y -> R x y) ->
  Forall2 R l l'.
Proof.
  induction l as [|x l IH]; intros [|y l'] Hlen H; simpl in Hlen; try discriminate.
  - constructor.
  - constructor.
    + apply (H 0); reflexivity.
    + apply IH; [lia|]. intros i a b Ha Hb.
      pose proof (zth_Some _ _ _ Ha) as Hi.
      apply (H (i + 1)); [rewrite zth_succ by lia|rewrite zth_succ by lia]; assumption.
Qed.

Lemma Forall2_zth_inv (R : A -> B -> Prop) (l : list A) (l' : list B) :
  Forall2 R l l' ->
  forall i x y, zth l i = Some x -> zth l' i = Some y -> R x y.
Proof.
  induction 1 as [|a b l l' Hab Hl IH]; intros i x y Hx Hy.
  - unfold zth in Hx. destruct (i <? 0); [discriminate|].
    destruct (Z.to_nat i); discriminate.
  - rewrite zth_cons in Hx. rewrite zth_cons in Hy. destruct (i =? 0).
    + inversion Hx; inversion Hy; subst. exact Hab.
    + eapply IH; eauto.
Qed.

End Pointwise2.

Section Pointwise.

Import np.

Context {A B : Type}.

Lemma In_mapi (f : Z -> A -> B) (l : list A) y :
  In y (mapi f l) <-> exists i x, zth l i = Some x /\ y = f i x.
Proof.
  rewrite In_zth. split.
  - intros [i Hi]. rewrite zth_mapi in Hi.
    destruct (zth l i) as [x|] eqn:Hx; simpl in Hi; [|discriminate].
    exists i, x. split; congruence.
  - intros (i & x & Hx & ->). exists i. rewrite zth_mapi, Hx. reflexivity.
Qed.

Lemma mapi_ext (f g : Z -> A -> B) (l : list A) :
  (forall i x, zth l i = Some x -> f i x = g i x) -> mapi f l = mapi g l.
Proof.
  intros H. apply zth_ext. intros i. rewrite !zth_mapi.
  destruct (zth l i) as [x|] eqn:Hx; simpl; [|reflexivity].
  f_equal. apply H. exact Hx.
Qed.

Lemma Forall2_mapi (R : B -> A -> Prop) (f : Z -> A -> B) (l : list A) :
  (forall i x, zth l i = Some x -> R (f i x) x) -> Forall2 R (mapi f l) l.
Proof.
  intros H. apply Forall2_zth; [apply length_mapi|].
  intros i y x Hy Hx. rewrite zth_mapi, Hx in Hy. simpl in Hy.
  inversion Hy; subst. apply H. exact Hx.
Qed.

End Pointwise.

Section Arr3.

Import np.

Context {A B : Type}.

Lemma mapi_id (l : list A) : mapi (fun _ x => x) l = l.
Proof.
  apply zth_ext. intros i. rewrite zth_mapi. destruct (zth l i); reflexivity.
Qed.

Lemma mapi3_ext (f g : pos -> A -> B) (a : arr3 A) :
  (forall p x, get3 a p = Some x -> f p x = g p x) -> mapi3 f a = mapi3 g a.
Proof.
  intros H. unfold mapi3. apply mapi_ext. intros i plane Hp.
  apply mapi_ext. intros j row Hr. apply mapi_ext. intros k x Hx.
  apply H. unfold get3, get2. rewrite Hp, Hr. exact Hx.
Qed.

Lemma mapi3_fixed (f : pos -> A -> A) (a : arr3 A) p x :
  mapi3 f a = a -> get3 a p = Some x -> f p x = x.
Proof.
  intros Hfix Hget. pose proof (get3_mapi3 f a p) as H.
  rewrite Hfix, Hget in H. simpl in H. congruence.
Qed.

Lemma In_ravel3_mapi3 (f : pos -> A -> B) (a : arr3 A) y :
  In y (ravel3 (mapi3 f a)) <-> exists p x, get3 a p = Some x /\ y = f p x.
Proof.
  unfold ravel3, mapi3. split.
  - intros H. apply in_concat in H. destruct H as [row [Hrow Hy]].
    apply in_concat in Hrow. destruct Hrow as [plane [Hplane Hrow]].
    apply In_mapi in Hplane. destruct Hplane as (i & pl & Hi & ->).
    apply In_mapi in Hrow. destruct Hrow as (j & rw & Hj & ->).
    apply In_mapi in Hy. destruct Hy as (k & x & Hk & ->).
    exists (i, j, k), x. split; [|reflexivity].
    unfold get3, get2. rewrite Hi, Hj. exact Hk.
  - intros ([[i j] k] & x & Hget & ->). unfold get3, get2 in Hget.
    destruct (zth a i) as [pl|] eqn:Hi; [|discriminate].
    destruct (zth pl j) as [rw|] eqn:Hj; [|discriminate].
    apply in_concat. eexists. split.
    + apply in_concat. eexists. split.
      * apply In_mapi. exists i, pl. split; [exact Hi|reflexivity].
      * apply In_mapi. exists j, rw. split; [exact Hj|reflexivity].
    + apply In_mapi. exists k, x. split; [exact Hget|reflexivity].
Qed.

Lemma In_ravel3 (a : arr3 A) x :
  In x (ravel3 a) <-> exists p, get3 a p = Some x.
Proof.
  unfold ravel3. split.
  - intros H. apply in_concat in H. destruct H as [row [Hrow Hx]].
    apply in_concat in Hrow. destruct Hrow as [plane [Hplane Hrow]].
    apply In_zth in Hplane, Hrow, Hx.
    destruct Hplane as [i Hi], Hrow as [j Hj], Hx as [k Hk].
    exists (i, j, k). unfold get3, get2. rewrite Hi, Hj. exact Hk.
  - intros [[[i j] k] Hget]. unfold get3, get2 in Hget.
    destruct (zth a i) as [pl|] eqn:Hi; [|discriminate].
    destruct (zth pl j) as [rw|] eqn:Hj; [|discriminate].
    apply in_concat. exists rw. split; [|eapply zth_In; eauto].
    apply in_concat. exists pl. split; eapply zth_In; eauto.
Qed.

(** Where a rectangular array has elements. *)
Lemma get3_rect (a : arr3 A) n1 n2 n3 i j k :
  rect3 a n1 n2 n3 ->
  ((exists x, get3 a (i, j, k) = Some x) <->
   0 <= i < Z.of_nat n1 /\ 0 <= j < Z.of_nat n2 /\ 0 <= k < Z.of_nat n3).
Proof.
  intros [Hlen Hplanes]. rewrite Forall_forall in Hplanes. split.
  - intros [x Hx]. unfold get3, get2 in Hx.
    destruct (zth a i) as [pl|] eqn:Hi; [|discriminate].
    destruct (zth pl j) as [rw|] eqn:Hj; [|discriminate].
    destruct (Hplanes pl (zth_In _ _ _ Hi)) as [Hl2 Hrows].
    rewrite Forall_forall in Hrows.
    pose proof (Hrows rw (zth_In _ _ _ Hj)) as Hl3.
    apply zth_Some in Hi, Hj, Hx. lia.
  - intros (Hi & Hj & Hk). unfold get3, get2.
    destruct (zth_in_range a i) as [pl Hpl]; [lia|]. rewrite Hpl.
    destruct (Hplanes pl (zth_In _ _ _ Hpl)) as [Hl2 Hrows].
    rewrite Forall_forall in Hrows.
    destruct (zth_in_range pl j) as [rw Hrw]; [lia|]. rewrite Hrw.
    pose proof (Hrows rw (zth_In _ _ _ Hrw)) as Hl3.
    apply zth_in_range. lia.
Qed.

Lemma rect3_mapi3 (f : pos -> A -> B) (a : arr3 A) n1 n2 n3 :
  rect3 a n1 n2 n3 -> rect3 (mapi3 f a) n1 n2 n3.
Proof.
  intros [Hlen Hplanes]. unfold mapi3. split; [rewrite length_mapi; exact Hlen|].
  rewrite Forall_forall in *. intros pl Hpl.
  apply In_mapi in Hpl. destruct Hpl as (i & pl0 & Hi & ->).
  destruct (Hplanes pl0 (zth_In _ _ _ Hi)) as [Hl2 Hrows].
  split; [rewrite length_mapi; exact Hl2|].
  rewrite Forall_forall in *. intros rw Hrw.
  apply In_mapi in Hrw. destruct Hrw as (j & rw0 & Hj & ->).
  rewrite length_mapi. apply Hrows. eapply zth_In; eauto.
Qed.

Lemma map3_mapi3 (f : A -> B) (a : arr3 A) : map3 f a = mapi3 (fun _ x => f x) a.
Proof.
  apply zth_ext. intros i. unfold map3, mapi3. rewrite zth_map, zth_mapi.
  destruct (zth a i) as [pl|]; simpl; [|reflexivity]. f_equal.
  apply zth_ext. intros j. rewrite zth_map, zth_mapi.
  destruct (zth pl j) as [rw|]; simpl; [|reflexivity]. f_equal.
  apply zth_ext. intros k. rewrite zth_map, zth_mapi. reflexivity.
Qed.

Lemma rect3_map3 (f : A -> B) (a : arr3 A) n1 n2 n3 :
  rect3 a n1 n2 n3 -> rect3 (map3 f a) n1 n2 n3.
Proof. rewrite map3_mapi3. apply rect3_mapi3. Qed.

Lemma shape3_rect (a : arr3 A) n1 n2 n3 :
  rect3 a n1 n2 n3 -> (0 < n1)%nat -> (0 < n2)%nat ->
  shape3 a = (Z.of_nat n1, Z.of_nat n2, Z.of_nat n3).
Proof.
  intros [Hlen Hplanes] H1 H2. unfold shape3.
  destruct a as [|pl a]; [simpl in Hlen; lia|].
  inversion Hplanes as [|? ? [Hl2 Hrows] _]; subst.
  destruct pl as [|rw pl]; [simpl in H2; lia|].
  inversion Hrows; subst. reflexivity.
Qed.

Lemma rect3_full3 n1 n2 n3 (c : A) : rect3 (full3 n1 n2 n3 c) n1 n2 n3.
Proof.
  unfold full3, rect3, rect2. split; [apply repeat_length|].
  apply Forall_forall. intros pl Hpl. apply repeat_spec in Hpl. subst.
  split; [apply repeat_length|].
  apply Forall_forall. intros rw Hrw. apply repeat_spec in Hrw. subst.
  apply repeat_length.
Qed.

End Arr3.


Section Equality.

Import np.

Lemma list_eqb_spec {A : Type} (eqb : A -> A -> bool) :
  (forall x y, eqb x y = true <-> x = y) ->
  forall a b, list_eqb eqb a b = true <-> a = b.
Proof.
  intros Heqb. induction a as [|x a IH]; intros [|y b]; simpl;
    try (split; [discriminate|congruence]); [tauto|].
  rewrite andb_true_iff, Heqb, IH. split.
  - intros [-> ->]. reflexivity.
  - intros H. inversion H. auto.
Qed.

Lemma arr3_eqb_spec a b : arr3_eqb a b = true <-> a = b.
Proof.
  unfold arr3_eqb. apply list_eqb_spec. apply list_eqb_spec.
  apply list_eqb_spec. apply Z.eqb_eq.
Qed.

End Equality.

Section Sums.

Import np.

(** The sum of all elements. *)
Definition sum3 (a : arr3 Z) : Z := sumZ (ravel3 a).

(** Elementwise [<=] between arrays of one shape. *)
Definition le3 (a b : arr3 Z) : Prop := Forall2 (Forall2 (Forall2 Z.le)) a b.

Lemma sumZ_app l l' : sumZ (l ++ l') = sumZ l + sumZ l'.
Proof. induction l; simpl; lia. Qed.

Lemma sumZ_concat l : sumZ (concat l) = sumZ (map sumZ l).
Proof. induction l as [|x l IH]; simpl; [reflexivity|]. rewrite sumZ_app, IH. lia. Qed.

Lemma sum_level {A : Type} (w : A -> Z) (R : A -> A -> Prop) :
  (forall x y : A, {x = y} + {x <> y}) ->
  (forall x y, R x y -> w x <= w y) ->
  (forall x y, R x y -> x <> y -> w x < w y) ->
  forall l l', Forall2 R l l' ->
    sumZ (map w l) <= sumZ (map w l') /\
    (l <> l' -> sumZ (map w l) < sumZ (map w l')).
Proof.
  intros dec Hle Hlt. induction 1 as [|x y l l' Hxy Hl [IHle IHlt]]; simpl.
  - split; [lia|congruence].
  - pose proof (Hle _ _ Hxy). split; [lia|].
    intros Hne. destruct (dec x y) as [->|Hxy'].
    + assert (l <> l') by congruence. specialize (IHlt H0). lia.
    + specialize (Hlt _ _ Hxy Hxy'). lia.
Qed.

Lemma sum3_nested a : sum3 a = sumZ (map (fun pl => sumZ (map sumZ pl)) a).
Proof.
  unfold sum3, ravel3. rewrite sumZ_concat.
  induction a as [|pl a IH]; simpl; [reflexivity|].
  rewrite map_app, sumZ_app, IH. reflexivity.
Qed.

Lemma sum3_le_lt a b :
  le3 a b -> sum3 a <= sum3 b /\ (a <> b -> sum3 a < sum3 b).
Proof.
  intros H. rewrite !sum3_nested.
  apply (sum_level (fun pl => sumZ (map sumZ pl)) (Forall2 (Forall2 Z.le))).
  - apply list_eq_dec, list_eq_dec, Z.eq_dec.
  - intros x y Hxy.
    apply (sum_level sumZ (Forall2 Z.le)); auto.
    + apply list_eq_dec, Z.eq_dec.
    + intros r r' Hr. rewrite <- (map_id r), <- (map_id r').
      apply (sum_level (fun z => z) Z.le); auto using Z.eq_dec; intros; lia.
    + intros r r' Hr Hne. rewrite <- (map_id r), <- (map_id r').
      apply (sum_level (fun z => z) Z.le); auto using Z.eq_dec; intros; lia.
  - intros x y Hxy Hne.
    apply (sum_level sumZ (Forall2 Z.le)); auto.
    + apply list_eq_dec, Z.eq_dec.
    + intros r r' Hr. rewrite <- (map_id r), <- (map_id r').
      apply (sum_level (fun z => z) Z.le); auto using Z.eq_dec; intros; lia.
    + intros r r' Hr Hne'. rewrite <- (map_id r), <- (map_id r').
      apply (sum_level (fun z => z) Z.le); auto using Z.eq_dec; intros; lia.
  - exact H.
Qed.

Lemma le3_mapi3 (f : pos -> Z -> Z) (a : arr3 Z) :
  (forall p x, get3 a p = Some x -> f p x <= x) -> le3 (mapi3 f a) a.
Proof.
  intros H. unfold le3, mapi3. apply Forall2_mapi. intros i pl Hi.
  apply Forall2_mapi. intros j rw Hj. apply Forall2_mapi. intros k x Hk.
  apply H. unfold get3, get2. rewrite Hi, Hj. exact Hk.
Qed.

Lemma sumZ_bounds l lo hi :
  (forall x, In x l -> lo <= x <= hi) ->
  Z.of_nat (length l) * lo <= sumZ l <= Z.of_nat (length l) * hi.
Proof.
  induction l as [|x l IH]; intros H; [simpl; lia|].
  assert (Hx := H x (or_introl eq_refl)).
  assert (Hl : forall y, In y l -> lo <= y <= hi) by (intros; apply H; right; assumption).
  specialize (IH Hl). cbn [sumZ length]. lia.
Qed.

Lemma length_ravel3 {A : Type} (a : arr3 A) n1 n2 n3 :
  rect3 a n1 n2 n3 -> length (ravel3 a) = (n1 * n2 * n3)%nat.
Proof.
  intros [Hlen Hplanes]. subst n1. unfold ravel3.
  induction a as [|pl a IH]; [reflexivity|].
  inversion Hplanes as [|? ? [Hl2 Hrows] Hrest]; subst.
  simpl. rewrite concat_app, length_app, (IH Hrest).
  assert (Hpl : length (concat pl) = (length pl * n3)%nat).
  { clear -Hrows. induction pl as [|rw pl IHpl]; [reflexivity|].
    inversion Hrows; subst. simpl. rewrite length_app, IHpl by assumption. lia. }
  rewrite Hpl. lia.
Qed.

Lemma sum3_bounds a n1 n2 n3 lo hi :
  rect3 a n1 n2 n3 ->
  (forall p x, get3 a p = Some x -> lo <= x <= hi) ->
  Z.of_nat (n1 * n2 * n3) * lo <= sum3 a <= Z.of_nat (n1 * n2 * n3) * hi.
Proof.
  intros Hrect H. unfold sum3. rewrite <- (length_ravel3 a n1 n2 n3 Hrect).
  apply sumZ_bounds. intros x Hx. apply In_ravel3 in Hx.
  destruct Hx as [p Hp]. eapply H; eauto.
Qed.

End Sums.


(** ** [get_pixels_hu] *)

Section Int16.

Import np.

Lemma int16_range z : -32768 <= int16 z <= 32767.
Proof.
  unfold int16. pose proof (Z.mod_pos_bound (z + 32768) 65536). lia.
Qed.

Lemma int16_in_int16 z : in_int16 (int16 z) = true.
Proof.
  unfold in_int16. pose proof (int16_range z).
  apply andb_true_iff. split; apply Z.leb_le; lia.
Qed.

Lemma int16_small z : -32768 <= z <= 32767 -> int16 z = z.
Proof.
  intros H. unfold int16. rewrite Z.mod_small by lia. lia.
Qed.

Lemma int16_idem z : int16 (int16 z) = int16 z.
Proof. apply int16_small, int16_range. Qed.



End Int16.

Section GetPixelsHu.

Import np preprocess.

(** What the loop body leaves in a voxel whose stored ([int16]) value is [v]:
    the product is truncated into [int16] first, and the intercept, itself
    truncated to [int16], is added afterwards in [int16] arithmetic. *)
Definition hu_voxel (slope intercept : float64) (v : Z) : Z :=
  int16 (float_to_int16 (PrimFloat.mul slope (to_float64 v)) + float_to_int16 intercept).

Definition hu_plane (s : dicom) (plane : arr2 Z) : arr2 Z :=
  map2 (hu_voxel (RescaleSlope s) (RescaleIntercept s)) plane.



Lemma map2_map2 {A B C : Type} (f : A -> B) (g : B -> C) (a : arr2 A) :
  map2 g (map2 f a) = map2 (fun x => g (f x)) a.
Proof.
  unfold map2. rewrite map_map. apply map_ext. intros row. apply map_map.
Qed.

Lemma map2_ext {A B : Type} (f g : A -> B) (a : arr2 A) :
  (forall x, f x = g x) -> map2 f a = map2 g a.
Proof.
  intros H. unfold map2. apply map_ext. intros row. apply map_ext, H.
Qed.

Lemma set_nth_app {A : Type} (front : list A) x y back :
  set_nth (length front) x (front ++ y :: back) = front ++ x :: back.
Proof.
  induction front as [|z front IH]; simpl; [reflexivity|].
  rewrite IH. reflexivity.
Qed.

Lemma rescale_slice_int16 slices image n s plane :
  nth_error slices n = Some s ->
  nth_error image n = Some plane ->
  rescale_slice slices image n = py.Ok (set_nth n (hu_plane s plane) image).
Proof.
  intros Hs Hp. unfold rescale_slice. rewrite Hs, Hp.
  do 2 f_equal. unfold hu_plane. rewrite !map2_map2.
  apply map2_ext. intros v. unfold hu_voxel, float_to_int16.
  rewrite int16_idem. reflexivity.
Qed.

(** The loop, with the slices below [length front] done. *)
Lemma rescale_loop (slices : list dicom) : forall back front ss_front ss_back,
  slices = ss_front ++ ss_back ->
  length ss_front = length front ->
  length ss_back = length back ->
  fold_left (fun acc n => image <- acc ;; rescale_slice slices image n)
    (seq (length front) (length back)) (py.Ok (front ++ back))
  = py.Ok (front ++ map (fun sp => hu_plane (fst sp) (snd sp)) (combine ss_back back)).
Proof.
  induction back as [|plane back IH]; intros front ss_front ss_back Hss Hf Hb.
  - simpl. destruct ss_back; reflexivity.
  - destruct ss_back as [|s ss_back]; [discriminate|]. simpl.
    rewrite (rescale_slice_int16 _ _ _ s plane).
    + rewrite set_nth_app.
      assert (H1 : slices = (ss_front ++ [s]) ++ ss_back)
        by (rewrite <- app_assoc; exact Hss).
      assert (H2 : length (ss_front ++ [s]) = length (front ++ [hu_plane s plane]))
        by (rewrite !length_app; simpl; lia).
      assert (H3 : length ss_back = length back) by (simpl in Hb; lia).
      pose proof (IH _ _ _ H1 H2 H3) as IH'.
      rewrite length_app, <- !app_assoc in IH'. simpl in IH'.
      rewrite Nat.add_1_r in IH'. exact IH'.
    + rewrite Hss, <- Hf. rewrite nth_error_app2, Nat.sub_diag by lia. reflexivity.
    + rewrite nth_error_app2, Nat.sub_diag by lia. reflexivity.
Qed.

Lemma stack_planes {A : Type} (arrays : list (arr2 A)) image :
  stack arrays = py.Ok image -> image = arrays.
Proof.
  unfold stack. destruct arrays as [|a r]; [discriminate|].
  destruct (forallb _ r); [|discriminate]. congruence.
Qed.


(** The whole function in closed form: whatever [np.stack] accepts is
    converted plane by plane, voxel by voxel, by [hu_voxel]. *)
Lemma get_pixels_hu_closed (slices : list dicom) :
  get_pixels_hu slices =
  (_ <- stack (map pixel_array slices) ;;
   py.Ok (map (fun s => map2 (fun v => hu_voxel (RescaleSlope s) (RescaleIntercept s) (int16 v))
                          (pixel_array s)) slices)).
Proof.
  unfold get_pixels_hu.
  destruct (stack (map pixel_array slices)) as [image|e] eqn:Hst; [|reflexivity].
  apply stack_planes in Hst. subst image. simpl.
  set (image0 := map3 int16 (map pixel_array slices)).
  set (r := fold_left _ _ _).
  assert (Hr : r = py.Ok (map (fun sp => hu_plane (fst sp) (snd sp))
                            (combine slices image0))).
  { subst r.
    assert (Hlen : length slices = length image0)
      by (unfold image0, map3; rewrite !length_map; reflexivity).
    rewrite Hlen.
    apply (rescale_loop slices image0 [] [] slices); auto. }
  rewrite Hr. simpl. f_equal. subst image0.
  clear r Hr. induction slices as [|s l IHl]; simpl; [reflexivity|].
  rewrite IHl. unfold hu_plane.
  change (map (map int16)) with (@map2 Z Z int16).
  rewrite !map2_map2.
  rewrite (map2_ext _ (fun v => hu_voxel (RescaleSlope s) (RescaleIntercept s) (int16 v)));
    [reflexivity|].
  intros v. unfold hu_voxel. apply int16_idem.
Qed.

End GetPixelsHu.


Section GetPixelsHuClaims.

Import np preprocess.

(** A scan of one slice holding one voxel. *)
Definition one_voxel_scan (v : Z) (slope intercept : float64) : list dicom :=
  [ {| pixel_array := [[v]];
       RescaleIntercept := intercept;
       RescaleSlope := slope;
       SliceThickness := 1%Q;
       PixelSpacing := (1%Q, 1%Q) |} ].


Lemma get_pixels_hu_voxel_at slices image i j k s v :
  get_pixels_hu slices = py.Ok image ->
  zth slices i = Some s ->
  get2 (pixel_array s) j k = Some v ->
  get3 image (i, j, k)
  = Some (hu_voxel (RescaleSlope s) (RescaleIntercept s) (int16 v)).
Proof.
  rewrite get_pixels_hu_closed.
  destruct (stack (map pixel_array slices)); simpl; [|discriminate].
  intros Himg Hs Hv. inversion Himg; subst image; clear Himg.
  unfold get3. rewrite zth_map, Hs. simpl.
  rewrite get2_map2, Hv. reflexivity.
Qed.







End GetPixelsHuClaims.


(** ** [normalize] *)

Section Normalize.

Import np preprocess.

(** [(x - min_bound) / (max_bound - min_bound)] in binary64. *)
Definition rescale01 (min_bound max_bound : float64) (v : Z) : float64 :=
  PrimFloat.div (PrimFloat.sub (to_float64 v) min_bound)
                (PrimFloat.sub max_bound min_bound).

(** Clamping to [[0, 1]]. *)
Definition clamp01 (y : float64) : float64 :=
  if PrimFloat.ltb 1%float y then 1%float
  else if PrimFloat.ltb y 0%float then 0%float
  else y.

Definition in01 (y : float64) : bool :=
  PrimFloat.leb 0%float y && PrimFloat.leb y 1%float.

(** The two masked assignments of [normalize], one after the other, clamp. *)
Lemma masked_assignments_clamp (y : float64) :
  (let y1 := if PrimFloat.ltb 1%float y then 1%float else y in
   if PrimFloat.ltb y1 0%float then 0%float else y1) = clamp01 y.
Proof.
  unfold clamp01. cbv zeta. destruct (PrimFloat.ltb 1%float y); reflexivity.
Qed.

Lemma normalize_get3 image min_bound max_bound p :
  get3 (normalize image min_bound max_bound) p
  = option_map (fun v => clamp01 (rescale01 min_bound max_bound v)) (get3 image p).
Proof.
  unfold normalize. rewrite !get3_map3.
  destruct (get3 image p) as [v|]; simpl; [|reflexivity].
  f_equal. apply (masked_assignments_clamp (rescale01 min_bound max_bound v)).
Qed.

(** [f] holds on the [n] consecutive integers from [lo]. *)
Fixpoint forall_from (n : nat) (lo : Z) (f : Z -> bool) : bool :=
  match n with
  | O => true
  | S n' => f lo && forall_from n' (lo + 1) f
  end.

Lemma forall_from_spec n : forall lo f,
  forall_from n lo f = true ->
  forall z, lo <= z < lo + Z.of_nat n -> f z = true.
Proof.
  induction n as [|n IH]; intros lo f H z Hz; [lia|].
  simpl in H. apply andb_true_iff in H. destruct H as [Hlo Hrest].
  destruct (Z.eq_dec z lo) as [->|Hne]; [exact Hlo|].
  apply (IH (lo + 1) f Hrest). lia.
Qed.

(** Checked on each of the 65536 values of [int16]. *)
Lemma normalize_int16_in01 :
  forall_from (Z.to_nat 65536) (-32768)
    (fun v => in01 (clamp01 (rescale01 (-1000)%float 400%float v))) = true.
Proof. vm_compute. reflexivity. Qed.

(** C9.  With [min_bound = -1000] and [max_bound = 400], [normalize] maps
    -1000 to 0.0, 400 to 1.0, 1000 to 1.0 and -2000 to 0.0; every voxel [v]
    of an [int16] volume becomes [(v - min_bound) / (max_bound - min_bound)]
    clamped to [[0, 1]], and that value lies in [[0, 1]]. *)
Theorem normalize_clamps_to_unit_interval :
  normalize [[[-1000; 400; 1000; -2000]]] (-1000)%float 400%float
    = [[[0%float; 1%float; 1%float; 0%float]]] /\
  (forall image p v,
     get3 image p = Some v ->
     in_int16 v = true ->
     exists y,
       get3 (normalize image (-1000)%float 400%float) p = Some y /\
       y = clamp01 (PrimFloat.div (PrimFloat.sub (to_float64 v) (-1000)%float)
                                  (PrimFloat.sub 400%float (-1000)%float)) /\
       PrimFloat.leb 0%float y = true /\ PrimFloat.leb y 1%float = true).
Proof.
  split; [vm_compute; reflexivity|].
  intros image p v Hget Hv.
  exists (clamp01 (rescale01 (-1000)%float 400%float v)).
  split; [rewrite normalize_get3, Hget; reflexivity|].
  split; [reflexivity|].
  apply andb_true_iff.
  apply (forall_from_spec _ _ _ normalize_int16_in01).
  unfold in_int16 in Hv. apply andb_true_iff in Hv.
  destruct Hv as [Hlo Hhi]. apply Z.leb_le in Hlo, Hhi. lia.
Qed.

(** The claim at a voxel of soft tissue. *)
Lemma normalize_clamps_to_unit_interval_witness :
  exists y,
    get3 (normalize [[[40]]] (-1000)%float 400%float) (0, 0, 0) = Some y /\
    y = clamp01 (PrimFloat.div (PrimFloat.sub (to_float64 40) (-1000)%float)
                               (PrimFloat.sub 400%float (-1000)%float)) /\
    PrimFloat.leb 0%float y = true /\ PrimFloat.leb y 1%float = true.
Proof.
  apply (proj2 normalize_clamps_to_unit_interval [[[40]]] (0, 0, 0) 40); reflexivity.
Defined.

End Normalize.


(** ** [resample] and [resample_mask] *)

Section ExactArithmetic.

Import np.










End ExactArithmetic.

Section ResampleGeometry.

Import np ndimage preprocess.





(** The slices of a scan: only the first is read, and only its spacing. *)
Definition scan_of_spacing (thickness row column : Q) : list dicom :=
  [ {| pixel_array := [];
       RescaleIntercept := 0%float;
       RescaleSlope := 1%float;
       SliceThickness := thickness;
       PixelSpacing := (row, column) |} ].



End ResampleGeometry.


Section ResampleClaims.

Import np ndimage preprocess.











(** C1, as the claim states it, fails: a mask with the labels 0 and 2 in two
    planes of thickness 1.5, resampled to spacing 1, gets three planes, and
    the middle one holds 1, a value that is not in the mask.  (The same
    volume comes out whether or not the library pads the input before
    computing the spline coefficients.) *)
Lemma resample_mask_interpolates_labels :
  resample_mask [[[0]]; [[2]]] ((3 # 2, 0, 0), (0, 1, 0), (0, 0, 1))%Q (1, 1, 1)%Q
    = py.Ok ([[[0]]; [[1]]; [[2]]], (Fin 1, Fin 1, Fin 1)) /\
  existsb (Z.eqb 1) (ravel3 [[[0]]; [[2]]]) = false /\
  zoom_with 0 [[[0]]; [[2]]] (Fin (3 # 2), Fin 1, Fin 1)
    = py.Ok [[[0]]; [[1]]; [[2]]].
Proof. repeat split; vm_compute; reflexivity. Qed.

(** C1, amended.  [resample_mask] resamples a mask exactly as [resample]
    resamples an intensity volume of the same spacing: both pass the volume to
    [zoom] with its default spline of order 3 ([mode='nearest'] is the edge
    handling, not the interpolation), and return the same volume and the same
    achieved spacing.  Interpolated values that are not in the source can
    therefore appear. *)
Theorem resample_mask_as_resample image d00 d01 d02 d10 d11 d12 d20 d21 d22 new_spacing :
  resample_mask image ((d00, d01, d02), (d10, d11, d12), (d20, d21, d22)) new_spacing
  = resample image (scan_of_spacing d00 d11 d22) new_spacing.
Proof. reflexivity. Qed.

End ResampleClaims.


(** ** Connected-component labelling *)

Section Connectivity.

Import np measure.

Variable input : arr3 Z.
Variable background : Z.
Variable nbrs : list pos.

(** Two voxels are adjacent when one is a neighbour of the other and both
    hold the same value, which is not the background. *)
Definition adjacent (p q : pos) : Prop :=
  exists d v,
    In d nbrs /\ q = padd p d /\
    get3 input p = Some v /\ get3 input q = Some v /\ v <> background.

(** A path of adjacent voxels from [p] to [q]. *)
Inductive connected (p : pos) : pos -> Prop :=
| connected_here : connected p p
| connected_step q r : connected p q -> adjacent q r -> connected p r.

Lemma connected_trans p q r : connected p q -> connected q r -> connected p r.
Proof.
  intros Hpq Hqr. induction Hqr as [|r s Hqr IH Hrs]; [exact Hpq|].
  eapply connected_step; eauto.
Qed.

Lemma adjacent_connected p q : adjacent p q -> connected p q.
Proof. intros H. eapply connected_step; [apply connected_here|exact H]. Qed.

Lemma connected_value p q v :
  connected p q -> get3 input p = Some v -> get3 input q = Some v.
Proof.
  induction 1 as [|q r Hpq IH (d & w & _ & _ & Hq & Hr & _)]; intros Hp; [exact Hp|].
  specialize (IH Hp). congruence.
Qed.

Definition opposite (d : pos) : pos :=
  let '(a, b, c) := d in (- a, - b, - c).

Lemma padd_opposite p d : padd (padd p d) (opposite d) = p.
Proof.
  destruct p as [[i j] k], d as [[a b] c]. unfold padd, opposite.
  f_equal; [f_equal|]; lia.
Qed.

Hypothesis nbrs_symmetric : forall d, In d nbrs -> In (opposite d) nbrs.

Lemma adjacent_sym p q : adjacent p q -> adjacent q p.
Proof.
  intros (d & v & Hd & Hq & Hvp & Hvq & Hv).
  exists (opposite d), v. repeat split; auto.
  subst q. symmetry. apply padd_opposite.
Qed.

Lemma connected_sym p q : connected p q -> connected q p.
Proof.
  induction 1 as [|q r Hpq IH Hqr]; [apply connected_here|].
  eapply connected_trans; [|exact IH].
  apply adjacent_connected, adjacent_sym, Hqr.
Qed.

End Connectivity.

Section Raster.

Import np measure.

Lemma raster_bounds n1 n2 n3 i j k :
  0 <= i < n1 -> 0 <= j < n2 -> 0 <= k < n3 ->
  0 <= raster (n1, n2, n3) (i, j, k) < n1 * n2 * n3.
Proof.
  intros Hi Hj Hk. unfold raster.
  assert (H1 : 0 <= i * n2 + j <= n1 * n2 - 1) by nia.
  assert (H2 : (i * n2 + j) * n3 <= (n1 * n2 - 1) * n3) by nia.
  nia.
Qed.

Lemma raster_injective n1 n2 n3 i j k i' j' k' :
  0 <= i < n1 -> 0 <= j < n2 -> 0 <= k < n3 ->
  0 <= i' < n1 -> 0 <= j' < n2 -> 0 <= k' < n3 ->
  raster (n1, n2, n3) (i, j, k) = raster (n1, n2, n3) (i', j', k') ->
  (i, j, k) = (i', j', k').
Proof.
  intros Hi Hj Hk Hi' Hj' Hk' H. unfold raster in H.
  assert (Hk2 : k = k').
  { assert (E : ((i * n2 + j) * n3 + k) mod n3 = ((i' * n2 + j') * n3 + k') mod n3)
      by (rewrite H; reflexivity).
    rewrite !(Z.add_comm _ k), !(Z.add_comm _ k'), !Z.mod_add in E by lia.
    rewrite !Z.mod_small in E by lia. exact E. }
  subst k'.
  assert (H2 : i * n2 + j = i' * n2 + j') by nia.
  assert (Hj2 : j = j').
  { assert (E : (i * n2 + j) mod n2 = (i' * n2 + j') mod n2) by (rewrite H2; reflexivity).
    rewrite !(Z.add_comm _ j), !(Z.add_comm _ j'), !Z.mod_add in E by lia.
    rewrite !Z.mod_small in E by lia. exact E. }
  subst j'. assert (i = i') by nia. subst. reflexivity.
Qed.

End Raster.


Section Marks.

Import np measure.

Variable input : arr3 Z.
Variable background : Z.
Variable nbrs : list pos.
Variables n1 n2 n3 : nat.

Hypothesis input_rect : rect3 input n1 n2 n3.
Hypothesis nbrs_symmetric : forall d, In d nbrs -> In (opposite d) nbrs.

(** The marks of a propagation state: every voxel carries the raster position
    of a voxel it is connected to, never later than its own. *)
Definition marks_ok (marks : arr3 Z) : Prop :=
  rect3 marks n1 n2 n3 /\
  forall p m, get3 marks p = Some m ->
    m <= raster (shape3 input) p /\
    exists q, connected input background nbrs p q /\
              (exists v, get3 input q = Some v) /\
              m = raster (shape3 input) q.

Lemma in_bounds i j k v :
  get3 input (i, j, k) = Some v ->
  shape3 input = (Z.of_nat n1, Z.of_nat n2, Z.of_nat n3) /\
  0 <= i < Z.of_nat n1 /\ 0 <= j < Z.of_nat n2 /\ 0 <= k < Z.of_nat n3.
Proof.
  intros H.
  assert (Hb : 0 <= i < Z.of_nat n1 /\ 0 <= j < Z.of_nat n2 /\ 0 <= k < Z.of_nat n3)
    by (apply (get3_rect input n1 n2 n3 i j k input_rect); eauto).
  split; [|exact Hb]. apply shape3_rect; [exact input_rect|lia|lia].
Qed.

Lemma same_domain (marks : arr3 Z) p :
  rect3 marks n1 n2 n3 ->
  ((exists m, get3 marks p = Some m) <-> (exists v, get3 input p = Some v)).
Proof.
  intros Hm. destruct p as [[i j] k].
  rewrite (get3_rect marks n1 n2 n3 i j k Hm).
  rewrite (get3_rect input n1 n2 n3 i j k input_rect). reflexivity.
Qed.

Lemma raster_nonneg p v :
  get3 input p = Some v ->
  0 <= raster (shape3 input) p < Z.of_nat n1 * Z.of_nat n2 * Z.of_nat n3.
Proof.
  destruct p as [[i j] k]. intros H.
  destruct (in_bounds _ _ _ _ H) as (-> & Hi & Hj & Hk).
  apply raster_bounds; assumption.
Qed.

Lemma raster_inj p q v w :
  get3 input p = Some v -> get3 input q = Some w ->
  raster (shape3 input) p = raster (shape3 input) q -> p = q.
Proof.
  destruct p as [[i j] k], q as [[i' j'] k']. intros Hp Hq.
  destruct (in_bounds _ _ _ _ Hp) as (-> & Hi & Hj & Hk).
  destruct (in_bounds _ _ _ _ Hq) as (_ & Hi' & Hj' & Hk').
  apply raster_injective; assumption.
Qed.

Lemma get3_initial_marks p :
  get3 (initial_marks input) p
  = option_map (fun _ => raster (shape3 input) p) (get3 input p).
Proof. unfold initial_marks. apply get3_mapi3. Qed.

Lemma initial_marks_ok : marks_ok (initial_marks input).
Proof.
  split; [apply rect3_mapi3, input_rect|].
  intros p m Hm. rewrite get3_initial_marks in Hm.
  destruct (get3 input p) as [v|] eqn:Hv; simpl in Hm; [|discriminate].
  inversion Hm; subst. split; [lia|].
  exists p. split; [apply connected_here|]. split; [eauto|reflexivity].
Qed.

(** The smallest mark among a voxel's own and those of its neighbours of the
    same value: the fold in [propagate]. *)
Definition least_mark (marks : arr3 Z) (p : pos) (v : Z) (ds : list pos) (m : Z) : Z :=
  fold_left (fun acc d =>
    match get3 input (padd p d), get3 marks (padd p d) with
    | Some v', Some m' => if v' =? v then Z.min acc m' else acc
    | _, _ => acc
    end) ds m.

Lemma least_mark_spec marks p v ds : forall m,
  let r := least_mark marks p v ds m in
  r <= m /\
  (r = m \/ exists d, In d ds /\ get3 input (padd p d) = Some v /\
                      get3 marks (padd p d) = Some r) /\
  (forall d m', In d ds -> get3 input (padd p d) = Some v ->
                get3 marks (padd p d) = Some m' -> r <= m').
Proof.
  unfold least_mark. induction ds as [|d ds IH]; intros m; simpl.
  - split; [lia|]. split; [left; reflexivity|]. intros d m' [].
  - set (m1 := match get3 input (padd p d) with
               | Some v' => match get3 marks (padd p d) with
                            | Some m' => if v' =? v then Z.min m m' else m
                            | None => m
                            end
               | None => m
               end).
    destruct (IH m1) as (Hle & Hor & Hall). fold m1.
    assert (Hm1 : m1 <= m /\
              (m1 = m \/ (get3 input (padd p d) = Some v /\ get3 marks (padd p d) = Some m1)) /\
              (forall m', get3 input (padd p d) = Some v ->
                          get3 marks (padd p d) = Some m' -> m1 <= m')).
    { subst m1. destruct (get3 input (padd p d)) as [v'|] eqn:Hv'.
      - destruct (get3 marks (padd p d)) as [m'|] eqn:Hm'.
        + destruct (v' =? v) eqn:Hvv.
          * apply Z.eqb_eq in Hvv. subst v'.
            destruct (Z.min_spec m m') as [[? E]|[? E]]; rewrite E.
            -- split; [lia|]. split; [left; reflexivity|]. intros ? _ H'. inversion H'; lia.
            -- split; [lia|]. split; [right; auto|]. intros ? _ H'. inversion H'; lia.
          * apply Z.eqb_neq in Hvv. split; [lia|]. split; [left; reflexivity|].
            intros ? H'. congruence.
        + split; [lia|]. split; [left; reflexivity|]. intros ? _ H'. discriminate.
      - split; [lia|]. split; [left; reflexivity|]. intros ? H'. discriminate. }
    destruct Hm1 as (Hle1 & Hor1 & Hall1).
    split; [lia|]. split.
    + destruct Hor as [E|(d' & Hd' & Hv' & Hm')].
      * rewrite E. destruct Hor1 as [E1|[Hv1 Hm1']]; [left; exact E1|].
        right. exists d. auto.
      * right. exists d'. auto.
    + intros d' m' [<-|Hd'] Hv' Hm'.
      * specialize (Hall1 m' Hv' Hm'). lia.
      * eapply Hall; eauto.
Qed.

Lemma get3_propagate marks p :
  get3 (propagate input background nbrs marks) p =
  option_map (fun m =>
    match get3 input p with
    | Some v => if v =? background then m else least_mark marks p v nbrs m
    | None => m
    end) (get3 marks p).
Proof. unfold propagate. rewrite get3_mapi3. reflexivity. Qed.

Lemma propagate_ok marks :
  marks_ok marks -> marks_ok (propagate input background nbrs marks).
Proof.
  intros [Hrect Hmarks]. split; [apply rect3_mapi3, Hrect|].
  intros p m' Hm'. rewrite get3_propagate in Hm'.
  destruct (get3 marks p) as [m|] eqn:Hm; simpl in Hm'; [|discriminate].
  inversion Hm' as [E]; clear Hm'.
  destruct (Hmarks p m Hm) as (Hle & q & Hpq & Hq & Hmq).
  destruct (get3 input p) as [v|] eqn:Hv; [|split; [lia|eauto]].
  destruct (v =? background) eqn:Hbg; [split; [lia|eauto]|].
  apply Z.eqb_neq in Hbg.
  destruct (least_mark_spec marks p v nbrs m) as (Hr & Hor & _).
  split; [lia|].
  destruct Hor as [->|(d & Hd & Hvd & Hmd)]; [eauto|].
  destruct (Hmarks _ _ Hmd) as (_ & q' & Hq' & Hvq' & Hmq').
  exists q'. split; [|split; assumption].
  eapply connected_trans; [|exact Hq'].
  apply adjacent_connected. exists d, v. auto.
Qed.

Lemma propagate_le3 marks : le3 (propagate input background nbrs marks) marks.
Proof.
  unfold propagate. apply le3_mapi3. intros p m Hm.
  destruct (get3 input p) as [v|]; [|lia].
  destruct (v =? background); [lia|].
  apply (least_mark_spec marks p v nbrs m).
Qed.

(** Stable marks are equal on adjacent voxels. *)
Lemma stable_adjacent marks p q mp mq :
  rect3 marks n1 n2 n3 ->
  propagate input background nbrs marks = marks ->
  adjacent input background nbrs p q ->
  get3 marks p = Some mp -> get3 marks q = Some mq -> mp = mq.
Proof.
  intros Hrect Hfix Hadj Hmp Hmq.
  assert (Hle : forall p q mp mq,
            adjacent input background nbrs p q ->
            get3 marks p = Some mp -> get3 marks q = Some mq -> mp <= mq).
  { clear p q mp mq Hadj Hmp Hmq.
    intros p q mp mq (d & v & Hd & -> & Hvp & Hvq & Hv) Hmp Hmq.
    pose proof (mapi3_fixed _ _ p mp Hfix Hmp) as Hp. cbv beta in Hp.
    rewrite Hvp in Hp.
    replace (v =? background) with false in Hp by (symmetry; apply Z.eqb_neq; exact Hv).
    destruct (least_mark_spec marks p v nbrs mp) as (_ & _ & Hall).
    fold (least_mark marks p v nbrs mp) in Hp.
    rewrite Hp in Hall. eapply Hall; eauto. }
  pose proof (Hle _ _ _ _ Hadj Hmp Hmq).
  pose proof (Hle _ _ _ _ (adjacent_sym _ _ _ nbrs_symmetric _ _ Hadj) Hmq Hmp).
  lia.
Qed.

Lemma stable_connected marks p q mp mq :
  rect3 marks n1 n2 n3 ->
  propagate input background nbrs marks = marks ->
  connected input background nbrs p q ->
  get3 marks p = Some mp -> get3 marks q = Some mq -> mp = mq.
Proof.
  intros Hrect Hfix Hconn Hmp. revert mq.
  induction Hconn as [|q r Hpq IH Hqr]; intros mq Hmq; [congruence|].
  assert (Hq : exists m, get3 marks q = Some m).
  { apply same_domain; [exact Hrect|].
    destruct Hqr as (d & v & _ & _ & Hvq & _). eauto. }
  destruct Hq as [m Hm].
  rewrite (IH m Hm). eapply stable_adjacent; eauto.
Qed.

End Marks.


Section Counting.

Context {A : Type}.

Lemma filter_length_le (f g : A -> bool) l :
  (forall y, f y = true -> g y = true) ->
  (length (filter f l) <= length (filter g l))%nat.
Proof.
  intros H. induction l as [|y l IH]; simpl; [lia|].
  destruct (f y) eqn:Hf.
  - rewrite (H y Hf). simpl. lia.
  - destruct (g y); simpl; lia.
Qed.

Lemma filter_length_lt (f g : A -> bool) l x :
  (forall y, f y = true -> g y = true) ->
  In x l -> g x = true -> f x = false ->
  (length (filter f l) < length (filter g l))%nat.
Proof.
  intros H. induction l as [|y l IH]; simpl; intros Hin Hg Hf; [contradiction|].
  pose proof (filter_length_le f g l H) as Hle.
  destruct Hin as [->|Hin].
  - rewrite Hf, Hg. simpl. lia.
  - specialize (IH Hin Hg Hf). destruct (f y) eqn:Hfy.
    + rewrite (H y Hfy). simpl. lia.
    + destruct (g y); simpl; lia.
Qed.

End Counting.

Section Rank.

Import measure.

Lemma rank_positive roots m : In m roots -> 1 <= rank roots m.
Proof.
  intros Hin. unfold rank.
  assert (H : (length (filter (fun _ : Z => false) roots)
               < length (filter (fun r => (r <=? m)%Z) roots))%nat).
  { apply (filter_length_lt _ _ roots m); auto; [discriminate|apply Z.leb_le; lia]. }
  lia.
Qed.

Lemma rank_increasing roots m1 m2 :
  In m2 roots -> m1 < m2 -> rank roots m1 < rank roots m2.
Proof.
  intros Hin Hlt. unfold rank.
  assert (H : (length (filter (fun r => (r <=? m1)%Z) roots)
               < length (filter (fun r => (r <=? m2)%Z) roots))%nat).
  { apply (filter_length_lt _ _ roots m2); auto.
    - intros y Hy. apply Z.leb_le in Hy. apply Z.leb_le. lia.
    - apply Z.leb_le. lia.
    - apply Z.leb_gt. lia. }
  lia.
Qed.

Lemma rank_injective roots m1 m2 :
  In m1 roots -> In m2 roots -> rank roots m1 = rank roots m2 -> m1 = m2.
Proof.
  intros H1 H2 E. destruct (Z.lt_trichotomy m1 m2) as [Hlt|[Heq|Hgt]]; [|exact Heq|].
  - pose proof (rank_increasing roots m1 m2 H2 Hlt). lia.
  - pose proof (rank_increasing roots m2 m1 H1 Hgt). lia.
Qed.

End Rank.

Section Settle.

Import np measure.

Variable input : arr3 Z.
Variable background : Z.
Variable nbrs : list pos.
Variables n1 n2 n3 : nat.

Hypothesis input_rect : rect3 input n1 n2 n3.
Hypothesis nbrs_symmetric : forall d, In d nbrs -> In (opposite d) nbrs.

Lemma settle_spec fuel : forall marks,
  marks_ok input background nbrs n1 n2 n3 marks ->
  let r := settle input background nbrs fuel marks in
  marks_ok input background nbrs n1 n2 n3 (fst r) /\
  sum3 (fst r) <= sum3 marks /\
  (snd r = true -> propagate input background nbrs (fst r) = fst r) /\
  (snd r = false -> sum3 (fst r) + 2 ^ Z.of_nat fuel <= sum3 marks).
Proof.
  induction fuel as [|fuel IH]; intros marks Hok.
  - cbn [settle fst snd].
    pose proof (propagate_le3 input background nbrs marks) as Hle.
    destruct (sum3_le_lt _ _ Hle) as [Hsum Hstrict].
    split; [apply propagate_ok; assumption|].
    split; [exact Hsum|]. split.
    + intros E. apply arr3_eqb_spec in E. rewrite E at 2. rewrite E. exact E.
    + intros E. assert (Hne : propagate input background nbrs marks <> marks).
      { intros Heq. apply arr3_eqb_spec in Heq. congruence. }
      specialize (Hstrict Hne). change (2 ^ Z.of_nat 0) with 1. lia.
  - cbn [settle]. specialize (IH marks Hok) as IH1.
    destruct (settle input background nbrs fuel marks) as [marks1 stable] eqn:E1.
    cbn [fst snd] in IH1. destruct IH1 as (Hok1 & Hsum1 & Hst1 & Hdec1).
    destruct stable.
    + cbn [fst snd]. split; [exact Hok1|]. split; [exact Hsum1|].
      split; [intros _; apply Hst1; reflexivity|discriminate].
    + specialize (IH marks1 Hok1) as IH2. cbv zeta in IH2.
      destruct IH2 as (Hok2 & Hsum2 & Hst2 & Hdec2).
      split; [exact Hok2|]. split; [lia|]. split; [exact Hst2|].
      intros E. specialize (Hdec1 eq_refl). specialize (Hdec2 E).
      rewrite Nat2Z.inj_succ, Z.pow_succ_r by lia. lia.
Qed.

Lemma voxel_count_rect : voxel_count input = Z.of_nat (n1 * n2 * n3).
Proof.
  unfold voxel_count.
  destruct (Nat.eq_dec n1 0) as [H1|H1]; [|destruct (Nat.eq_dec n2 0) as [H2|H2]].
  - destruct input_rect as [Hlen _]. subst n1.
    destruct input; [reflexivity|discriminate].
  - destruct input_rect as [Hlen Hplanes].
    destruct input as [|pl a]; [simpl in Hlen; lia|].
    inversion Hplanes as [|? ? [Hl2 Hrows] _]; subst.
    destruct pl; [|discriminate]. unfold shape3. cbn [length]. lia.
  - rewrite (shape3_rect input n1 n2 n3 input_rect) by lia. lia.
Qed.

Lemma pow2_log2_up a : 0 < a -> a <= 2 ^ Z.log2_up a.
Proof.
  intros Ha. destruct (Z.eq_dec a 1) as [->|Hne]; [reflexivity|].
  apply Z.log2_up_spec. lia.
Qed.

Lemma marks_ok_bounds marks p m :
  marks_ok input background nbrs n1 n2 n3 marks ->
  get3 marks p = Some m -> 0 <= m <= Z.of_nat (n1 * n2 * n3).
Proof.
  intros [_ H] Hm. destruct (H p m Hm) as (_ & q & _ & [v Hv] & ->).
  pose proof (raster_nonneg input n1 n2 n3 input_rect q v Hv). lia.
Qed.

(** The marks [label] works from are stable. *)
Lemma component_marks_stable :
  marks_ok input background nbrs n1 n2 n3 (component_marks input background nbrs) /\
  propagate input background nbrs (component_marks input background nbrs)
  = component_marks input background nbrs.
Proof.
  unfold component_marks.
  set (fuel := Z.to_nat (2 * Z.log2_up (voxel_count input + 1) + 1)).
  pose proof (settle_spec fuel _ (initial_marks_ok input background nbrs n1 n2 n3 input_rect)) as H.
  cbv zeta in H. destruct H as (Hok & Hsum & Hst & Hdec).
  split; [exact Hok|].
  destruct (snd (settle input background nbrs fuel (initial_marks input))) eqn:E;
    [apply Hst; reflexivity|exfalso].
  specialize (Hdec eq_refl).
  set (N := Z.of_nat (n1 * n2 * n3)) in *.
  assert (HN : 0 <= N) by (subst N; lia).
  assert (H0 : 0 <= sum3 (fst (settle input background nbrs fuel (initial_marks input)))).
  { pose proof (sum3_bounds _ n1 n2 n3 0 N (proj1 Hok)
                  (fun p m Hm => marks_ok_bounds _ p m Hok Hm)). lia. }
  assert (H1 : sum3 (initial_marks input) <= N * N).
  { pose proof (initial_marks_ok input background nbrs n1 n2 n3 input_rect) as Hi.
    pose proof (sum3_bounds _ n1 n2 n3 0 N (proj1 Hi)
                  (fun p m Hm => marks_ok_bounds _ p m Hi Hm)). lia. }
  assert (H2 : N * N < 2 ^ Z.of_nat fuel).
  { subst fuel. rewrite voxel_count_rect. fold N.
    pose proof (Z.log2_up_nonneg (N + 1)) as Hl.
    rewrite Z2Nat.id by lia.
    replace (2 * Z.log2_up (N + 1) + 1) with (Z.log2_up (N + 1) + Z.log2_up (N + 1) + 1) by lia.
    rewrite !Z.pow_add_r by lia.
    pose proof (pow2_log2_up (N + 1)). nia. }
  lia.
Qed.

End Settle.

Section LabelSpec.

Import np measure.

Variable input : arr3 Z.
Variable background : Z.
Variable nbrs : list pos.
Variables n1 n2 n3 : nat.

Hypothesis input_rect : rect3 input n1 n2 n3.
Hypothesis nbrs_symmetric : forall d, In d nbrs -> In (opposite d) nbrs.

Lemma roots_spec marks r :
  In r (component_roots input background marks) <->
  exists p v, get3 input p = Some v /\ v <> background /\
              get3 marks p = Some r /\ r = raster (shape3 input) p.
Proof.
  unfold component_roots. cbv zeta. rewrite in_concat. split.
  - intros (l & Hl & Hr). apply In_ravel3_mapi3 in Hl.
    destruct Hl as (p & m & Hm & ->).
    destruct (get3 input p) as [v|] eqn:Hv; [|contradiction].
    destruct (negb (v =? background) && (m =? raster (shape3 input) p)) eqn:Hc;
      [|contradiction].
    destruct Hr as [<-|[]].
    apply andb_true_iff in Hc. destruct Hc as [Hbg Heq].
    apply negb_true_iff, Z.eqb_neq in Hbg. apply Z.eqb_eq in Heq.
    exists p, v. auto.
  - intros (p & v & Hv & Hbg & Hm & Hr).
    exists [r]. split; [|left; reflexivity].
    apply In_ravel3_mapi3. exists p, r. split; [exact Hm|].
    rewrite Hv.
    replace (v =? background) with false by (symmetry; apply Z.eqb_neq; exact Hbg).
    replace (r =? raster (shape3 input) p) with true by (symmetry; apply Z.eqb_eq; exact Hr).
    reflexivity.
Qed.

Lemma get3_label_with p :
  get3 (label_with input background nbrs) p =
  option_map (fun v =>
    if v =? background then 0
    else match get3 (component_marks input background nbrs) p with
         | Some m => rank (component_roots input background
                             (component_marks input background nbrs)) m
         | None => 0
         end) (get3 input p).
Proof. unfold label_with. cbv zeta. apply get3_mapi3. Qed.

(** The mark of a foreground voxel is the raster position of the first voxel
    of its component, which is a root. *)
Lemma mark_is_root p v m :
  get3 input p = Some v -> v <> background ->
  get3 (component_marks input background nbrs) p = Some m ->
  In m (component_roots input background (component_marks input background nbrs)) /\
  exists r, connected input background nbrs p r /\
            get3 input r = Some v /\ m = raster (shape3 input) r.
Proof.
  intros Hv Hbg Hm.
  destruct (component_marks_stable input background nbrs n1 n2 n3 input_rect)
    as [[Hrect Hmarks] Hfix].
  destruct (Hmarks p m Hm) as (_ & q & Hpq & [vq Hvq] & Hmq).
  pose proof (connected_value _ _ _ _ _ _ Hpq Hv) as Hvq'.
  assert (Hq : exists mq, get3 (component_marks input background nbrs) q = Some mq)
    by (apply (same_domain input n1 n2 n3 input_rect); eauto).
  destruct Hq as [mq Hq].
  assert (E : m = mq)
    by (eapply (stable_connected input background nbrs n1 n2 n3); eauto).
  subst mq. split; [|eauto].
  apply roots_spec. exists q, v. subst m. auto.
Qed.

(** What [label] promises, for any symmetric neighbourhood.  Background
    voxels are labelled 0, foreground voxels from 1 upwards, and two
    foreground voxels carry the same label exactly when a path of
    neighbouring voxels of one value joins them. *)
Lemma label_with_spec :
  rect3 (label_with input background nbrs) n1 n2 n3 /\
  (forall p, get3 input p = Some background ->
             get3 (label_with input background nbrs) p = Some 0) /\
  (forall p v, get3 input p = Some v -> v <> background ->
     exists l, get3 (label_with input background nbrs) p = Some l /\ 1 <= l) /\
  (forall p q vp vq lp lq,
     get3 input p = Some vp -> vp <> background ->
     get3 input q = Some vq -> vq <> background ->
     get3 (label_with input background nbrs) p = Some lp ->
     get3 (label_with input background nbrs) q = Some lq ->
     (lp = lq <-> connected input background nbrs p q)).
Proof.
  destruct (component_marks_stable input background nbrs n1 n2 n3 input_rect)
    as [[Hrect Hmarks] Hfix].
  assert (Hmark : forall p v, get3 input p = Some v ->
            exists m, get3 (component_marks input background nbrs) p = Some m).
  { intros p v Hv. apply (same_domain input n1 n2 n3 input_rect); eauto. }
  split; [unfold label_with; cbv zeta; apply rect3_mapi3, input_rect|].
  split.
  { intros p Hp. rewrite get3_label_with, Hp. simpl. rewrite Z.eqb_refl. reflexivity. }
  split.
  { intros p v Hv Hbg. destruct (Hmark p v Hv) as [m Hm].
    rewrite get3_label_with, Hv. simpl.
    replace (v =? background) with false by (symmetry; apply Z.eqb_neq; exact Hbg).
    rewrite Hm. eexists. split; [reflexivity|].
    apply rank_positive. eapply mark_is_root; eauto. }
  intros p q vp vq lp lq Hvp Hbp Hvq Hbq Hlp Hlq.
  destruct (Hmark p vp Hvp) as [mp Hmp]. destruct (Hmark q vq Hvq) as [mq Hmq].
  rewrite get3_label_with, Hvp in Hlp. rewrite get3_label_with, Hvq in Hlq.
  simpl in Hlp, Hlq.
  replace (vp =? background) with false in Hlp by (symmetry; apply Z.eqb_neq; exact Hbp).
  replace (vq =? background) with false in Hlq by (symmetry; apply Z.eqb_neq; exact Hbq).
  rewrite Hmp in Hlp. rewrite Hmq in Hlq.
  inversion Hlp as [Elp]. inversion Hlq as [Elq]. clear Hlp Hlq. subst lp lq.
  destruct (mark_is_root p vp mp Hvp Hbp Hmp) as (Hrp & rp & Hprp & Hvrp & Erp).
  destruct (mark_is_root q vq mq Hvq Hbq Hmq) as (Hrq & rq & Hqrq & Hvrq & Erq).
  split.
  - intros E. apply rank_injective in E; [|assumption|assumption].
    assert (rp = rq).
    { eapply (raster_inj input n1 n2 n3); eauto. congruence. }
    subst rq. eapply connected_trans; [exact Hprp|].
    apply connected_sym; assumption.
  - intros Hpq.
    assert (E : mp = mq) by (eapply (stable_connected input background nbrs n1 n2 n3); eauto).
    rewrite E. reflexivity.
Qed.

End LabelSpec.


Section Boxes.

Import np ndimage measure.

Lemma In_zrange lo hi x : In x (zrange lo hi) <-> lo <= x <= hi.
Proof.
  unfold zrange. rewrite in_map_iff. split.
  - intros (n & <- & Hn). apply in_seq in Hn. lia.
  - intros H. exists (Z.to_nat (x - lo)). split; [lia|]. apply in_seq. lia.
Qed.

Lemma In_box lo hi a b c :
  In (a, b, c) (box lo hi) <-> lo <= a <= hi /\ lo <= b <= hi /\ lo <= c <= hi.
Proof.
  unfold box. rewrite in_flat_map. split.
  - intros (a' & Ha & H). apply in_flat_map in H. destruct H as (b' & Hb & H).
    apply in_map_iff in H. destruct H as (c' & E & Hc). inversion E; subst.
    rewrite In_zrange in Ha, Hb, Hc. auto.
  - intros (Ha & Hb & Hc). exists a. split; [apply In_zrange; exact Ha|].
    apply in_flat_map. exists b. split; [apply In_zrange; exact Hb|].
    apply in_map_iff. exists c. split; [reflexivity|apply In_zrange; exact Hc].
Qed.

Lemma In_cube n a b c :
  In (a, b, c) (cube n) <->
  - (n / 2) <= a <= n - 1 - n / 2 /\
  - (n / 2) <= b <= n - 1 - n / 2 /\
  - (n / 2) <= c <= n - 1 - n / 2.
Proof. apply In_box. Qed.

Lemma In_neighbours c d :
  In d (neighbours c) <->
  (let '(x, y, z) := d in -1 <= x <= 1 /\ -1 <= y <= 1 /\ -1 <= z <= 1) /\
  0 < hops d <= c.
Proof.
  unfold neighbours. rewrite filter_In, andb_true_iff, Z.ltb_lt, Z.leb_le.
  destruct d as [[x y] z]. rewrite In_box. tauto.
Qed.

Lemma neighbours_symmetric c d :
  In d (neighbours c) -> In (opposite d) (neighbours c).
Proof.
  rewrite !In_neighbours. destruct d as [[x y] z]. unfold opposite, hops.
  intros [H1 H2]. split; lia.
Qed.

(** [connectivity=1]: the six face neighbours. *)
Lemma neighbours_faces :
  neighbours 1 = [(-1, 0, 0); (0, -1, 0); (0, 0, -1); (0, 0, 1); (0, 1, 0); (1, 0, 0)].
Proof. reflexivity. Qed.

(** Full connectivity: all 26 voxels that touch by a face, an edge or a corner. *)
Lemma neighbours_full d :
  In d (neighbours 3) <-> In d (box (-1) 1) /\ d <> (0, 0, 0).
Proof.
  rewrite In_neighbours. destruct d as [[x y] z]. rewrite In_box. unfold hops.
  split.
  - intros [H1 H2]. split; [exact H1|]. intros E. inversion E. subst. simpl in H2. lia.
  - intros [H1 H2]. split; [exact H1|].
    assert (x <> 0 \/ y <> 0 \/ z <> 0).
    { destruct (Z.eq_dec x 0), (Z.eq_dec y 0), (Z.eq_dec z 0); subst; auto. }
    lia.
Qed.

End Boxes.

Section LabelConnectivity.

Import np measure.

(** Voxels joined by a path of voxels of one value, each a neighbour of the
    previous one for [connectivity = c], none of them of value [background]. *)
Definition joined (input : arr3 Z) (background c : Z) (p q : pos) : Prop :=
  connected input background (neighbours c) p q.

(** What [measure.label(input, background, connectivity)] returns. *)
Lemma label_spec input background c n1 n2 n3 :
  rect3 input n1 n2 n3 ->
  rect3 (label input background c) n1 n2 n3 /\
  (forall p, get3 input p = Some background ->
             get3 (label input background c) p = Some 0) /\
  (forall p v, get3 input p = Some v -> v <> background ->
     exists l, get3 (label input background c) p = Some l /\ 1 <= l) /\
  (forall p q vp vq lp lq,
     get3 input p = Some vp -> vp <> background ->
     get3 input q = Some vq -> vq <> background ->
     get3 (label input background c) p = Some lp ->
     get3 (label input background c) q = Some lq ->
     (lp = lq <-> joined input background c p q)).
Proof.
  intros Hrect. unfold label, joined.
  apply label_with_spec; [exact Hrect|apply neighbours_symmetric].
Qed.

End LabelConnectivity.


(** ** Binary morphology *)

Section Morphology.

Import np ndimage.

Lemma get3_binary_dilation input structure p :
  get3 (binary_dilation input structure) p =
  option_map (fun _ => existsb (fun d => voxel_or false input (padd p (pneg d))) structure)
             (get3 input p).
Proof. unfold binary_dilation. apply get3_mapi3. Qed.

Lemma get3_binary_erosion input structure p :
  get3 (binary_erosion input structure) p =
  option_map (fun _ => forallb (fun d => voxel_or false input (padd p d)) structure)
             (get3 input p).
Proof. unfold binary_erosion. apply get3_mapi3. Qed.

Lemma padd_origin p : padd p (0, 0, 0) = p.
Proof. destruct p as [[i j] k]. unfold padd. rewrite !Z.add_0_r. reflexivity. Qed.

(** A structuring element that contains its centre only adds voxels. *)
Lemma dilation_extensive input structure p :
  In (0, 0, 0) structure ->
  get3 input p = Some true ->
  get3 (binary_dilation input structure) p = Some true.
Proof.
  intros Hin Hp. rewrite get3_binary_dilation, Hp. simpl. f_equal.
  apply existsb_exists. exists (0, 0, 0). split; [exact Hin|].
  change (pneg (0, 0, 0)) with (0, 0, 0). rewrite padd_origin.
  unfold voxel_or. rewrite Hp. reflexivity.
Qed.

Lemma cube_has_centre n : 0 < n -> In (0, 0, 0) (cube n).
Proof.
  intros Hn. apply In_cube.
  assert (0 <= n / 2) by (apply Z.div_pos; lia).
  assert (n / 2 <= n - 1).
  { assert (n / 2 < n) by (apply Z.div_lt; lia). lia. }
  lia.
Qed.

Lemma Forall2_concat {A B : Type} (R : A -> B -> Prop) a b :
  Forall2 (Forall2 R) a b -> Forall2 R (concat a) (concat b).
Proof.
  induction 1; simpl; [constructor|]. apply Forall2_app; assumption.
Qed.

Lemma count_true_le l l' :
  Forall2 (fun x y : bool => x = true -> y = true) l l' ->
  (count_true l <= count_true l')%nat.
Proof.
  unfold count_true. induction 1 as [|x y l l' Hxy Hl IH]; simpl; [lia|].
  destruct x; simpl.
  - rewrite (Hxy eq_refl). simpl. lia.
  - destruct y; simpl; lia.
Qed.

Lemma Forall2_mapi_r {A B : Type} (R : A -> B -> Prop) (f : Z -> A -> B) (l : list A) :
  (forall i x, zth l i = Some x -> R x (f i x)) -> Forall2 R l (mapi f l).
Proof.
  intros H. apply Forall2_zth; [symmetry; apply length_mapi|].
  intros i x y Hx Hy. rewrite zth_mapi, Hx in Hy. simpl in Hy.
  inversion Hy; subst. apply H. exact Hx.
Qed.

Lemma count_true_mapi3 (f : pos -> bool -> bool) (a : arr3 bool) :
  (forall p, get3 a p = Some true -> f p true = true) ->
  (count_true (ravel3 a) <= count_true (ravel3 (mapi3 f a)))%nat.
Proof.
  intros H. apply count_true_le. unfold ravel3.
  apply Forall2_concat, Forall2_concat. unfold mapi3.
  apply Forall2_mapi_r. intros i pl Hi.
  apply Forall2_mapi_r. intros j rw Hj.
  apply Forall2_mapi_r. intros k x Hk Hx. subst x.
  apply H. unfold get3, get2. rewrite Hi, Hj. exact Hk.
Qed.

(** Dilation never removes a voxel, so it never lowers the count. *)
Lemma dilation_count input structure :
  In (0, 0, 0) structure ->
  (count_true (ravel3 input) <= count_true (ravel3 (binary_dilation input structure)))%nat.
Proof.
  intros Hin. unfold binary_dilation. apply count_true_mapi3.
  intros p Hp. apply existsb_exists. exists (0, 0, 0). split; [exact Hin|].
  change (pneg (0, 0, 0)) with (0, 0, 0). rewrite padd_origin.
  unfold voxel_or. rewrite Hp. reflexivity.
Qed.

End Morphology.

Section DilationClaim.

Import np ndimage preprocess.

(** C6.  Whenever the candidate region of [segment_lung_mask] is computed,
    the mask returned after the final dilation contains it: every non-zero
    voxel of the candidate is true in the mask, and the mask has at least as
    many positive voxels as the candidate.  The same holds for the dilation
    of any binary mask by the 10x10x10 cube. *)
Theorem segment_lung_mask_contains_candidate :
  (forall (mask : arr3 bool),
     (forall p, get3 mask p = Some true ->
                get3 (binary_dilation mask (cube 10)) p = Some true) /\
     (count_true (ravel3 mask)
      <= count_true (ravel3 (binary_dilation mask (cube 10))))%nat) /\
  (forall image fill_lung_structures,
     match lung_candidate image fill_lung_structures with
     | py.Ok candidate =>
         exists mask,
           segment_lung_mask image fill_lung_structures = py.Ok mask /\
           (forall p v, get3 candidate p = Some v -> v <> 0 ->
                        get3 mask p = Some true) /\
           (count_true (ravel3 (map3 nonzero candidate))
            <= count_true (ravel3 mask))%nat
     | py.Raise e => segment_lung_mask image fill_lung_structures = py.Raise e
     end).
Proof.
  assert (Hc : In (0, 0, 0) (cube 10)) by (apply cube_has_centre; lia).
  split.
  - intros mask. split.
    + intros p Hp. apply dilation_extensive; assumption.
    + apply dilation_count. exact Hc.
  - intros image fill. unfold segment_lung_mask.
    destruct (lung_candidate image fill) as [candidate|e]; [|reflexivity].
    cbn [py.bind]. eexists. split; [reflexivity|]. split.
    + intros p v Hv Hnz. apply dilation_extensive; [exact Hc|].
      rewrite get3_map3, Hv. simpl. f_equal. unfold nonzero.
      apply negb_true_iff, Z.eqb_neq. exact Hnz.
    + apply dilation_count. exact Hc.
Qed.

(** The claim at a mask of two voxels, one of them set. *)
Lemma segment_lung_mask_contains_candidate_witness :
  get3 (binary_dilation [[[true; false]]] (cube 10)) (0, 0, 0) = Some true /\
  (count_true (ravel3 [[[true; false]]])
   <= count_true (ravel3 (binary_dilation [[[true; false]]] (cube 10))))%nat.
Proof.
  destruct (proj1 segment_lung_mask_contains_candidate [[[true; false]]]) as [Hsub Hcount].
  split; [apply Hsub; reflexivity|exact Hcount].
Defined.

End DilationClaim.


(** ** Uniform arrays *)

Lemma uniform_list {A : Type} (l : list A) n c :
  length l = n -> (forall x, In x l -> x = c) -> l = repeat c n.
Proof.
  intros Hlen Hall. subst n. apply Forall_eq_repeat, Forall_forall.
  intros x Hx. symmetry. apply Hall, Hx.
Qed.

Section Uniform.

Import np.

Context {A : Type}.

(** A rectangular array whose voxels all hold [c] is [np.full(shape, c)]. *)
Lemma uniform_full3 (a : arr3 A) n1 n2 n3 c :
  rect3 a n1 n2 n3 ->
  (forall p x, get3 a p = Some x -> x = c) ->
  a = full3 n1 n2 n3 c.
Proof.
  intros [Hlen Hplanes] Hall. rewrite Forall_forall in Hplanes.
  unfold full3. apply uniform_list; [exact Hlen|].
  intros pl Hpl. destruct (Hplanes pl Hpl) as [Hl2 Hrows].
  rewrite Forall_forall in Hrows.
  apply uniform_list; [exact Hl2|]. intros rw Hrw.
  apply uniform_list; [apply Hrows, Hrw|]. intros x Hx.
  apply In_zth in Hpl, Hrw, Hx.
  destruct Hpl as [i Hi], Hrw as [j Hj], Hx as [k Hk].
  apply (Hall (i, j, k)). unfold get3, get2. rewrite Hi, Hj. exact Hk.
Qed.

Lemma get3_full3_Some n1 n2 n3 (c x : A) p :
  get3 (full3 n1 n2 n3 c) p = Some x -> x = c.
Proof.
  destruct p as [[i j] k]. rewrite get3_full3.
  destruct (_ && _); congruence.
Qed.

Lemma get3_full3_inside n1 n2 n3 (c : A) i j k :
  0 <= i < Z.of_nat n1 -> 0 <= j < Z.of_nat n2 -> 0 <= k < Z.of_nat n3 ->
  get3 (full3 n1 n2 n3 c) (i, j, k) = Some c.
Proof.
  intros Hi Hj Hk. rewrite get3_full3.
  replace (0 <=? i) with true by (symmetry; apply Z.leb_le; lia).
  replace (i <? Z.of_nat n1) with true by (symmetry; apply Z.ltb_lt; lia).
  replace (0 <=? j) with true by (symmetry; apply Z.leb_le; lia).
  replace (j <? Z.of_nat n2) with true by (symmetry; apply Z.ltb_lt; lia).
  replace (0 <=? k) with true by (symmetry; apply Z.leb_le; lia).
  replace (k <? Z.of_nat n3) with true by (symmetry; apply Z.ltb_lt; lia).
  reflexivity.
Qed.

Lemma get3_full3_bounds n1 n2 n3 (c x : A) i j k :
  get3 (full3 n1 n2 n3 c) (i, j, k) = Some x ->
  0 <= i < Z.of_nat n1 /\ 0 <= j < Z.of_nat n2 /\ 0 <= k < Z.of_nat n3.
Proof.
  intros H. apply (get3_rect (full3 n1 n2 n3 c) n1 n2 n3 i j k).
  - apply rect3_full3.
  - eauto.
Qed.

Lemma In_ravel3_full3 n1 n2 n3 (c x : A) :
  In x (ravel3 (full3 n1 n2 n3 c)) -> x = c.
Proof.
  intros H. apply In_ravel3 in H. destruct H as [p Hp].
  eapply get3_full3_Some, Hp.
Qed.

End Uniform.

Section UniformMap.

Import np.

Context {A B : Type}.

Lemma mapi3_uniform (f : pos -> A -> B) (a : arr3 A) n1 n2 n3 c :
  rect3 a n1 n2 n3 ->
  (forall p x, get3 a p = Some x -> f p x = c) ->
  mapi3 f a = full3 n1 n2 n3 c.
Proof.
  intros Hrect Hall. apply uniform_full3; [apply rect3_mapi3, Hrect|].
  intros p y Hy. rewrite get3_mapi3 in Hy.
  destruct (get3 a p) as [x|] eqn:Hx; simpl in Hy; [|discriminate].
  inversion Hy. apply Hall, Hx.
Qed.

Lemma map3_full3 (f : A -> B) n1 n2 n3 c :
  map3 f (full3 n1 n2 n3 c) = full3 n1 n2 n3 (f c).
Proof. unfold map3, full3. rewrite !map_repeat. reflexivity. Qed.

End UniformMap.

Section LargestLabelVolumeUniform.

Import np preprocess.

Lemma largest_label_volume_background im bg :
  (forall x, In x im -> x = bg) -> largest_label_volume im bg = None.
Proof.
  intros Hall. rewrite largest_label_volume_table.
  replace (foreground_table im bg) with (@nil (Z * nat)); [reflexivity|].
  symmetry. apply foreground_table_nil, Forall_forall, Hall.
Qed.

Lemma largest_label_volume_member im bg v :
  largest_label_volume im bg = Some v -> In v im /\ v <> bg.
Proof.
  rewrite largest_label_volume_table.
  destruct (foreground_table im bg) as [|x r] eqn:Ht; [discriminate|].
  rewrite <- Ht. intros Hv. inversion Hv as [Hv']. clear Hv.
  assert (Hne : map snd (foreground_table im bg) <> []) by (rewrite Ht; discriminate).
  destruct (argmax_spec _ Hne) as (Hlt & _ & _).
  rewrite length_map in Hlt.
  pose proof (nth_In _ (0, 0%nat) Hlt) as Hin.
  destruct (nth _ _ _) as [w c]. simpl in Hv'. subst w.
  apply foreground_table_In in Hin. tauto.
Qed.

End LargestLabelVolumeUniform.


(** ** Morphology of uniform volumes *)

Section UniformMorphology.

Import np ndimage preprocess.

Variables n1 n2 n3 : nat.

(** The voxels at least two voxels away from every face of the volume: the
    ones a 5x5x5 structuring element centred on them keeps inside. *)
Definition interior (p : pos) : bool :=
  let '(i, j, k) := p in
  (2 <=? i) && (i <=? Z.of_nat n1 - 3) &&
  ((2 <=? j) && (j <=? Z.of_nat n2 - 3)) &&
  ((2 <=? k) && (k <=? Z.of_nat n3 - 3)).

Lemma interior_true i j k :
  interior (i, j, k) = true <->
  (2 <= i <= Z.of_nat n1 - 3) /\ (2 <= j <= Z.of_nat n2 - 3) /\
  (2 <= k <= Z.of_nat n3 - 3).
Proof.
  unfold interior. rewrite !andb_true_iff, !Z.leb_le. tauto.
Qed.

Lemma interior_false i j k :
  interior (i, j, k) = false <->
  (i < 2 \/ Z.of_nat n1 - 3 < i) \/ (j < 2 \/ Z.of_nat n2 - 3 < j) \/
  (k < 2 \/ Z.of_nat n3 - 3 < k).
Proof.
  rewrite <- not_true_iff_false, interior_true. lia.
Qed.

Lemma dilation_full structure :
  In (0, 0, 0) structure ->
  binary_dilation (full3 n1 n2 n3 true) structure = full3 n1 n2 n3 true.
Proof.
  intros Hin. unfold binary_dilation.
  apply mapi3_uniform; [apply rect3_full3|].
  intros p x Hx. apply existsb_exists. exists (0, 0, 0). split; [exact Hin|].
  change (pneg (0, 0, 0)) with (0, 0, 0). rewrite padd_origin.
  unfold voxel_or. rewrite Hx. eapply get3_full3_Some, Hx.
Qed.

Lemma dilation_empty structure :
  binary_dilation (full3 n1 n2 n3 false) structure = full3 n1 n2 n3 false.
Proof.
  unfold binary_dilation. apply mapi3_uniform; [apply rect3_full3|].
  intros p x _. apply not_true_is_false. intros H.
  apply existsb_exists in H. destruct H as (d & _ & Hd).
  unfold voxel_or in Hd.
  destruct (get3 _ _) as [b|] eqn:Hb; [|discriminate].
  apply get3_full3_Some in Hb. congruence.
Qed.

Lemma voxel_or_full p :
  voxel_or false (full3 n1 n2 n3 true) p = true <->
  (let '(i, j, k) := p in
   0 <= i < Z.of_nat n1 /\ 0 <= j < Z.of_nat n2 /\ 0 <= k < Z.of_nat n3).
Proof.
  destruct p as [[i j] k]. unfold voxel_or. split.
  - destruct (get3 _ _) as [b|] eqn:Hb; [|discriminate].
    intros _. eapply get3_full3_bounds, Hb.
  - intros (Hi & Hj & Hk). rewrite get3_full3_inside by assumption. reflexivity.
Qed.

(** With [border_value=0] the erosion by the 5x5x5 cube removes the two
    outermost layers of a full volume. *)
Lemma erosion_full i j k :
  0 <= i < Z.of_nat n1 -> 0 <= j < Z.of_nat n2 -> 0 <= k < Z.of_nat n3 ->
  get3 (binary_erosion (full3 n1 n2 n3 true) (cube 5)) (i, j, k)
  = Some (interior (i, j, k)).
Proof.
  intros Hi Hj Hk. rewrite get3_binary_erosion, get3_full3_inside by assumption.
  cbn [option_map]. f_equal. apply eq_iff_eq_true.
  rewrite forallb_forall, interior_true. split.
  - intros H.
    assert (Hlo : In (-2, -2, -2) (cube 5)) by (apply In_cube; simpl; lia).
    assert (Hhi : In (2, 2, 2) (cube 5)) by (apply In_cube; simpl; lia).
    apply H in Hlo, Hhi. apply voxel_or_full in Hlo, Hhi.
    unfold padd in Hlo, Hhi. lia.
  - intros H [[a b] c] Hd. apply In_cube in Hd.
    change (5 / 2) with 2 in Hd.
    apply voxel_or_full. unfold padd. lia.
Qed.

Lemma rect3_binary_closing input structure :
  rect3 input n1 n2 n3 -> rect3 (binary_closing input structure) n1 n2 n3.
Proof.
  intros H. unfold binary_closing, binary_erosion, binary_dilation.
  apply rect3_mapi3, rect3_mapi3, H.
Qed.

Variable image : arr3 Z.

Hypothesis image_rect : rect3 image n1 n2 n3.
Hypothesis image_tissue : Forall (fun v => -320 < v) (ravel3 image).

Lemma threshold_all_tissue :
  map3 nonzero (map3 (fun v => if -320 <? v then 1 else 0) image)
  = full3 n1 n2 n3 true.
Proof.
  rewrite (map3_mapi3 nonzero).
  apply mapi3_uniform; [apply rect3_map3, image_rect|].
  intros p x Hx. rewrite get3_map3 in Hx.
  destruct (get3 image p) as [v|] eqn:Hv; simpl in Hx; [|discriminate].
  inversion Hx as [Hx']. clear Hx.
  assert (Hin : In v (ravel3 image)) by (apply In_ravel3; eauto).
  rewrite Forall_forall in image_tissue. apply image_tissue in Hin.
  replace (-320 <? v) with true by (symmetry; apply Z.ltb_lt; exact Hin).
  reflexivity.
Qed.

Lemma closed_volume_rect : rect3 (closed_volume image) n1 n2 n3.
Proof.
  unfold closed_volume. apply rect3_map3, rect3_binary_closing.
  rewrite threshold_all_tissue. apply rect3_full3.
Qed.

(** After the closing an all-tissue volume is 2 inside and 1, the value of
    air, on a shell two voxels thick. *)
Lemma closed_volume_all_tissue i j k :
  0 <= i < Z.of_nat n1 -> 0 <= j < Z.of_nat n2 -> 0 <= k < Z.of_nat n3 ->
  get3 (closed_volume image) (i, j, k)
  = Some (if interior (i, j, k) then 2 else 1).
Proof.
  intros Hi Hj Hk. unfold closed_volume.
  rewrite get3_map3, threshold_all_tissue. unfold binary_closing.
  rewrite dilation_full by (apply cube_has_centre; lia).
  rewrite erosion_full by assumption. reflexivity.
Qed.

End UniformMorphology.


(** ** Straight paths *)

Section Walks.

Import np measure.

Variable input : arr3 Z.
Variable background : Z.
Variable nbrs : list pos.

(** [t] steps of [d] from [p]. *)
Definition pstep (p d : pos) (t : Z) : pos :=
  let '(i, j, k) := p in
  let '(a, b, c) := d in
  (i + t * a, j + t * b, k + t * c).

Lemma pstep_succ p d t : pstep p d (t + 1) = padd (pstep p d t) d.
Proof.
  destruct p as [[i j] k], d as [[a b] c]. unfold pstep, padd.
  f_equal; [f_equal|]; lia.
Qed.

Lemma pstep_0 p d : pstep p d 0 = p.
Proof.
  destruct p as [[i j] k], d as [[a b] c]. unfold pstep.
  f_equal; [f_equal|]; lia.
Qed.

(** A straight run of voxels of one foreground value is a path. *)
Lemma walk d v p (n : nat) :
  In d nbrs -> v <> background ->
  (forall t, 0 <= t <= Z.of_nat n -> get3 input (pstep p d t) = Some v) ->
  connected input background nbrs p (pstep p d (Z.of_nat n)).
Proof.
  intros Hd Hv. induction n as [|n IH]; intros Hrun.
  - simpl. rewrite pstep_0. apply connected_here.
  - eapply connected_step.
    + apply IH. intros t Ht. apply Hrun. lia.
    + exists d, v. rewrite Nat2Z.inj_succ. unfold Z.succ.
      split; [exact Hd|]. split; [apply pstep_succ|].
      split; [apply Hrun; lia|]. split; [apply Hrun; lia|exact Hv].
Qed.

Lemma walk_down_i v i j k :
  In (-1, 0, 0) nbrs -> v <> background -> 0 <= i ->
  (forall t, 0 <= t <= i -> get3 input (t, j, k) = Some v) ->
  connected input background nbrs (i, j, k) (0, j, k).
Proof.
  intros Hd Hv Hi Hrun.
  replace (0, j, k) with (pstep (i, j, k) (-1, 0, 0) (Z.of_nat (Z.to_nat i)))
    by (unfold pstep; f_equal; [f_equal|]; lia).
  apply (walk _ v); auto. intros t Ht.
  replace (pstep (i, j, k) (-1, 0, 0) t) with (i - t, j, k)
    by (unfold pstep; f_equal; [f_equal|]; lia).
  apply Hrun. lia.
Qed.

Lemma walk_down_j v i j k :
  In (0, -1, 0) nbrs -> v <> background -> 0 <= j ->
  (forall t, 0 <= t <= j -> get3 input (i, t, k) = Some v) ->
  connected input background nbrs (i, j, k) (i, 0, k).
Proof.
  intros Hd Hv Hj Hrun.
  replace (i, 0, k) with (pstep (i, j, k) (0, -1, 0) (Z.of_nat (Z.to_nat j)))
    by (unfold pstep; f_equal; [f_equal|]; lia).
  apply (walk _ v); auto. intros t Ht.
  replace (pstep (i, j, k) (0, -1, 0) t) with (i, j - t, k)
    by (unfold pstep; f_equal; [f_equal|]; lia).
  apply Hrun. lia.
Qed.

Lemma walk_down_k v i j k :
  In (0, 0, -1) nbrs -> v <> background -> 0 <= k ->
  (forall t, 0 <= t <= k -> get3 input (i, j, t) = Some v) ->
  connected input background nbrs (i, j, k) (i, j, 0).
Proof.
  intros Hd Hv Hk Hrun.
  replace (i, j, 0) with (pstep (i, j, k) (0, 0, -1) (Z.of_nat (Z.to_nat k)))
    by (unfold pstep; f_equal; [f_equal|]; lia).
  apply (walk _ v); auto. intros t Ht.
  replace (pstep (i, j, k) (0, 0, -1) t) with (i, j, k - t)
    by (unfold pstep; f_equal; [f_equal|]; lia).
  apply Hrun. lia.
Qed.

End Walks.

Section UniformLabels.

Import np measure.

Lemma face_neighbours c :
  1 <= c ->
  In (-1, 0, 0) (neighbours c) /\ In (0, -1, 0) (neighbours c) /\
  In (0, 0, -1) (neighbours c).
Proof.
  intros Hc. rewrite !In_neighbours. unfold hops. simpl. lia.
Qed.

Variables n1 n2 n3 : nat.

(** In a volume of one foreground value every voxel is joined to the first. *)
Lemma full3_joined v background c i j k :
  v <> background -> 1 <= c ->
  0 <= i < Z.of_nat n1 -> 0 <= j < Z.of_nat n2 -> 0 <= k < Z.of_nat n3 ->
  joined (full3 n1 n2 n3 v) background c (i, j, k) (0, 0, 0).
Proof.
  intros Hv Hc Hi Hj Hk. destruct (face_neighbours c Hc) as (Fi & Fj & Fk).
  unfold joined.
  apply connected_trans with (q := (0, j, k)).
  { apply (walk_down_i _ _ _ v); auto; [lia|].
    intros t Ht. apply get3_full3_inside; lia. }
  apply connected_trans with (q := (0, 0, k)).
  { apply (walk_down_j _ _ _ v); auto; [lia|].
    intros t Ht. apply get3_full3_inside; lia. }
  apply (walk_down_k _ _ _ v); auto; [lia|].
  intros t Ht. apply get3_full3_inside; lia.
Qed.

(** [measure.label] of a volume of one foreground value: one component. *)
Lemma label_full3 v background c :
  v <> background -> 1 <= c -> (0 < n1)%nat -> (0 < n2)%nat -> (0 < n3)%nat ->
  exists l, 1 <= l /\ label (full3 n1 n2 n3 v) background c = full3 n1 n2 n3 l.
Proof.
  intros Hv Hc H1 H2 H3.
  destruct (label_spec (full3 n1 n2 n3 v) background c n1 n2 n3 (rect3_full3 _ _ _ _))
    as (Hrect & _ & Hfg & Heq).
  assert (H0 : get3 (full3 n1 n2 n3 v) (0, 0, 0) = Some v)
    by (apply get3_full3_inside; lia).
  destruct (Hfg _ _ H0 Hv) as (l & Hl & Hpos).
  exists l. split; [exact Hpos|].
  apply uniform_full3; [exact Hrect|].
  intros [[i j] k] x Hx.
  assert (Hb : 0 <= i < Z.of_nat n1 /\ 0 <= j < Z.of_nat n2 /\ 0 <= k < Z.of_nat n3)
    by (apply (get3_rect _ _ _ _ _ _ _ Hrect); eauto).
  destruct Hb as (Hi & Hj & Hk).
  assert (Hp : get3 (full3 n1 n2 n3 v) (i, j, k) = Some v)
    by (apply get3_full3_inside; lia).
  apply (Heq _ _ _ _ _ _ Hp Hv H0 Hv Hx Hl).
  apply full3_joined; assumption.
Qed.

(** [measure.label] of a volume that is all background: no component. *)
Lemma label_background background c :
  label (full3 n1 n2 n3 background) background c = full3 n1 n2 n3 0.
Proof.
  destruct (label_spec (full3 n1 n2 n3 background) background c n1 n2 n3
              (rect3_full3 _ _ _ _)) as (Hrect & Hbg & _ & _).
  apply uniform_full3; [exact Hrect|].
  intros [[i j] k] x Hx.
  assert (Hb : 0 <= i < Z.of_nat n1 /\ 0 <= j < Z.of_nat n2 /\ 0 <= k < Z.of_nat n3)
    by (apply (get3_rect _ _ _ _ _ _ _ Hrect); eauto).
  destruct Hb as (Hi & Hj & Hk).
  rewrite Hbg in Hx by (apply get3_full3_inside; lia). congruence.
Qed.

(** The shell that the closing leaves around an all-tissue volume is one
    face-connected component: every voxel of it is joined to the corner. *)
Variable a : arr3 Z.

Hypothesis a_shell : forall i j k,
  0 <= i < Z.of_nat n1 -> 0 <= j < Z.of_nat n2 -> 0 <= k < Z.of_nat n3 ->
  get3 a (i, j, k) = Some (if interior n1 n2 n3 (i, j, k) then 2 else 1).

Lemma shell_value i j k :
  0 <= i < Z.of_nat n1 -> 0 <= j < Z.of_nat n2 -> 0 <= k < Z.of_nat n3 ->
  (i < 2 \/ Z.of_nat n1 - 3 < i) \/ (j < 2 \/ Z.of_nat n2 - 3 < j) \/
  (k < 2 \/ Z.of_nat n3 - 3 < k) ->
  get3 a (i, j, k) = Some 1.
Proof.
  intros Hi Hj Hk Hs. rewrite a_shell by assumption.
  apply interior_false in Hs. rewrite Hs. reflexivity.
Qed.

Lemma shell_joined i j k :
  0 <= i < Z.of_nat n1 -> 0 <= j < Z.of_nat n2 -> 0 <= k < Z.of_nat n3 ->
  interior n1 n2 n3 (i, j, k) = false ->
  joined a 0 1 (i, j, k) (0, 0, 0).
Proof.
  intros Hi Hj Hk Hs. apply interior_false in Hs.
  destruct (face_neighbours 1 (Z.le_refl 1)) as (Fi & Fj & Fk).
  assert (H1 : (1 : Z) <> 0) by discriminate.
  unfold joined. destruct Hs as [Hs|[Hs|Hs]].
  - apply connected_trans with (q := (i, 0, k)).
    { apply (walk_down_j _ _ _ 1); auto; [lia|].
      intros t Ht. apply shell_value; lia. }
    apply connected_trans with (q := (i, 0, 0)).
    { apply (walk_down_k _ _ _ 1); auto; [lia|].
      intros t Ht. apply shell_value; lia. }
    apply (walk_down_i _ _ _ 1); auto; [lia|].
    intros t Ht. apply shell_value; lia.
  - apply connected_trans with (q := (0, j, k)).
    { apply (walk_down_i _ _ _ 1); auto; [lia|].
      intros t Ht. apply shell_value; lia. }
    apply connected_trans with (q := (0, j, 0)).
    { apply (walk_down_k _ _ _ 1); auto; [lia|].
      intros t Ht. apply shell_value; lia. }
    apply (walk_down_j _ _ _ 1); auto; [lia|].
    intros t Ht. apply shell_value; lia.
  - apply connected_trans with (q := (0, j, k)).
    { apply (walk_down_i _ _ _ 1); auto; [lia|].
      intros t Ht. apply shell_value; lia. }
    apply connected_trans with (q := (0, 0, k)).
    { apply (walk_down_j _ _ _ 1); auto; [lia|].
      intros t Ht. apply shell_value; lia. }
    apply (walk_down_k _ _ _ 1); auto; [lia|].
    intros t Ht. apply shell_value; lia.
Qed.

End UniformLabels.


(** ** [segment_lung_mask] on a volume without air *)

Section FillSlice.

Import np ndimage measure preprocess.

Lemma set_where2_nowhere {A : Type} (mask : arr2 bool) (c : A) (a : arr2 A) :
  (forall j k, get2 mask j k <> Some true) -> set_where2 mask c a = a.
Proof.
  intros Hm. unfold set_where2.
  rewrite <- (mapi_id a) at 2. apply mapi_ext. intros j row _.
  rewrite <- (mapi_id row) at 2. apply mapi_ext. intros k x _.
  specialize (Hm j k). destruct (get2 mask j k) as [[|]|]; congruence.
Qed.

Lemma get2_repeat {A : Type} (c x : A) n2 n3 j k :
  get2 (repeat (repeat c n3) n2) j k = Some x -> x = c.
Proof.
  unfold get2. destruct (zth _ j) as [row|] eqn:Hrow; [|discriminate].
  apply zth_In, repeat_spec in Hrow. subst row.
  intros Hx. apply zth_In, repeat_spec in Hx. exact Hx.
Qed.

Variables n2 n3 : nat.

Hypothesis n2_positive : (0 < n2)%nat.
Hypothesis n3_positive : (0 < n3)%nat.

(** A slice that is 2 everywhere is one component, the largest: the fill
    leaves it alone. *)
Lemma fill_slice_full :
  fill_slice (repeat (repeat 2 n3) n2) = repeat (repeat 2 n3) n2.
Proof.
  unfold fill_slice, label2.
  replace (map2 (fun v => v - 1) (repeat (repeat 2 n3) n2))
    with (repeat (repeat 1 n3) n2)
    by (unfold map2; rewrite !map_repeat; reflexivity).
  change [repeat (repeat 1 n3) n2] with (full3 1 n2 n3 1).
  destruct (label_full3 1 n2 n3 1 0 2) as (l & Hl & ->); try lia.
  change (hd [] (full3 1 n2 n3 l)) with (repeat (repeat l n3) n2).
  destruct (largest_label_volume _ 0) as [l_max|] eqn:Hmax; [|reflexivity].
  apply largest_label_volume_member in Hmax. destruct Hmax as [Hin _].
  assert (Hlm : l_max = l).
  { unfold ravel2 in Hin. apply in_concat in Hin. destruct Hin as (row & Hrow & Hin).
    apply repeat_spec in Hrow. subst row. apply repeat_spec in Hin. exact Hin. }
  subst l_max. apply set_where2_nowhere. intros j k Hjk.
  unfold map2 in Hjk. rewrite !map_repeat in Hjk.
  apply get2_repeat in Hjk. rewrite Z.eqb_refl in Hjk. discriminate.
Qed.

End FillSlice.

Section AllTissue.

Import np ndimage measure preprocess.

Variables n1 n2 n3 : nat.
Variable image : arr3 Z.

Hypothesis n1_positive : (0 < n1)%nat.
Hypothesis n2_positive : (0 < n2)%nat.
Hypothesis n3_positive : (0 < n3)%nat.
Hypothesis image_rect : rect3 image n1 n2 n3.
Hypothesis image_tissue : Forall (fun v => -320 < v) (ravel3 image).

Let closed := closed_volume image.

Lemma closed_get i j k :
  0 <= i < Z.of_nat n1 -> 0 <= j < Z.of_nat n2 -> 0 <= k < Z.of_nat n3 ->
  get3 closed (i, j, k) = Some (if interior n1 n2 n3 (i, j, k) then 2 else 1).
Proof. apply closed_volume_all_tissue; assumption. Qed.

Lemma closed_rect : rect3 closed n1 n2 n3.
Proof. apply closed_volume_rect; assumption. Qed.

Lemma closed_corner : get3 closed (0, 0, 0) = Some 1.
Proof. rewrite closed_get by lia. reflexivity. Qed.

(** The label of the corner is the label of the whole shell, so marking the
    exterior turns the volume into 2 everywhere. *)
Lemma exterior_marked background_label :
  get3 (air_labels closed) (0, 0, 0) = Some background_label ->
  set_where (map3 (fun l => background_label =? l) (air_labels closed)) 2 closed
  = full3 n1 n2 n3 2.
Proof.
  intros H0. unfold set_where, air_labels in *.
  destruct (label_spec closed 0 1 n1 n2 n3 closed_rect) as (Hrect & _ & Hfg & Heq).
  apply mapi3_uniform; [exact closed_rect|].
  intros [[i j] k] x Hx.
  assert (Hb : 0 <= i < Z.of_nat n1 /\ 0 <= j < Z.of_nat n2 /\ 0 <= k < Z.of_nat n3)
    by (apply (get3_rect _ _ _ _ _ _ _ closed_rect); eauto).
  destruct Hb as (Hi & Hj & Hk).
  pose proof Hx as Hx'. rewrite closed_get in Hx' by assumption.
  destruct (interior n1 n2 n3 (i, j, k)) eqn:Hint.
  - inversion Hx'. destruct (get3 (map3 _ _) _) as [[|]|]; reflexivity.
  - inversion Hx' as [Hx1]. clear Hx'. rewrite <- Hx1 in Hx.
    assert (H1 : (1 : Z) <> 0) by discriminate.
    destruct (Hfg _ _ Hx H1) as (lp & Hlp & _).
    assert (E : lp = background_label).
    { apply (Heq _ _ _ _ _ _ Hx H1 closed_corner H1 Hlp H0).
      apply (shell_joined n1 n2 n3); auto. intros; apply closed_get; assumption. }
    rewrite get3_map3, Hlp. cbn [option_map]. subst lp.
    rewrite Z.eqb_refl. reflexivity.
Qed.

Lemma air_labels_corner :
  exists background_label, get3 (air_labels closed) (0, 0, 0) = Some background_label.
Proof.
  destruct (label_spec closed 0 1 n1 n2 n3 closed_rect) as (_ & _ & Hfg & _).
  assert (H1 : (1 : Z) <> 0) by discriminate.
  destruct (Hfg _ _ closed_corner H1) as (l & Hl & _). eauto.
Qed.

(** Nothing is left of a volume without air once the exterior is marked. *)
Lemma lung_region_all_tissue fill_lung_structures :
  lung_region closed (air_labels closed) fill_lung_structures
  = py.Ok (full3 n1 n2 n3 0).
Proof.
  unfold lung_region. destruct air_labels_corner as (l0 & Hl0).
  rewrite Hl0, (exterior_marked _ Hl0). f_equal.
  assert (Hfill : (if fill_lung_structures
                   then map fill_slice (full3 n1 n2 n3 2)
                   else full3 n1 n2 n3 2) = full3 n1 n2 n3 2).
  { destruct fill_lung_structures; [|reflexivity].
    unfold full3. rewrite map_repeat, fill_slice_full by assumption. reflexivity. }
  rewrite Hfill, !map3_full3. reflexivity.
Qed.

Lemma lung_candidate_all_tissue fill_lung_structures :
  lung_candidate image fill_lung_structures = py.Ok (full3 n1 n2 n3 0).
Proof.
  unfold lung_candidate. fold closed. rewrite lung_region_all_tissue.
  cbn [py.bind]. f_equal. unfold region_labels, keep_largest.
  rewrite label_background.
  rewrite largest_label_volume_background; [reflexivity|].
  intros x Hx. eapply In_ravel3_full3, Hx.
Qed.

Lemma segment_lung_mask_empty fill_lung_structures :
  segment_lung_mask image fill_lung_structures = py.Ok (full3 n1 n2 n3 false).
Proof.
  unfold segment_lung_mask. rewrite lung_candidate_all_tissue.
  cbn [py.bind]. f_equal. rewrite map3_full3.
  change (nonzero 0) with false. apply dilation_empty.
Qed.

End AllTissue.

Section AllTissueClaim.

Import np preprocess.

(** C4, as the claim states it, fails on a volume without voxels: no voxel
    is at or below the threshold, and [labels[0, 0, 0]] has nothing to read. *)
Lemma segment_lung_mask_needs_a_corner :
  Forall (fun v => -320 < v) (ravel3 []) /\
  segment_lung_mask [] true = py.Raise py.IndexError /\
  segment_lung_mask [] false = py.Raise py.IndexError.
Proof. split; [constructor|]. split; reflexivity. Qed.

(** C4, amended.  On a volume with at least one voxel (a rectangular array
    with no extent 0) in which every voxel is above the threshold of -320,
    [segment_lung_mask] raises nothing and returns the all-false mask of the
    shape of the volume, with either value of [fill_lung_structures]. *)
Theorem segment_lung_mask_all_tissue
    (image : arr3 Z) (n1 n2 n3 : nat) (fill_lung_structures : bool) :
  (0 < n1)%nat -> (0 < n2)%nat -> (0 < n3)%nat ->
  rect3 image n1 n2 n3 ->
  Forall (fun v => -320 < v) (ravel3 image) ->
  segment_lung_mask image fill_lung_structures = py.Ok (full3 n1 n2 n3 false).
Proof.
  intros H1 H2 H3 Hrect Htissue. apply segment_lung_mask_empty; assumption.
Qed.

(** The claim at a volume of two slices of 2x3 voxels of tissue and bone. *)
Lemma segment_lung_mask_all_tissue_witness :
  segment_lung_mask [[[40; -319; 0]; [1200; 35; 60]]; [[0; 0; 0]; [55; -100; 3000]]] true
  = py.Ok [[[false; false; false]; [false; false; false]];
           [[false; false; false]; [false; false; false]]].
Proof.
  apply (segment_lung_mask_all_tissue _ 2 2 3 true); try lia.
  - split; [reflexivity|]. repeat constructor.
  - simpl. repeat (constructor; [lia|]). constructor.
Defined.

End AllTissueClaim.


(** ** The labellings of [segment_lung_mask] *)

Section Shapes.

Import np ndimage measure preprocess.

Lemma rect2_mapi2 {A B : Type} (f : Z -> Z -> A -> B) (a : arr2 A) n2 n3 :
  rect2 a n2 n3 -> rect2 (mapi (fun j row => mapi (f j) row) a) n2 n3.
Proof.
  intros [Hlen Hrows]. split; [rewrite length_mapi; exact Hlen|].
  apply Forall_forall. intros row Hrow.
  apply In_mapi in Hrow. destruct Hrow as (j & r & Hj & ->).
  rewrite length_mapi. rewrite Forall_forall in Hrows.
  apply Hrows. eapply zth_In, Hj.
Qed.

Lemma fill_slice_rect axial n2 n3 :
  rect2 axial n2 n3 -> rect2 (fill_slice axial) n2 n3.
Proof.
  intros H. unfold fill_slice.
  destruct (largest_label_volume _ 0); [|exact H].
  unfold set_where2. apply rect2_mapi2, H.
Qed.

Lemma lung_region_rect binary_image labels fill_lung_structures candidate n1 n2 n3 :
  rect3 binary_image n1 n2 n3 ->
  lung_region binary_image labels fill_lung_structures = py.Ok candidate ->
  rect3 candidate n1 n2 n3.
Proof.
  intros Hrect. unfold lung_region.
  destruct (get3 labels (0, 0, 0)) as [l0|]; [|discriminate].
  intros H. inversion H. clear H.
  apply rect3_map3, rect3_map3.
  assert (Hs : rect3 (set_where (map3 (fun l => l0 =? l) labels) 2 binary_image) n1 n2 n3)
    by (apply rect3_mapi3, Hrect).
  destruct fill_lung_structures; [|exact Hs].
  destruct Hs as [Hlen Hplanes]. split; [rewrite length_map; exact Hlen|].
  apply Forall_map. eapply Forall_impl; [|exact Hplanes].
  intros plane. apply fill_slice_rect.
Qed.

Lemma closed_volume_shape image n1 n2 n3 :
  rect3 image n1 n2 n3 -> rect3 (closed_volume image) n1 n2 n3.
Proof.
  intros H. unfold closed_volume.
  apply rect3_map3, rect3_binary_closing, rect3_map3, rect3_map3, H.
Qed.

(** After the shift by one the closed volume holds no 0: [measure.label]
    sees no background in it. *)
Lemma closed_volume_values image p v :
  get3 (closed_volume image) p = Some v -> v = 1 \/ v = 2.
Proof.
  unfold closed_volume. rewrite get3_map3.
  destruct (get3 _ p) as [[|]|]; simpl; intros H; inversion H; auto.
Qed.

End Shapes.

Section SegmentLabellings.

Import np ndimage measure preprocess.

(** [labels] numbers the components of [input] for [connectivity = c], with
    0 as background: two voxels that are not background carry the same label
    exactly when a path joins them that moves between neighbours for [c] and
    stays on voxels of one value. *)
Definition labels_components (labels input : arr3 Z) (c : Z) : Prop :=
  forall p q vp vq lp lq,
    get3 input p = Some vp -> vp <> 0 ->
    get3 input q = Some vq -> vq <> 0 ->
    get3 labels p = Some lp -> get3 labels q = Some lq ->
    (lp = lq <-> joined input 0 c p q).

(** The volume of the counterexample: tissue with two 5x5x5 pockets of air
    that touch along an edge; no face of one lies on the other. *)
Definition in_pocket (corner p : pos) : bool :=
  let '(a, b, c) := corner in
  let '(i, j, k) := p in
  (a <=? i) && (i <? a + 5) && ((b <=? j) && (j <? b + 5)) && ((c <=? k) && (k <? c + 5)).

Definition two_pockets : arr3 Z :=
  mapi3 (fun p _ => if in_pocket (3, 3, 3) p || in_pocket (3, 8, 8) p then -1000 else 0)
        (full3 11 16 16 0).

(** What is left of it when the exterior has been marked: the two pockets. *)
Definition two_pockets_region : arr3 Z :=
  map3 (fun v => if v =? -1000 then 1 else 0) two_pockets.

Lemma two_pockets_region_rect : rect3 two_pockets_region 11 16 16.
Proof.
  unfold two_pockets_region, two_pockets.
  apply rect3_map3, rect3_mapi3, rect3_full3.
Qed.

(** C5, as stated, fails for the second labelling: the voxels (3,7,7) and
    (3,8,8) of the candidate region lie in different pockets, no path through
    faces joins them, and [measure.label(binary_image, background=0)] gives
    them the same label. *)
Lemma region_labels_join_across_edges :
  exists candidate,
    lung_region (closed_volume two_pockets) (air_labels (closed_volume two_pockets)) true
      = py.Ok candidate /\
    get3 candidate (3, 7, 7) = Some 1 /\
    get3 candidate (3, 8, 8) = Some 1 /\
    get3 (region_labels candidate) (3, 7, 7) = Some 1 /\
    get3 (region_labels candidate) (3, 8, 8) = Some 1 /\
    ~ joined candidate 0 1 (3, 7, 7) (3, 8, 8).
Proof.
  exists two_pockets_region.
  split; [vm_compute; reflexivity|].
  assert (Hp : get3 two_pockets_region (3, 7, 7) = Some 1) by (vm_compute; reflexivity).
  assert (Hq : get3 two_pockets_region (3, 8, 8) = Some 1) by (vm_compute; reflexivity).
  assert (Hfull : let labels := region_labels two_pockets_region in
                  get3 labels (3, 7, 7) = Some 1 /\ get3 labels (3, 8, 8) = Some 1)
    by (vm_compute; split; reflexivity).
  assert (Hface : let labels := label two_pockets_region 0 1 in
                  get3 labels (3, 7, 7) = Some 1 /\ get3 labels (3, 8, 8) = Some 2)
    by (vm_compute; split; reflexivity).
  cbv zeta in Hfull, Hface.
  destruct Hfull as [Hp3 Hq3]. destruct Hface as [Hp1 Hq1].
  split; [exact Hp|]. split; [exact Hq|].
  split; [exact Hp3|]. split; [exact Hq3|].
  intros Hj.
  destruct (label_spec two_pockets_region 0 1 11 16 16 two_pockets_region_rect)
    as (_ & _ & _ & Heq).
  assert (H1 : (1 : Z) <> 0) by discriminate.
  pose proof (proj2 (Heq (3, 7, 7) (3, 8, 8) 1 1 1 2 Hp H1 Hq H1 Hp1 Hq1) Hj) as E.
  discriminate E.
Qed.

(** C5, amended.  The labelling after the closing (line 188) numbers the
    components for 6-connectivity, and every voxel takes part since the
    volume holds only 1 and 2 then.  The labelling for the largest-component
    filter (line 224) numbers the components of the non-zero voxels for full
    connectivity: voxels that touch by a face, an edge or a corner are
    neighbours. *)
Theorem segment_lung_mask_labellings
    (image : arr3 Z) (n1 n2 n3 : nat) (fill_lung_structures : bool) :
  rect3 image n1 n2 n3 ->
  (neighbours 1 = [(-1, 0, 0); (0, -1, 0); (0, 0, -1); (0, 0, 1); (0, 1, 0); (1, 0, 0)] /\
   forall d, In d (neighbours 3) <-> In d (box (-1) 1) /\ d <> (0, 0, 0)) /\
  (forall p q lp lq,
     get3 (air_labels (closed_volume image)) p = Some lp ->
     get3 (air_labels (closed_volume image)) q = Some lq ->
     (lp = lq <-> joined (closed_volume image) 0 1 p q)) /\
  (forall candidate,
     lung_region (closed_volume image) (air_labels (closed_volume image))
                 fill_lung_structures = py.Ok candidate ->
     labels_components (region_labels candidate) candidate 3).
Proof.
  intros Hrect.
  pose proof (closed_volume_shape _ _ _ _ Hrect) as Hclosed.
  split; [split; [apply neighbours_faces|apply neighbours_full]|]. split.
  - destruct (label_spec (closed_volume image) 0 1 n1 n2 n3 Hclosed)
      as (Hlab & _ & _ & Heq).
    intros [[i j] k] [[i' j'] k'] lp lq Hp Hq. unfold air_labels in Hp, Hq.
    assert (Hvp : exists vp, get3 (closed_volume image) (i, j, k) = Some vp).
    { apply (get3_rect _ _ _ _ _ _ _ Hclosed).
      apply (get3_rect _ _ _ _ _ _ _ Hlab). eauto. }
    assert (Hvq : exists vq, get3 (closed_volume image) (i', j', k') = Some vq).
    { apply (get3_rect _ _ _ _ _ _ _ Hclosed).
      apply (get3_rect _ _ _ _ _ _ _ Hlab). eauto. }
    destruct Hvp as [vp Hvp], Hvq as [vq Hvq].
    apply (Heq _ _ vp vq); auto.
    + destruct (closed_volume_values _ _ _ Hvp); lia.
    + destruct (closed_volume_values _ _ _ Hvq); lia.
  - intros candidate Hc.
    pose proof (lung_region_rect _ _ _ _ _ _ _ Hclosed Hc) as Hcand.
    destruct (label_spec candidate 0 3 n1 n2 n3 Hcand) as (_ & _ & _ & Heq).
    exact Heq.
Qed.

Lemma segment_lung_mask_labellings_witness :
  rect3 two_pockets 11 16 16 /\
  ((neighbours 1 = [(-1, 0, 0); (0, -1, 0); (0, 0, -1); (0, 0, 1); (0, 1, 0); (1, 0, 0)] /\
    forall d, In d (neighbours 3) <-> In d (box (-1) 1) /\ d <> (0, 0, 0)) /\
   (forall p q lp lq,
      get3 (air_labels (closed_volume two_pockets)) p = Some lp ->
      get3 (air_labels (closed_volume two_pockets)) q = Some lq ->
      (lp = lq <-> joined (closed_volume two_pockets) 0 1 p q)) /\
   (forall candidate,
      lung_region (closed_volume two_pockets) (air_labels (closed_volume two_pockets))
                  true = py.Ok candidate ->
      labels_components (region_labels candidate) candidate 3)).
Proof.
  assert (H : rect3 two_pockets 11 16 16)
    by (apply rect3_mapi3, rect3_full3).
  split; [exact H|]. apply (segment_lung_mask_labellings _ 11 16 16 true H).
Defined.

End SegmentLabellings.


(** ** Integers in binary64

    An integer below [2^53] in magnitude is a binary64 value: converting it
    with [astype(np.float64)] and truncating the result gives it back. *)

Section IntegersInBinary64.

Import np.

Lemma digits2_pos_log2 p :
  Z.pos (SpecFloat.digits2_pos p) = Z.log2 (Z.pos p) + 1.
Proof.
  induction p as [p IH|p IH|]; simpl SpecFloat.digits2_pos.
  - rewrite Pos2Z.inj_succ, IH. change (Z.pos p~1) with (2 * Z.pos p + 1).
    rewrite Z.log2_succ_double by lia. lia.
  - rewrite Pos2Z.inj_succ, IH. change (Z.pos p~0) with (2 * Z.pos p).
    rewrite Z.log2_double by lia. lia.
  - reflexivity.
Qed.

Lemma digits2_pos_shift p k :
  SpecFloat.digits2_pos (Pos.iter xO p k) = (SpecFloat.digits2_pos p + k)%positive.
Proof.
  induction k as [|k IH] using Pos.peano_ind.
  - simpl. lia.
  - rewrite Pos.iter_succ. simpl SpecFloat.digits2_pos. rewrite IH. lia.
Qed.

Lemma shift_value p k : Z.pos (Pos.iter xO p k) = Z.pos p * 2 ^ Z.pos k.
Proof.
  change (Pos.iter xO p k) with (shift_pos k p).
  rewrite shift_pos_correct, Z.pow_pos_fold. apply Z.mul_comm.
Qed.

(** A mantissa of 53 bits with a small exponent is left as it is. *)
Lemma binary_round_aux_canonical s m e :
  SpecFloat.digits2_pos m = 53%positive -> -52 <= e <= 0 ->
  SpecFloat.binary_round_aux prec emax s (Z.pos m) e SpecFloat.loc_Exact
  = SpecFloat.S754_finite s m e.
Proof.
  intros Hd He.
  assert (Hshift : SpecFloat.fexp prec emax (Z.pos (SpecFloat.digits2_pos m) + e) - e = 0).
  { rewrite Hd. unfold SpecFloat.fexp, SpecFloat.emin, prec, emax. lia. }
  unfold SpecFloat.binary_round_aux, SpecFloat.shr_fexp.
  cbn [SpecFloat.Zdigits2 SpecFloat.shr_record_of_loc]. rewrite Hshift.
  cbn [SpecFloat.shr SpecFloat.shr_m SpecFloat.loc_of_shr_record
       SpecFloat.round_nearest_even SpecFloat.Zdigits2 SpecFloat.shr_record_of_loc].
  rewrite Hshift. cbn [SpecFloat.shr SpecFloat.shr_m].
  replace (e <=? emax - prec) with true; [reflexivity|].
  symmetry. apply Z.leb_le. unfold emax, prec. lia.
Qed.

(** The binary64 form of a positive integer of at most 53 bits: the integer,
    shifted to a mantissa of 53 bits. *)
Lemma binary_round_integer s p :
  Z.pos p < 2 ^ 53 ->
  exists m e,
    SpecFloat.binary_round prec emax s p 0 = SpecFloat.S754_finite s m e /\
    -52 <= e <= 0 /\ Z.pos m = Z.pos p * 2 ^ (- e).
Proof.
  intros Hp.
  assert (Hd : 1 <= Z.pos (SpecFloat.digits2_pos p) <= 53).
  { rewrite digits2_pos_log2.
    assert (Z.log2 (Z.pos p) < 53) by (apply Z.log2_lt_pow2; lia).
    pose proof (Z.log2_nonneg (Z.pos p)). lia. }
  unfold SpecFloat.binary_round, SpecFloat.shl_align.
  assert (Hf : SpecFloat.fexp prec emax (Z.pos (SpecFloat.digits2_pos p) + 0)
               = Z.pos (SpecFloat.digits2_pos p) - 53).
  { unfold SpecFloat.fexp, SpecFloat.emin, prec, emax. lia. }
  rewrite Hf.
  destruct (Z.pos (SpecFloat.digits2_pos p) - 53 - 0) as [|k|k] eqn:Hk; [|lia|].
  - exists p, 0. split; [|split; [lia|]].
    + apply binary_round_aux_canonical; lia.
    + simpl. lia.
  - exists (Pos.iter xO p k), (Z.pos (SpecFloat.digits2_pos p) - 53).
    split; [|split; [lia|]].
    + apply binary_round_aux_canonical; [|lia].
      rewrite digits2_pos_shift. lia.
    + rewrite shift_value. do 2 f_equal. lia.
Qed.

Lemma trunc_finite x s m e v :
  Prim2SF x = SpecFloat.S754_finite s m e ->
  -52 <= e <= 0 -> Z.pos m = v * 2 ^ (- e) ->
  trunc x = if s then - v else v.
Proof.
  intros Hx He Hm. unfold trunc. rewrite Hx.
  assert (Hmag : (if 0 <=? e then Z.pos m * 2 ^ e else Z.pos m / 2 ^ (- e)) = v).
  { destruct (0 <=? e) eqn:H0.
    - apply Z.leb_le in H0. assert (e = 0) by lia. subst e.
      simpl in Hm. simpl. lia.
    - rewrite Hm. apply Z.div_mul, Z.pow_nonzero; lia. }
  rewrite Hmag. reflexivity.
Qed.

Lemma of_Z_small p : Z.pos p < 2 ^ 53 -> Uint63.to_Z (Uint63.of_Z (Z.pos p)) = Z.pos p.
Proof.
  intros Hp. rewrite Uint63.of_Z_spec. apply Z.mod_small.
  split; [lia|]. eapply Z.lt_trans; [exact Hp|]. reflexivity.
Qed.

(** [astype(np.float64)] followed by the truncation is the identity on the
    integers that binary64 holds exactly. *)
Lemma trunc_to_float64 v : Z.abs v < 2 ^ 53 -> trunc (to_float64 v) = v.
Proof.
  intros Hv. destruct v as [|p|p]; [reflexivity| |].
  - unfold to_float64.
    destruct (binary_round_integer false p Hv) as (m & e & Hr & He & Hm).
    apply (trunc_finite _ false m e (Z.pos p)); [|exact He|exact Hm].
    rewrite of_uint63_spec, of_Z_small by exact Hv. exact Hr.
  - unfold to_float64. change (Z.abs (Z.neg p)) with (Z.pos p) in Hv.
    destruct (binary_round_integer false p Hv) as (m & e & Hr & He & Hm).
    change (Z.neg p) with (- Z.pos p).
    apply (trunc_finite _ true m e (Z.pos p)); [|exact He|exact Hm].
    rewrite opp_spec, of_uint63_spec, of_Z_small by exact Hv.
    unfold SpecFloat.binary_normalize. rewrite Hr. reflexivity.
Qed.

End IntegersInBinary64.


(** ** The shape of the mask *)

Section MaskShape.

Import np ndimage measure preprocess.

Lemma keep_largest_rect binary_image labels n1 n2 n3 :
  rect3 binary_image n1 n2 n3 -> rect3 (keep_largest binary_image labels) n1 n2 n3.
Proof.
  intros H. unfold keep_largest.
  destruct (largest_label_volume _ 0); [|exact H].
  unfold set_where. apply rect3_mapi3, H.
Qed.

(** On a volume with at least one voxel [segment_lung_mask] raises nothing,
    and the mask it returns has the shape of the volume. *)
Theorem segment_lung_mask_shape
    (image : arr3 Z) (n1 n2 n3 : nat) (fill_lung_structures : bool) :
  (0 < n1)%nat -> (0 < n2)%nat -> (0 < n3)%nat ->
  rect3 image n1 n2 n3 ->
  exists mask,
    segment_lung_mask image fill_lung_structures = py.Ok mask /\
    rect3 mask n1 n2 n3.
Proof.
  intros H1 H2 H3 Hrect.
  pose proof (closed_volume_shape _ _ _ _ Hrect) as Hclosed.
  destruct (label_spec (closed_volume image) 0 1 n1 n2 n3 Hclosed) as (Hlab & _).
  assert (H0 : exists l0, get3 (air_labels (closed_volume image)) (0, 0, 0) = Some l0)
    by (apply (get3_rect _ _ _ _ _ _ _ Hlab); lia).
  destruct H0 as [l0 Hl0].
  destruct (lung_region (closed_volume image) (air_labels (closed_volume image))
              fill_lung_structures) as [region|e] eqn:Hregion.
  - pose proof (lung_region_rect _ _ _ _ _ _ _ Hclosed Hregion) as Hr.
    unfold segment_lung_mask, lung_candidate. rewrite Hregion. cbn [py.bind].
    eexists. split; [reflexivity|].
    unfold binary_dilation. apply rect3_mapi3, rect3_map3, keep_largest_rect, Hr.
  - unfold lung_region in Hregion. rewrite Hl0 in Hregion. discriminate.
Qed.

Lemma segment_lung_mask_shape_witness :
  exists mask,
    segment_lung_mask [[[-1000; 30]; [0; -400]]] true = py.Ok mask /\
    rect3 mask 1 2 2.
Proof.
  apply (segment_lung_mask_shape _ 1 2 2 true); try lia.
  split; [reflexivity|]. repeat constructor.
Defined.

End MaskShape.


(** ** The largest-component filter *)

Section KeepLargest.

Import np ndimage measure preprocess.

Lemma largest_label_volume_none im bg :
  largest_label_volume im bg = None -> forall x, In x im -> x = bg.
Proof.
  rewrite largest_label_volume_table.
  destruct (foreground_table im bg) as [|x r] eqn:Ht; [|discriminate].
  intros _. apply Forall_forall, foreground_table_nil, Ht.
Qed.

Lemma get3_set_where {A : Type} (mask : arr3 bool) (c : A) (a : arr3 A) p :
  get3 (set_where mask c a) p
  = option_map (fun x => match get3 mask p with Some true => c | _ => x end) (get3 a p).
Proof. unfold set_where. apply get3_mapi3. Qed.

Variable binary_image : arr3 Z.
Variables n1 n2 n3 : nat.

Hypothesis binary_image_rect : rect3 binary_image n1 n2 n3.

Let labels := region_labels binary_image.
Let kept := keep_largest binary_image labels.

(** A voxel the filter leaves non-zero kept its value, and carries the label
    that was selected. *)
Lemma kept_voxel p v :
  get3 kept p = Some v -> v <> 0 ->
  get3 binary_image p = Some v /\
  exists l_max, largest_label_volume (ravel3 labels) 0 = Some l_max /\
                get3 labels p = Some l_max.
Proof.
  unfold kept, keep_largest. intros Hv Hnz.
  destruct (label_spec binary_image 0 3 n1 n2 n3 binary_image_rect)
    as (Hrect & Hbg & Hfg & _).
  fold (region_labels binary_image) in Hrect, Hbg, Hfg. fold labels in Hrect, Hbg, Hfg.
  destruct (largest_label_volume (ravel3 labels) 0) as [l_max|] eqn:Hmax.
  - rewrite get3_set_where, get3_map3 in Hv.
    destruct (get3 binary_image p) as [x|] eqn:Hx; [|discriminate].
    cbn [option_map] in Hv.
    destruct (get3 labels p) as [l|] eqn:Hl.
    + cbn [option_map] in Hv. destruct (l =? l_max) eqn:E.
      * apply Z.eqb_eq in E. subst l. cbn [negb] in Hv. split; [exact Hv|eauto].
      * cbn [negb] in Hv. congruence.
    + exfalso. destruct p as [[i j] k].
      assert (Hin : exists l, get3 labels (i, j, k) = Some l).
      { apply (get3_rect _ _ _ _ _ _ _ Hrect).
        apply (get3_rect _ _ _ _ _ _ _ binary_image_rect). eauto. }
      destruct Hin as [l Hl']. congruence.
  - exfalso. destruct (Hfg _ _ Hv Hnz) as (l & Hl & Hpos).
    assert (l = 0); [|lia].
    apply (largest_label_volume_none _ _ Hmax). apply In_ravel3. eauto.
Qed.

Lemma kept_label p v l_max :
  largest_label_volume (ravel3 labels) 0 = Some l_max ->
  get3 binary_image p = Some v -> get3 labels p = Some l_max ->
  get3 kept p = Some v.
Proof.
  intros Hmax Hv Hl. unfold kept, keep_largest. rewrite Hmax.
  rewrite get3_set_where, get3_map3, Hv, Hl. cbn [option_map].
  rewrite Z.eqb_refl. reflexivity.
Qed.

(** A path of the volume that starts in the selected component is still there
    after the filter. *)
Lemma kept_path p q vp l_max :
  largest_label_volume (ravel3 labels) 0 = Some l_max ->
  get3 binary_image p = Some vp -> vp <> 0 ->
  get3 labels p = Some l_max ->
  joined binary_image 0 3 p q -> joined kept 0 3 p q.
Proof.
  intros Hmax Hp Hnz Hlp. unfold joined.
  destruct (label_spec binary_image 0 3 n1 n2 n3 binary_image_rect)
    as (Hrect & _ & Hfg & Heq).
  fold (region_labels binary_image) in Hrect, Hfg, Heq. fold labels in Hrect, Hfg, Heq.
  assert (Hsame : forall r, joined binary_image 0 3 p r -> get3 labels r = Some l_max).
  { intros r Hr.
    pose proof (connected_value _ _ _ _ _ _ Hr Hp) as Hvr.
    destruct (Hfg _ _ Hvr Hnz) as (lr & Hlr & _).
    rewrite Hlr. f_equal. symmetry.
    apply (Heq p r vp vp l_max lr); assumption. }
  induction 1 as [|q r Hpq IH Hqr]; [apply connected_here|].
  eapply connected_step; [exact IH|].
  pose proof (connected_value _ _ _ _ _ _ Hpq Hp) as Hvq.
  destruct Hqr as (d & v & Hd & Hr & Hq1 & Hr1 & Hv).
  exists d, v. split; [exact Hd|]. split; [exact Hr|].
  assert (Hjr : joined binary_image 0 3 p r).
  { eapply connected_step; [exact Hpq|]. exists d, v. auto. }
  split; [|split; [|exact Hv]].
  - apply (kept_label _ _ l_max); auto.
  - apply (kept_label _ _ l_max); auto.
Qed.

(** What the filter leaves is one component for full connectivity. *)
Lemma keep_largest_connected p q vp vq :
  get3 kept p = Some vp -> vp <> 0 ->
  get3 kept q = Some vq -> vq <> 0 ->
  joined kept 0 3 p q.
Proof.
  intros Hp Hvp Hq Hvq.
  destruct (kept_voxel _ _ Hp Hvp) as (Hbp & l & Hmax & Hlp).
  destruct (kept_voxel _ _ Hq Hvq) as (Hbq & l' & Hmax' & Hlq).
  assert (l' = l) by congruence. subst l'.
  destruct (label_spec binary_image 0 3 n1 n2 n3 binary_image_rect)
    as (_ & _ & _ & Heq).
  apply (kept_path p q vp l); auto.
  apply (Heq p q vp vq l l); auto.
Qed.

End KeepLargest.

Section CandidateClaim.

Import np ndimage measure preprocess.

(** Whenever [segment_lung_mask] gets as far as the dilation, the region it
    dilates is connected: any two of its non-zero voxels are joined by a path
    of non-zero voxels that moves between voxels touching by a face, an edge
    or a corner. *)
Theorem lung_candidate_connected
    (image : arr3 Z) (n1 n2 n3 : nat) (fill_lung_structures : bool)
    (candidate : arr3 Z) (p q : pos) (vp vq : Z) :
  rect3 image n1 n2 n3 ->
  lung_candidate image fill_lung_structures = py.Ok candidate ->
  get3 candidate p = Some vp -> vp <> 0 ->
  get3 candidate q = Some vq -> vq <> 0 ->
  joined candidate 0 3 p q.
Proof.
  intros Hrect Hc Hp Hvp Hq Hvq. unfold lung_candidate in Hc.
  apply bind_ok_inv in Hc. destruct Hc as (region & Hregion & Hc).
  inversion Hc. subst candidate. clear Hc.
  pose proof (lung_region_rect _ _ _ _ _ _ _ (closed_volume_shape _ _ _ _ Hrect) Hregion)
    as Hr.
  eapply (keep_largest_connected region n1 n2 n3 Hr); eauto.
Qed.

(** A volume of tissue with one 5x5x5 pocket of air, and the pocket. *)
Definition one_pocket : arr3 Z :=
  mapi3 (fun p _ => if in_pocket (3, 3, 3) p then -1000 else 0) (full3 11 11 11 0).

Definition one_pocket_region : arr3 Z :=
  map3 (fun v => if v =? -1000 then 1 else 0) one_pocket.

Lemma lung_candidate_connected_witness :
  joined one_pocket_region 0 3 (3, 3, 3) (7, 7, 7).
Proof.
  apply (lung_candidate_connected one_pocket 11 11 11 true one_pocket_region
           (3, 3, 3) (7, 7, 7) 1 1).
  - apply rect3_mapi3, rect3_full3.
  - vm_compute. reflexivity.
  - vm_compute. reflexivity.
  - discriminate.
  - vm_compute. reflexivity.
  - discriminate.
Defined.

End CandidateClaim.


(** ** The shape of a zoomed volume *)

Section SplineInvariant.

Import np ndimage.

Context {V : Type} `{Vec V}.

(** A property of samples that sums and multiples keep (the length of a row,
    the shape of a plane) holds of every interpolated sample. *)
Variable P : V -> Prop.

Hypothesis P_add : forall a b, P a -> P b -> P (vadd a b).
Hypothesis P_scale : forall q a, P a -> P (vscale q a).

Lemma vsub_keeps a b : P a -> P b -> P (vsub a b).
Proof. intros Ha Hb. unfold vsub. apply P_add; [exact Ha|apply P_scale, Hb]. Qed.

Lemma sweep_keeps f : forall up dp,
  Forall P f -> P dp -> Forall (fun row : Q * V => P (snd row)) (sweep f up dp).
Proof.
  induction f as [|x r IH]; intros up dp Hf Hdp; simpl; [constructor|].
  inversion Hf as [|? ? Hx Hr]; subst.
  assert (Hd : P (vscale (1 / Qred ((4 # 1) - match r with [] => 2 # 1 | _ :: _ => 1 # 1 end * up))
                   (vsub (vscale (6 # 1) x)
                         (vscale match r with [] => 2 # 1 | _ :: _ => 1 # 1 end dp))))
    by (apply P_scale, vsub_keeps; apply P_scale; assumption).
  constructor; [exact Hd|]. apply IH; assumption.
Qed.

Lemma back_substitute_keeps rows :
  Forall (fun row : Q * V => P (snd row)) rows -> Forall P (back_substitute rows).
Proof.
  induction rows as [|[u d] rest IH]; intros Hrows; [constructor|].
  inversion Hrows as [|? ? Hd Hrest]; subst. simpl in Hd.
  specialize (IH Hrest). simpl.
  destruct rest as [|row rest']; [repeat constructor; exact Hd|].
  destruct (back_substitute (row :: rest')) as [|c cs]; [repeat constructor; exact Hd|].
  inversion IH as [|? ? Hc Hcs]; subst.
  constructor; [|exact IH]. apply vsub_keeps; [exact Hd|apply P_scale, Hc].
Qed.

Lemma spline_coefficients_keeps f :
  Forall P f -> Forall P (spline_coefficients f).
Proof.
  intros Hf. unfold spline_coefficients.
  destruct f as [|x [|y r]]; [constructor|exact Hf|].
  inversion Hf as [|? ? Hx Hr]; subst.
  apply back_substitute_keeps. constructor; [apply P_scale, Hx|].
  apply sweep_keeps; [exact Hr|apply P_scale, Hx].
Qed.

Lemma nth_keeps (c : list V) zero n : Forall P c -> P zero -> P (nth n c zero).
Proof.
  intros Hc Hz. destruct (nth_in_or_default n c zero) as [Hin|E]; [|rewrite E; exact Hz].
  rewrite Forall_forall in Hc. apply Hc, Hin.
Qed.

Lemma spline_at_keeps c zero x : Forall P c -> P zero -> P (spline_at c zero x).
Proof.
  intros Hc Hz. unfold spline_at.
  repeat apply P_add; apply P_scale, nth_keeps; assumption.
Qed.

Lemma zoom_line_keeps npad m f : Forall P f -> Forall P (zoom_line npad m f).
Proof.
  intros Hf. unfold zoom_line. destruct f as [|f0 r]; [constructor|].
  inversion Hf as [|? ? H0 Hr]; subst.
  apply Forall_forall. intros y Hy. apply in_map_iff in Hy.
  destruct Hy as (o & <- & _).
  apply spline_at_keeps; [|exact H0].
  apply spline_coefficients_keeps.
  apply Forall_app. split; [apply Forall_forall; intros z Hz; apply repeat_spec in Hz; subst; exact H0|].
  apply Forall_app. split; [exact Hf|].
  apply Forall_forall. intros z Hz. apply repeat_spec in Hz. subst z.
  rewrite Forall_forall in Hf. apply Hf.
  destruct (exists_last (l := f0 :: r)) as (l' & a & E); [discriminate|].
  rewrite E, last_last. apply in_or_app. right. left. reflexivity.
Qed.

(** A line with samples is resampled to [m] samples; a line without samples
    stays without. *)
Lemma zoom_line_length npad m (f : list V) :
  length (zoom_line npad m f) = match f with [] => 0%nat | _ :: _ => Z.to_nat m end.
Proof.
  unfold zoom_line. destruct f as [|f0 r]; [reflexivity|].
  rewrite length_map, length_seq. reflexivity.
Qed.

End SplineInvariant.

Section ZoomShape.

Import np ndimage.

Lemma length_zip_with {A : Type} (f : A -> A -> A) (a : list A) : forall b,
  length (zip_with f a b) = Nat.min (length a) (length b).
Proof.
  induction a as [|x a IH]; intros [|y b]; simpl; try reflexivity.
  rewrite IH. reflexivity.
Qed.

Lemma Forall_zip_with {A : Type} (P : A -> Prop) (f : A -> A -> A) (a : list A) :
  (forall x y, P x -> P y -> P (f x y)) ->
  forall b, Forall P a -> Forall P b -> Forall P (zip_with f a b).
Proof.
  intros Hf. induction a as [|x a IH]; intros [|y b] Ha Hb; simpl; try constructor.
  - inversion Ha; inversion Hb; subst. apply Hf; assumption.
  - inversion Ha; inversion Hb; subst. apply IH; assumption.
Qed.

(** Rows of one length, planes of one shape: sums and multiples keep them. *)
Lemma row_add k (a b : list Q) :
  length a = k -> length b = k -> length (vadd a b) = k.
Proof.
  intros Ha Hb. simpl. rewrite length_zip_with, Ha, Hb. apply Nat.min_id.
Qed.

Lemma row_scale k q (a : list Q) : length a = k -> length (vscale q a) = k.
Proof. intros Ha. simpl. rewrite length_map. exact Ha. Qed.

Lemma plane_add k2 k3 (a b : list (list Q)) :
  rect2 a k2 k3 -> rect2 b k2 k3 -> rect2 (vadd a b) k2 k3.
Proof.
  intros [Ha Hra] [Hb Hrb]. split.
  - simpl. rewrite length_zip_with, Ha, Hb. apply Nat.min_id.
  - simpl. apply Forall_zip_with; [|exact Hra|exact Hrb].
    intros x y Hx Hy. apply (row_add k3 x y Hx Hy).
Qed.

Lemma plane_scale k2 k3 q (a : list (list Q)) :
  rect2 a k2 k3 -> rect2 (vscale q a) k2 k3.
Proof.
  intros [Ha Hra]. split.
  - simpl. rewrite length_map. exact Ha.
  - simpl. apply Forall_map. eapply Forall_impl; [|exact Hra].
    intros x Hx. apply (row_scale k3 q x Hx).
Qed.

(** The extent of an axis after the zoom: [m] samples, none if there was
    none. *)
Definition zoomed_extent (n : nat) (m : Z) : nat :=
  match n with O => O | S _ => Z.to_nat m end.

Lemma zoom_line_extent {V : Type} `{Vec V} npad m (f : list V) n :
  length f = n -> length (zoom_line npad m f) = zoomed_extent n m.
Proof.
  intros Hn. rewrite zoom_line_length. subst n. destruct f; reflexivity.
Qed.

(** The three passes of [zoom], one per axis, on a rectangular volume. *)
Lemma zoom_passes_rect npad m1 m2 m3 (a : arr3 Q) n1 n2 n3 :
  rect3 a n1 n2 n3 ->
  rect3 (zoom_line npad m1 (map (zoom_line npad m2) (map (map (zoom_line npad m3)) a)))
        (zoomed_extent n1 m1) (zoomed_extent n2 m2) (zoomed_extent n3 m3).
Proof.
  intros [Hlen Hplanes].
  set (k2 := zoomed_extent n2 m2). set (k3 := zoomed_extent n3 m3).
  assert (H2 : Forall (fun plane => rect2 plane k2 k3)
                 (map (zoom_line npad m2) (map (map (zoom_line npad m3)) a))).
  { rewrite map_map. apply Forall_map. eapply Forall_impl; [|exact Hplanes].
    intros plane [Hl2 Hrows]. split.
    - apply zoom_line_extent. rewrite length_map. exact Hl2.
    - apply (zoom_line_keeps (fun row : list Q => length row = k3)).
      + intros x y. apply row_add.
      + intros q x. apply row_scale.
      + apply Forall_map. eapply Forall_impl; [|exact Hrows].
        intros row Hrow. apply zoom_line_extent, Hrow. }
  split.
  - apply zoom_line_extent. rewrite !length_map. exact Hlen.
  - apply (zoom_line_keeps (fun plane : list (list Q) => rect2 plane k2 k3)).
    + intros x y. apply plane_add.
    + intros q x. apply plane_scale.
    + exact H2.
Qed.

(** [zoom] returns a volume of the extents it computed. *)
Lemma zoom_with_rect npad input z out n1 n2 n3 :
  rect3 input n1 n2 n3 ->
  zoom_with npad input z = py.Ok out ->
  let '(s1, s2, s3) := shape3 input in
  let '(z1, z2, z3) := z in
  exists m1 m2 m3,
    int_round (xmul (x_of_Z s1) z1) = py.Ok m1 /\
    int_round (xmul (x_of_Z s2) z2) = py.Ok m2 /\
    int_round (xmul (x_of_Z s3) z3) = py.Ok m3 /\
    0 <= m1 /\ 0 <= m2 /\ 0 <= m3 /\
    rect3 out (zoomed_extent n1 m1) (zoomed_extent n2 m2) (zoomed_extent n3 m3).
Proof.
  intros Hrect. unfold zoom_with.
  destruct (shape3 input) as [[s1 s2] s3]. destruct z as [[z1 z2] z3].
  intros H.
  apply bind_ok_inv in H. destruct H as (m1 & H1 & H).
  apply bind_ok_inv in H. destruct H as (m2 & H2 & H).
  apply bind_ok_inv in H. destruct H as (m3 & H3 & H).
  destruct ((m1 <? 0) || (m2 <? 0) || (m3 <? 0)) eqn:Hneg; [discriminate|].
  apply orb_false_iff in Hneg. destruct Hneg as [Hneg Hn3].
  apply orb_false_iff in Hneg. destruct Hneg as [Hn1 Hn2].
  apply Z.ltb_ge in Hn1, Hn2, Hn3.
  exists m1, m2, m3. repeat (split; [assumption|]).
  inversion H. apply rect3_map3, zoom_passes_rect, rect3_map3, Hrect.
Qed.

End ZoomShape.


(** ** The shape of a resampled volume *)

Section ResampleShape.

Import np ndimage preprocess.








End ResampleShape.


(** ** [get_pixels_hu]: shapes, and the usual rescale parameters *)

Section GetPixelsHuShape.

Import np preprocess.

Lemma shape2_rect {A : Type} (a : arr2 A) n2 n3 :
  rect2 a n2 n3 -> shape2 a = (n2, match n2 with O => O | S _ => n3 end).
Proof.
  intros [Hlen Hrows]. unfold shape2. rewrite Hlen. f_equal.
  destruct a as [|row a]; simpl in Hlen; subst n2; [reflexivity|].
  inversion Hrows; subst. reflexivity.
Qed.

Lemma rect2_map2 {A B : Type} (f : A -> B) (a : arr2 A) n2 n3 :
  rect2 a n2 n3 -> rect2 (map2 f a) n2 n3.
Proof.
  intros [Hlen Hrows]. split; [unfold map2; rewrite length_map; exact Hlen|].
  unfold map2. apply Forall_map. eapply Forall_impl; [|exact Hrows].
  intros row Hrow. rewrite length_map. exact Hrow.
Qed.

Lemma stack_same_shape {A : Type} (arrays : list (arr2 A)) n2 n3 :
  arrays <> [] -> Forall (fun a => rect2 a n2 n3) arrays ->
  stack arrays = py.Ok arrays.
Proof.
  intros Hne Hall. unfold stack. destruct arrays as [|a r]; [congruence|].
  inversion Hall as [|? ? Ha Hr]; subst.
  replace (forallb (same_shape2 a) r) with true; [reflexivity|].
  symmetry. apply forallb_forall. intros b Hb.
  rewrite Forall_forall in Hr. specialize (Hr b Hb).
  unfold same_shape2. rewrite (shape2_rect _ _ _ Ha), (shape2_rect _ _ _ Hr).
  rewrite !Nat.eqb_refl. reflexivity.
Qed.

(** On a series that is not empty, of slices of one size, [get_pixels_hu]
    raises nothing: it returns a volume with one plane per slice, each of the
    size of the slices, and every voxel of it is an [int16] value. *)
Theorem get_pixels_hu_shape (slices : list dicom) (n2 n3 : nat) :
  slices <> [] ->
  Forall (fun s => rect2 (pixel_array s) n2 n3) slices ->
  exists image,
    get_pixels_hu slices = py.Ok image /\
    rect3 image (length slices) n2 n3 /\
    Forall (fun x => -32768 <= x <= 32767) (ravel3 image).
Proof.
  intros Hne Hall. rewrite get_pixels_hu_closed.
  rewrite (stack_same_shape _ n2 n3).
  - cbn [py.bind]. eexists. split; [reflexivity|]. split.
    + split; [apply length_map|]. apply Forall_map.
      eapply Forall_impl; [|exact Hall]. intros s Hs. apply rect2_map2, Hs.
    + apply Forall_forall. intros x Hx. unfold ravel3 in Hx.
      apply in_concat in Hx. destruct Hx as (row & Hrow & Hx).
      apply in_concat in Hrow. destruct Hrow as (plane & Hplane & Hrow).
      apply in_map_iff in Hplane. destruct Hplane as (s & <- & _).
      unfold map2 in Hrow. apply in_map_iff in Hrow. destruct Hrow as (r & <- & _).
      apply in_map_iff in Hx. destruct Hx as (v & <- & _).
      unfold hu_voxel. apply int16_range.
  - destruct slices; [congruence|discriminate].
  - apply Forall_map. exact Hall.
Qed.

Lemma get_pixels_hu_shape_witness :
  exists image,
    get_pixels_hu (one_voxel_scan 3 0.5%float 0.5%float) = py.Ok image /\
    rect3 image (length (one_voxel_scan 3 0.5%float 0.5%float)) 1 1 /\
    Forall (fun x => -32768 <= x <= 32767) (ravel3 image).
Proof.
  apply (get_pixels_hu_shape (one_voxel_scan 3 0.5%float 0.5%float) 1 1).
  - discriminate.
  - repeat constructor.
Defined.

End GetPixelsHuShape.

Section UnitSlope.

Import np preprocess.

(** Checked on each of the 65536 values of [int16]: the multiplication by
    1.0 leaves the binary64 form of the value as it is. *)
Lemma int16_times_one :
  forall_from (Z.to_nat 65536) (-32768)
    (fun v => PrimFloat.Leibniz.eqb (PrimFloat.mul 1%float (to_float64 v))
                                    (to_float64 v)) = true.
Proof. vm_compute. reflexivity. Qed.

Lemma int16_float64_exact v :
  -32768 <= v <= 32767 ->
  float_to_int16 (PrimFloat.mul 1%float (to_float64 v)) = v /\
  float_to_int16 (to_float64 v) = v.
Proof.
  intros Hv.
  pose proof (forall_from_spec _ _ _ int16_times_one v) as H.
  cbv beta in H. rewrite FloatAxioms.Leibniz.eqb_spec in H.
  unfold float_to_int16. rewrite H by lia.
  rewrite trunc_to_float64 by (change (2 ^ 53) with 9007199254740992; lia).
  split; apply int16_small, Hv.
Qed.

(** With the usual rescale parameters of CT, a slope of 1 and an intercept
    that is a whole number, the conversion is exact: a stored value [v]
    becomes [v + intercept] whenever that sum is an [int16] value. *)
Theorem get_pixels_hu_unit_slope slices image i j k s v b :
  get_pixels_hu slices = py.Ok image ->
  zth slices i = Some s ->
  get2 (pixel_array s) j k = Some v ->
  RescaleSlope s = 1%float ->
  RescaleIntercept s = to_float64 b ->
  -32768 <= v <= 32767 ->
  -32768 <= b <= 32767 ->
  -32768 <= v + b <= 32767 ->
  get3 image (i, j, k) = Some (v + b).
Proof.
  intros Himg Hs Hget Hslope Hint Hv Hb Hsum.
  rewrite (get_pixels_hu_voxel_at _ _ _ _ _ _ _ Himg Hs Hget).
  f_equal. unfold hu_voxel. rewrite Hslope, Hint, (int16_small v Hv).
  destruct (int16_float64_exact v Hv) as [-> _].
  destruct (int16_float64_exact b Hb) as [_ ->].
  apply int16_small, Hsum.
Qed.

Lemma get_pixels_hu_unit_slope_witness :
  get3 [[[-1000]]] (0, 0, 0) = Some (24 + -1024).
Proof.
  apply (get_pixels_hu_unit_slope
           (one_voxel_scan 24 1%float (-1024)%float) [[[-1000]]] 0 0 0
           {| pixel_array := [[24]]; RescaleIntercept := (-1024)%float;
              RescaleSlope := 1%float; SliceThickness := 1%Q;
              PixelSpacing := (1%Q, 1%Q) |} 24 (-1024));
    try lia; vm_compute; reflexivity.
Defined.

End UnitSlope.


(** ** [normalize] and [zero_center] on a volume in Hounsfield units *)

Section NormalizeRange.

Import np preprocess.

(** Where a voxel lands: on 0.0 at or below [min_bound], on 1.0 at or above
    [max_bound], strictly between them otherwise. *)
Definition lands (lo hi : float64) (v : Z) (y : float64) : bool :=
  if v <=? -1000 then PrimFloat.eqb y lo
  else if 400 <=? v then PrimFloat.eqb y hi
  else PrimFloat.ltb lo y && PrimFloat.ltb y hi.

Lemma normalize_int16_lands :
  forall_from (Z.to_nat 65536) (-32768)
    (fun v =>
       let y := clamp01 (rescale01 (-1000)%float 400%float v) in
       lands 0%float 1%float v y
       && lands (-0.25)%float 0.75%float v (PrimFloat.sub y 0.25%float)) = true.
Proof. vm_compute. reflexivity. Qed.

Lemma lands_spec lo hi v y :
  lands lo hi v y = true ->
  (v <= -1000 -> PrimFloat.eqb y lo = true) /\
  (400 <= v -> PrimFloat.eqb y hi = true) /\
  (-1000 < v < 400 -> PrimFloat.ltb lo y = true /\ PrimFloat.ltb y hi = true).
Proof.
  unfold lands. destruct (v <=? -1000) eqn:Hlo.
  - apply Z.leb_le in Hlo. intros H. repeat split; intros; try lia; exact H.
  - apply Z.leb_gt in Hlo. destruct (400 <=? v) eqn:Hhi.
    + apply Z.leb_le in Hhi. intros H. repeat split; intros; try lia; exact H.
    + apply Z.leb_gt in Hhi. intros H. apply andb_true_iff in H.
      repeat split; intros; try lia; tauto.
Qed.

(** With the default bounds, [normalize] sends every voxel at or below -1000
    to 0.0 and every voxel at or above 400 to 1.0, and the voxels between the
    bounds strictly between 0.0 and 1.0. *)
Theorem normalize_saturates image p v :
  get3 image p = Some v ->
  -32768 <= v <= 32767 ->
  exists y,
    get3 (normalize image (-1000)%float 400%float) p = Some y /\
    (v <= -1000 -> PrimFloat.eqb y 0%float = true) /\
    (400 <= v -> PrimFloat.eqb y 1%float = true) /\
    (-1000 < v < 400 ->
     PrimFloat.ltb 0%float y = true /\ PrimFloat.ltb y 1%float = true).
Proof.
  intros Hget Hv. eexists. split; [rewrite normalize_get3, Hget; reflexivity|].
  apply lands_spec.
  pose proof (forall_from_spec _ _ _ normalize_int16_lands v) as H.
  cbv beta zeta in H. rewrite andb_true_iff in H. apply H. lia.
Qed.

Lemma normalize_saturates_witness :
  exists y,
    get3 (normalize [[[-1024; 40; 1500]]] (-1000)%float 400%float) (0, 0, 1) = Some y /\
    (40 <= -1000 -> PrimFloat.eqb y 0%float = true) /\
    (400 <= 40 -> PrimFloat.eqb y 1%float = true) /\
    (-1000 < 40 < 400 ->
     PrimFloat.ltb 0%float y = true /\ PrimFloat.ltb y 1%float = true).
Proof.
  apply (normalize_saturates [[[-1024; 40; 1500]]] (0, 0, 1) 40); [reflexivity|lia].
Defined.

(** [zero_center] with its default mean of 0.25, applied to a normalized
    volume: every voxel lies in [[-0.25, 0.75]], on -0.25 for air (at or below
    -1000) and on 0.75 for bone (at or above 400). *)
Theorem zero_center_normalized image p v :
  get3 image p = Some v ->
  -32768 <= v <= 32767 ->
  exists z,
    get3 (zero_center (normalize image (-1000)%float 400%float) 0.25%float) p = Some z /\
    (v <= -1000 -> PrimFloat.eqb z (-0.25)%float = true) /\
    (400 <= v -> PrimFloat.eqb z 0.75%float = true) /\
    (-1000 < v < 400 ->
     PrimFloat.ltb (-0.25)%float z = true /\ PrimFloat.ltb z 0.75%float = true).
Proof.
  intros Hget Hv. eexists. split.
  - unfold zero_center. rewrite get3_map3, normalize_get3, Hget. reflexivity.
  - apply lands_spec.
    pose proof (forall_from_spec _ _ _ normalize_int16_lands v) as H.
    cbv beta zeta in H. rewrite andb_true_iff in H. apply H. lia.
Qed.

Lemma zero_center_normalized_witness :
  exists z,
    get3 (zero_center (normalize [[[-1024; 40; 1500]]] (-1000)%float 400%float) 0.25%float)
         (0, 0, 2) = Some z /\
    (1500 <= -1000 -> PrimFloat.eqb z (-0.25)%float = true) /\
    (400 <= 1500 -> PrimFloat.eqb z 0.75%float = true) /\
    (-1000 < 1500 < 400 ->
     PrimFloat.ltb (-0.25)%float z = true /\ PrimFloat.ltb z 0.75%float = true).
Proof.
  apply (zero_center_normalized [[[-1024; 40; 1500]]] (0, 0, 2) 1500); [reflexivity|lia].
Defined.

End NormalizeRange.


(** ** [segment_lung_mask] on a volume of air *)

Section AllAir.

Import np ndimage measure preprocess.

Variables n1 n2 n3 : nat.

Hypothesis n1_positive : (0 < n1)%nat.
Hypothesis n2_positive : (0 < n2)%nat.
Hypothesis n3_positive : (0 < n3)%nat.

Lemma erosion_empty structure :
  In (0, 0, 0) structure ->
  binary_erosion (full3 n1 n2 n3 false) structure = full3 n1 n2 n3 false.
Proof.
  intros Hin. unfold binary_erosion. apply mapi3_uniform; [apply rect3_full3|].
  intros p x Hx. apply not_true_is_false. intros H.
  rewrite forallb_forall in H. specialize (H _ Hin).
  rewrite padd_origin in H. unfold voxel_or in H. rewrite Hx in H.
  apply get3_full3_Some in Hx. congruence.
Qed.

(** When marking the exterior has left no air, nothing is left to segment. *)
Lemma lung_region_exterior_only binary_image labels fill_lung_structures l0 :
  get3 labels (0, 0, 0) = Some l0 ->
  set_where (map3 (fun l => l0 =? l) labels) 2 binary_image = full3 n1 n2 n3 2 ->
  lung_region binary_image labels fill_lung_structures = py.Ok (full3 n1 n2 n3 0).
Proof.
  intros Hl0 Hmarked. unfold lung_region. rewrite Hl0, Hmarked. f_equal.
  assert (Hfill : (if fill_lung_structures
                   then map fill_slice (full3 n1 n2 n3 2)
                   else full3 n1 n2 n3 2) = full3 n1 n2 n3 2).
  { destruct fill_lung_structures; [|reflexivity].
    unfold full3. rewrite map_repeat, fill_slice_full by assumption. reflexivity. }
  rewrite Hfill, !map3_full3. reflexivity.
Qed.

Lemma segment_of_no_region image fill_lung_structures :
  lung_region (closed_volume image) (air_labels (closed_volume image))
              fill_lung_structures = py.Ok (full3 n1 n2 n3 0) ->
  segment_lung_mask image fill_lung_structures = py.Ok (full3 n1 n2 n3 false).
Proof.
  intros Hregion. unfold segment_lung_mask, lung_candidate. rewrite Hregion.
  cbn [py.bind]. f_equal. unfold region_labels, keep_largest.
  rewrite label_background.
  rewrite largest_label_volume_background
    by (intros x Hx; eapply In_ravel3_full3, Hx).
  rewrite map3_full3. change (nonzero 0) with false. apply dilation_empty.
Qed.

Variable image : arr3 Z.

Hypothesis image_rect : rect3 image n1 n2 n3.
Hypothesis image_air : Forall (fun v => v <= -320) (ravel3 image).

Lemma closed_volume_all_air : closed_volume image = full3 n1 n2 n3 1.
Proof.
  unfold closed_volume.
  assert (Hthr : map3 nonzero (map3 (fun v => if -320 <? v then 1 else 0) image)
                 = full3 n1 n2 n3 false).
  { rewrite (map3_mapi3 nonzero).
    apply mapi3_uniform; [apply rect3_map3, image_rect|].
    intros p x Hx. rewrite get3_map3 in Hx.
    destruct (get3 image p) as [v|] eqn:Hv; simpl in Hx; [|discriminate].
    inversion Hx as [Hx']. clear Hx.
    assert (Hin : In v (ravel3 image)) by (apply In_ravel3; eauto).
    rewrite Forall_forall in image_air. apply image_air in Hin.
    replace (-320 <? v) with false by (symmetry; apply Z.ltb_ge; exact Hin).
    reflexivity. }
  rewrite Hthr. unfold binary_closing.
  rewrite dilation_empty, erosion_empty by (apply cube_has_centre; lia).
  rewrite map3_full3. reflexivity.
Qed.

Lemma segment_lung_mask_air fill_lung_structures :
  segment_lung_mask image fill_lung_structures = py.Ok (full3 n1 n2 n3 false).
Proof.
  apply segment_of_no_region. rewrite closed_volume_all_air. unfold air_labels.
  destruct (label_full3 n1 n2 n3 1 0 1) as (l & Hl & ->); try lia.
  apply (lung_region_exterior_only _ _ _ l).
  - apply get3_full3_inside; lia.
  - unfold set_where. apply mapi3_uniform; [apply rect3_full3|].
    intros [[i j] k] x Hx. apply get3_full3_bounds in Hx.
    rewrite get3_map3, get3_full3_inside by tauto.
    cbn [option_map]. rewrite Z.eqb_refl. reflexivity.
Qed.

End AllAir.

Section AllAirTheorem.

Import np preprocess.

(** A volume that holds only air (every voxel at or below the threshold of
    -320) is all exterior: [segment_lung_mask] raises nothing and returns the
    all-false mask of the shape of the volume. *)
Theorem segment_lung_mask_all_air
    (image : arr3 Z) (n1 n2 n3 : nat) (fill_lung_structures : bool) :
  (0 < n1)%nat -> (0 < n2)%nat -> (0 < n3)%nat ->
  rect3 image n1 n2 n3 ->
  Forall (fun v => v <= -320) (ravel3 image) ->
  segment_lung_mask image fill_lung_structures = py.Ok (full3 n1 n2 n3 false).
Proof.
  intros H1 H2 H3 Hrect Hair. apply segment_lung_mask_air; assumption.
Qed.

Lemma segment_lung_mask_all_air_witness :
  segment_lung_mask [[[-1000; -320]; [-1024; -900]]] true
  = py.Ok [[[false; false]; [false; false]]].
Proof.
  apply (segment_lung_mask_all_air _ 1 2 2 true); try lia.
  - split; [reflexivity|]. repeat constructor.
  - simpl. repeat (constructor; [lia|]). constructor.
Defined.

End AllAirTheorem.

Section FillStructures.

Import np ndimage measure preprocess.

Lemma get2_set_where2 {A : Type} (mask : arr2 bool) (c : A) (a : arr2 A) j k :
  get2 (set_where2 mask c a) j k
  = option_map (fun x => match get2 mask j k with Some true => c | _ => x end)
               (get2 a j k).
Proof.
  unfold set_where2, get2. rewrite zth_mapi.
  destruct (zth a j) as [row|]; simpl; [|reflexivity].
  apply zth_mapi.
Qed.

(** The fill changes a voxel of a slice only by setting it to 1. *)
Lemma fill_slice_voxel axial j k x :
  get2 (fill_slice axial) j k = Some x ->
  exists y, get2 axial j k = Some y /\ (x = y \/ x = 1).
Proof.
  unfold fill_slice. destruct (largest_label_volume _ 0) as [l_max|]; [|eauto].
  rewrite get2_set_where2.
  destruct (get2 axial j k) as [y|]; [|discriminate]. cbn [option_map].
  intros H. exists y. split; [reflexivity|].
  destruct (get2 _ j k) as [[|]|]; inversion H; auto.
Qed.

Lemma get3_map_planes {A : Type} (f : arr2 A -> arr2 A) (a : arr3 A) i j k :
  get3 (map f a) (i, j, k)
  = match zth a i with Some plane => get2 (f plane) j k | None => None end.
Proof.
  unfold get3, zth, arr3, arr2 in *. destruct (i <? 0); [reflexivity|].
  rewrite nth_error_map. destruct (nth_error a (Z.to_nat i)); reflexivity.
Qed.

Lemma get3_planes {A : Type} (a : arr3 A) i j k :
  get3 a (i, j, k)
  = match zth a i with Some plane => get2 plane j k | None => None end.
Proof. reflexivity. Qed.

(** Filling the lung structures only adds voxels to the lung region: a voxel
    that is in the region without the fill is in the region with it. *)
Theorem fill_lung_structures_adds binary_image labels without filled p v :
  lung_region binary_image labels false = py.Ok without ->
  lung_region binary_image labels true = py.Ok filled ->
  get3 without p = Some v -> v <> 0 ->
  exists w, get3 filled p = Some w /\ w <> 0.
Proof.
  unfold lung_region. destruct (get3 labels (0, 0, 0)) as [l0|]; [|discriminate].
  set (marked := set_where _ 2 binary_image).
  intros H0 H1.
  assert (E0 : without = map3 (fun v => 1 - v) (map3 (fun v => v - 1) marked))
    by congruence.
  assert (E1 : filled = map3 (fun v => 1 - v)
                          (map3 (fun v => v - 1) (map fill_slice marked)))
    by congruence.
  subst without filled. clear H0 H1.
  destruct p as [[i j] k]. rewrite !get3_map3, get3_map_planes, get3_planes.
  destruct (zth marked i) as [plane|]; [|discriminate].
  destruct (get2 plane j k) as [y|] eqn:Hy; [|discriminate].
  intros Hv Hnz.
  assert (Hvy : v = 1 - (y - 1))
    by (change (Some (1 - (y - 1)) = Some v) in Hv; congruence).
  destruct (get2 (fill_slice plane) j k) as [x|] eqn:Hx.
  - destruct (fill_slice_voxel _ _ _ _ Hx) as (y' & Hy' & Hxy).
    rewrite Hy in Hy'. inversion Hy'. subst y'.
    exists (1 - (x - 1)). split; [reflexivity|]. lia.
  - exfalso. unfold fill_slice in Hx.
    destruct (largest_label_volume _ 0); [|congruence].
    rewrite get2_set_where2, Hy in Hx. discriminate.
Qed.

Lemma fill_lung_structures_adds_witness :
  exists w, get3 one_pocket_region (5, 5, 5) = Some w /\ w <> 0.
Proof.
  apply (fill_lung_structures_adds (closed_volume one_pocket)
           (air_labels (closed_volume one_pocket))
           one_pocket_region one_pocket_region (5, 5, 5) 1).
  - vm_compute. reflexivity.
  - vm_compute. reflexivity.
  - vm_compute. reflexivity.
  - discriminate.
Defined.

End FillStructures.


(** ** [display_ct_pet]: the crop of the PET volume *)


Section CropPet.

Import np driver.

Lemma pyslice_margin {A : Type} (l : list A) d :
  0 < d -> length (pyslice l d (- d)) = (length l - 2 * Z.to_nat d)%nat.
Proof.
  intros Hd. unfold pyslice, slice_index.
  replace (d <? 0) with false by (symmetry; apply Z.ltb_ge; lia).
  replace (- d <? 0) with true by (symmetry; apply Z.ltb_lt; lia).
  rewrite length_firstn, length_skipn. lia.
Qed.

Lemma pyslice_nothing {A : Type} (l : list A) : pyslice l 0 (- 0) = [].
Proof.
  unfold pyslice, slice_index. simpl Z.opp. cbn [Z.ltb Z.compare].
  rewrite Z.min_l by lia. reflexivity.
Qed.

Lemma pyslice_In {A : Type} (l : list A) a b x : In x (pyslice l a b) -> In x l.
Proof.
  unfold pyslice. intros H.
  rewrite <- (firstn_skipn (Z.to_nat (slice_index (Z.of_nat (length l)) a)) l).
  apply in_or_app. right.
  set (r := skipn _ l) in *.
  rewrite <- (firstn_skipn (Z.to_nat (slice_index (Z.of_nat (length l)) b
                                      - slice_index (Z.of_nat (length l)) a)) r).
  apply in_or_app. left. exact H.
Qed.

(** The crop of [display_ct_pet].  When the PET volume has at least two more
    rows than the CT volume, [difference] rows and columns are cut from each
    side.  When the two volumes have the same number of rows, or differ by
    one, [difference] is 0, the slice [0:-0] is empty, and nothing of the PET
    volume is left. *)
Theorem crop_pet_shape {A : Type} (pet ct : arr3 A) (n1 p2 p3 c1 c2 c3 : nat) :
  rect3 pet n1 p2 p3 -> (0 < n1)%nat -> (0 < p2)%nat ->
  rect3 ct c1 c2 c3 -> (0 < c1)%nat -> (0 < c2)%nat ->
  let difference := Z.to_nat (Z.quot (Z.of_nat p2 - Z.of_nat c2) 2) in
  ((p2 >= c2 + 2)%nat ->
   rect3 (crop_pet pet ct) n1 (p2 - 2 * difference) (p3 - 2 * difference)) /\
  ((p2 <= c2 + 1)%nat -> (c2 <= p2 + 1)%nat ->
   rect3 (crop_pet pet ct) n1 0 0).
Proof.
  intros Hpet H1 H2 Hct H3 H4 difference.
  unfold crop_pet.
  rewrite (shape3_rect _ _ _ _ Hpet H1 H2), (shape3_rect _ _ _ _ Hct H3 H4).
  destruct Hpet as [Hlen Hplanes]. rewrite Forall_forall in Hplanes.
  split.
  - intros Hbig.
    assert (Hd : 0 < Z.quot (Z.of_nat p2 - Z.of_nat c2) 2).
    { apply Z.quot_str_pos; lia. }
    split; [rewrite length_map; exact Hlen|].
    apply Forall_map, Forall_forall. intros plane Hplane.
    destruct (Hplanes plane Hplane) as [Hl2 Hrows]. rewrite Forall_forall in Hrows.
    split.
    + rewrite length_map, pyslice_margin by exact Hd. rewrite Hl2. reflexivity.
    + apply Forall_map, Forall_forall. intros row Hrow.
      apply pyslice_In in Hrow.
      rewrite pyslice_margin by exact Hd. rewrite (Hrows row Hrow). reflexivity.
  - intros Hle Hge.
    assert (Hd : Z.quot (Z.of_nat p2 - Z.of_nat c2) 2 = 0).
    { apply Z.quot_small_iff; lia. }
    rewrite Hd. split; [rewrite length_map; exact Hlen|].
    apply Forall_map, Forall_forall. intros plane Hplane.
    rewrite pyslice_nothing. split; [reflexivity|constructor].
Qed.

Lemma crop_pet_shape_witness :
  ((4 >= 2 + 2)%nat ->
   rect3 (crop_pet [[[1; 2; 3; 4]; [5; 6; 7; 8]; [9; 10; 11; 12]; [13; 14; 15; 16]]]
                   [[[0; 0]; [0; 0]]])
         1 (4 - 2 * Z.to_nat (Z.quot (Z.of_nat 4 - Z.of_nat 2) 2))
           (4 - 2 * Z.to_nat (Z.quot (Z.of_nat 4 - Z.of_nat 2) 2))) /\
  ((4 <= 2 + 1)%nat -> (2 <= 4 + 1)%nat ->
   rect3 (crop_pet [[[1; 2; 3; 4]; [5; 6; 7; 8]; [9; 10; 11; 12]; [13; 14; 15; 16]]]
                   [[[0; 0]; [0; 0]]])
         1 0 0).
Proof.
  apply (crop_pet_shape
           [[[1; 2; 3; 4]; [5; 6; 7; 8]; [9; 10; 11; 12]; [13; 14; 15; 16]]]
           [[[0; 0]; [0; 0]]] 1 4 4 1 2 2);
    try lia; split; try reflexivity; repeat constructor.
Defined.

End CropPet.


(** ** [load_image] *)

Section LoadImage.

Import np ndimage measure preprocess driver.

Lemma zoom_rect input z out n1 n2 n3 :
  rect3 input n1 n2 n3 -> zoom input z = py.Ok out ->
  exists k1 k2 k3, rect3 out k1 k2 k3.
Proof.
  intros Hrect Hz. pose proof (zoom_with_rect _ _ _ _ _ _ _ Hrect Hz) as H.
  destruct (shape3 input) as [[s1 s2] s3]. destruct z as [[z1 z2] z3].
  destruct H as (m1 & m2 & m3 & _ & _ & _ & _ & _ & _ & H). eauto.
Qed.

Lemma resample_rect image scan new_spacing img achieved n1 n2 n3 :
  rect3 image n1 n2 n3 ->
  resample image scan new_spacing = py.Ok (img, achieved) ->
  exists k1 k2 k3, rect3 img k1 k2 k3.
Proof.
  intros Hrect H. unfold resample in H. destruct scan as [|s0 rest]; [discriminate|].
  apply bind_ok_inv in H. destruct H as (img' & Hz & H). inversion H. subst img'.
  eapply zoom_rect; eauto.
Qed.

(** When [segment_lung_mask] returns, the volume had voxels, and the mask has
    its shape. *)
Lemma segment_lung_mask_returned image fill_lung_structures mask n1 n2 n3 :
  rect3 image n1 n2 n3 ->
  segment_lung_mask image fill_lung_structures = py.Ok mask ->
  ((0 < n1)%nat /\ (0 < n2)%nat /\ (0 < n3)%nat) /\ rect3 mask n1 n2 n3.
Proof.
  intros Hrect H. unfold segment_lung_mask in H.
  apply bind_ok_inv in H. destruct H as (candidate & Hc & H). inversion H. clear H.
  unfold lung_candidate in Hc.
  apply bind_ok_inv in Hc. destruct Hc as (region & Hregion & Hc). inversion Hc. clear Hc.
  pose proof (closed_volume_shape _ _ _ _ Hrect) as Hclosed.
  pose proof (lung_region_rect _ _ _ _ _ _ _ Hclosed Hregion) as Hr.
  split.
  - destruct (label_spec (closed_volume image) 0 1 n1 n2 n3 Hclosed) as (Hlab & _).
    unfold lung_region in Hregion.
    destruct (get3 (air_labels (closed_volume image)) (0, 0, 0)) as [l0|] eqn:Hl0;
      [|discriminate].
    assert (Hb : 0 <= 0 < Z.of_nat n1 /\ 0 <= 0 < Z.of_nat n2 /\ 0 <= 0 < Z.of_nat n3)
      by (apply (get3_rect _ _ _ _ _ _ _ Hlab); eauto).
    lia.
  - unfold binary_dilation. apply rect3_mapi3, rect3_map3, keep_largest_rect, Hr.
Qed.

(** When [load_image] returns, for a CT series of slices of one size, the CT
    volume it returns has at least one voxel and the lung mask has exactly
    the shape of that volume. *)
Theorem load_image_lung_shape ct_data pet_data tumor_mask (n2 n3 : nat) ct pet mask lung :
  Forall (fun s => rect2 (pixel_array s) n2 n3) ct_data ->
  load_image (ct_data, pet_data, tumor_mask) = py.Ok (ct, pet, mask, lung) ->
  exists k1 k2 k3,
    ((0 < k1)%nat /\ (0 < k2)%nat /\ (0 < k3)%nat) /\
    rect3 ct k1 k2 k3 /\ rect3 lung k1 k2 k3.
Proof.
  intros Hslices H. unfold load_image in H.
  apply bind_ok_inv in H. destruct H as (ct_pixel & Hct & H).
  apply bind_ok_inv in H. destruct H as (pet_pixel & _ & H).
  apply bind_ok_inv in H. destruct H as (tumor & _ & H).
  apply bind_ok_inv in H. destruct H as ([ct' sp] & Hres & H).
  apply bind_ok_inv in H. destruct H as (pet' & _ & H).
  apply bind_ok_inv in H. destruct H as (lung' & Hseg & H).
  inversion H. subst ct pet mask lung. clear H.
  assert (Hne : ct_data <> []).
  { intros E. subst ct_data. discriminate Hct. }
  destruct (get_pixels_hu_shape ct_data n2 n3 Hne Hslices) as (image & Himg & Hrect & _).
  rewrite Himg in Hct. inversion Hct. subst image. clear Hct.
  destruct (resample_rect _ _ _ _ _ _ _ _ Hrect Hres) as (k1 & k2 & k3 & Hk).
  exists k1, k2, k3. cbn [fst] in *.
  destruct (segment_lung_mask_returned _ _ _ _ _ _ Hk Hseg) as [Hpos Hlung].
  auto.
Qed.

Lemma load_image_lung_shape_witness :
  exists k1 k2 k3,
    ((0 < k1)%nat /\ (0 < k2)%nat /\ (0 < k3)%nat) /\
    rect3 [[[-1000]]] k1 k2 k3 /\ rect3 [[[false]]] k1 k2 k3.
Proof.
  apply (load_image_lung_shape
           (one_voxel_scan 24 1%float (-1024)%float)
           (one_voxel_scan 7 1%float 0%float)
           ([[[0; 1]]], ((1, 0, 0), (0, 1, 0), (0, 0, 1))%Q)
           1 1 [[[-1000]]] [[[7]]] [[[0]]; [[1]]] [[[false]]]).
  - repeat constructor.
  - vm_compute. reflexivity.
Defined.

End LoadImage.


(** ** [display_ct_pet]: the slice that is shown *)

Section FlatIndex.

Import np.

Context {A : Type}.

Lemma zth_app_l (l l' : list A) i :
  i < Z.of_nat (length l) -> zth (l ++ l') i = zth l i.
Proof.
  intros Hi. unfold zth. destruct (i <? 0) eqn:Hneg; [reflexivity|].
  apply Z.ltb_ge in Hneg. apply nth_error_app1. lia.
Qed.

Lemma zth_app_r (l l' : list A) i :
  Z.of_nat (length l) <= i -> zth (l ++ l') i = zth l' (i - Z.of_nat (length l)).
Proof.
  intros Hi. unfold zth.
  replace (i <? 0) with false by (symmetry; apply Z.ltb_ge; lia).
  replace (i - Z.of_nat (length l) <? 0) with false by (symmetry; apply Z.ltb_ge; lia).
  rewrite nth_error_app2 by lia. f_equal. lia.
Qed.

(** In the concatenation of lists of one length [n], position [q * n + r]
    is position [r] of list [q]. *)
Lemma zth_concat (l : list (list A)) (n : nat) : forall q r,
  Forall (fun x => length x = n) l ->
  0 <= q -> 0 <= r < Z.of_nat n ->
  zth (concat l) (q * Z.of_nat n + r)
  = match zth l q with Some x => zth x r | None => None end.
Proof.
  induction l as [|x l IH]; intros q r Hall Hq Hr.
  - simpl. replace (zth [] q) with (@None (list A)); [|symmetry; apply zth_None; simpl; lia].
    apply zth_None. simpl. nia.
  - inversion Hall as [|? ? Hx Hl]; subst. simpl concat. rewrite (zth_cons x l q).
    destruct (q =? 0) eqn:H0.
    + apply Z.eqb_eq in H0. subst q. rewrite Z.mul_0_l, Z.add_0_l.
      apply zth_app_l. lia.
    + apply Z.eqb_neq in H0. rewrite zth_app_r by nia.
      replace (q * Z.of_nat (length x) + r - Z.of_nat (length x))
        with ((q - 1) * Z.of_nat (length x) + r) by lia.
      apply IH; [exact Hl|lia|exact Hr].
Qed.

Lemma concat_uniform (l : list (list A)) (n2 n3 : nat) :
  length l = n2 -> Forall (fun x => length x = n3) l ->
  length (concat l) = (n2 * n3)%nat.
Proof.
  intros Hlen Hall. subst n2. induction Hall as [|x l Hx Hl IH]; [reflexivity|].
  simpl. rewrite length_app, IH, Hx. reflexivity.
Qed.

End FlatIndex.

Section FlatIndex3.

Import np.

Context {A : Type}.

(** The voxel at a position of a rectangular array, in the flattened array. *)
Lemma zth_ravel3 (a : arr3 A) n1 n2 n3 i j k :
  rect3 a n1 n2 n3 ->
  0 <= i -> 0 <= j < Z.of_nat n2 -> 0 <= k < Z.of_nat n3 ->
  zth (ravel3 a) ((i * Z.of_nat n2 + j) * Z.of_nat n3 + k) = get3 a (i, j, k).
Proof.
  intros [Hlen Hplanes] Hi Hj Hk. unfold ravel3, get3, get2.
  rewrite (zth_concat (concat a) n3); try lia.
  - rewrite (zth_concat a n2); try lia.
    + destruct (zth a i); reflexivity.
    + eapply Forall_impl; [|exact Hplanes]. intros plane [H _]. exact H.
  - apply Forall_forall. intros row Hrow. apply in_concat in Hrow.
    destruct Hrow as (plane & Hplane & Hrow).
    rewrite Forall_forall in Hplanes. destruct (Hplanes plane Hplane) as [_ Hrows].
    rewrite Forall_forall in Hrows. apply Hrows, Hrow.
Qed.

Lemma length_ravel3_rect (a : arr3 A) n1 n2 n3 :
  rect3 a n1 n2 n3 -> length (ravel3 a) = (n1 * n2 * n3)%nat.
Proof.
  intros [Hlen Hplanes]. unfold ravel3.
  rewrite (concat_uniform (concat a) (n1 * n2) n3).
  - reflexivity.
  - apply (concat_uniform a n1 n2 Hlen).
    eapply Forall_impl; [|exact Hplanes]. intros plane [H _]. exact H.
  - apply Forall_forall. intros row Hrow. apply in_concat in Hrow.
    destruct Hrow as (plane & Hplane & Hrow).
    rewrite Forall_forall in Hplanes. destruct (Hplanes plane Hplane) as [_ Hrows].
    rewrite Forall_forall in Hrows. apply Hrows, Hrow.
Qed.

End FlatIndex3.

Section ArgmaxFlat.

Import np driver.

(** [m] is the first position of the maximum of [l]. *)
Definition first_maximum (l : list Z) (m : nat) : Prop :=
  (m < length l)%nat /\
  (forall j, (j < length l)%nat -> nth j l 0 <= nth m l 0) /\
  (forall j, (j < m)%nat -> nth j l 0 < nth m l 0).

Lemma first_maximum_snoc_greater l m x :
  first_maximum l m -> nth m l 0 < x -> first_maximum (l ++ [x]) (length l).
Proof.
  intros (Hm & Hmax & _) Hx.
  assert (Hlast : nth (length l) (l ++ [x]) 0 = x)
    by (rewrite app_nth2, Nat.sub_diag by lia; reflexivity).
  unfold first_maximum. rewrite Hlast, length_app. simpl. repeat split; [lia| |].
  - intros j Hj. destruct (Nat.eq_dec j (length l)) as [->|Hne]; [lia|].
    rewrite app_nth1 by lia. specialize (Hmax j). lia.
  - intros j Hj. rewrite app_nth1 by lia. specialize (Hmax j Hj). lia.
Qed.

Lemma first_maximum_snoc_other l m x :
  first_maximum l m -> x <= nth m l 0 -> first_maximum (l ++ [x]) m.
Proof.
  intros (Hm & Hmax & Hfirst) Hx.
  unfold first_maximum. rewrite length_app, (app_nth1 l [x] 0 Hm). simpl.
  repeat split; [lia| |].
  - intros j Hj. destruct (Nat.eq_dec j (length l)) as [->|Hne].
    + rewrite app_nth2, Nat.sub_diag by lia. exact Hx.
    + rewrite app_nth1 by lia. apply Hmax. lia.
  - intros j Hj. rewrite app_nth1 by lia. apply Hfirst, Hj.
Qed.

Lemma argmax_scan_first r : forall pre bi,
  first_maximum pre bi ->
  first_maximum (pre ++ r) (argmax_scan r (length pre) bi (nth bi pre 0)).
Proof.
  induction r as [|x r IH]; intros pre bi Hpre; simpl.
  - rewrite app_nil_r. exact Hpre.
  - replace (pre ++ x :: r) with ((pre ++ [x]) ++ r)
      by (rewrite <- app_assoc; reflexivity).
    assert (Hlen : S (length pre) = length (pre ++ [x]))
      by (rewrite length_app; simpl; lia).
    rewrite Hlen. destruct (nth bi pre 0 <? x) eqn:Hcmp.
    + apply Z.ltb_lt in Hcmp.
      pose proof (IH _ _ (first_maximum_snoc_greater _ _ _ Hpre Hcmp)) as Hnew.
      rewrite app_nth2, Nat.sub_diag in Hnew by lia. exact Hnew.
    + apply Z.ltb_ge in Hcmp.
      pose proof (IH _ _ (first_maximum_snoc_other _ _ _ Hpre Hcmp)) as Hsame.
      rewrite (app_nth1 pre [x] 0) in Hsame by (destruct Hpre; assumption).
      exact Hsame.
Qed.

Lemma argmax_flat_first l :
  l <> [] -> exists m, argmax_flat l = py.Ok m /\ first_maximum l m.
Proof.
  destruct l as [|x r]; [congruence|]. intros _.
  eexists. split; [reflexivity|].
  apply (argmax_scan_first r [x] 0%nat).
  unfold first_maximum. simpl. repeat split; [lia| |lia].
  intros [|j] Hj; [lia|lia].
Qed.

End ArgmaxFlat.

Section ImageIndex.

Import np driver.

Lemma zth_nth (l : list Z) i v : zth l i = Some v -> nth (Z.to_nat i) l 0 = v.
Proof.
  unfold zth. destruct (i <? 0); [discriminate|]. apply nth_error_nth.
Qed.

(** The slice [display_ct_pet] shows is ten slices past the first slice that
    holds a voxel of the largest value of the mask. *)
Theorem image_index_first_slice (seg : arr3 Z) (n1 n2 n3 : nat) :
  rect3 seg n1 n2 n3 ->
  (0 < n1)%nat -> (0 < n2)%nat -> (0 < n3)%nat ->
  exists i0 j0 k0 m,
    image_index seg = py.Ok (i0 + 10) /\
    get3 seg (i0, j0, k0) = Some m /\
    (forall p v, get3 seg p = Some v -> v <= m) /\
    (forall i j k v, i < i0 -> get3 seg (i, j, k) = Some v -> v < m).
Proof.
  intros Hrect P1 P2 P3.
  pose proof (length_ravel3_rect seg n1 n2 n3 Hrect) as Hlen.
  assert (Hne : ravel3 seg <> []).
  { intros E. rewrite E in Hlen. simpl in Hlen. nia. }
  destruct (argmax_flat_first _ Hne) as (f & Hf & Hlt & Hmax & Hfirst).
  set (l := ravel3 seg) in *.
  set (N2 := Z.of_nat n2). set (N3 := Z.of_nat n3).
  set (F := Z.of_nat f).
  assert (HN2 : 0 < N2) by (subst N2; lia).
  assert (HN3 : 0 < N3) by (subst N3; lia).
  assert (HF : 0 <= F < Z.of_nat n1 * N2 * N3) by (subst F N2 N3; nia).
  set (q := F / N3). set (k0 := F mod N3).
  set (i0 := q / N2). set (j0 := q mod N2).
  assert (Hq : F = q * N3 + k0) by (subst q k0; rewrite Z.mul_comm; apply Z.div_mod; lia).
  assert (Hk0 : 0 <= k0 < N3) by (apply Z.mod_pos_bound; lia).
  assert (Hq0 : 0 <= q) by (apply Z.div_pos; lia).
  assert (Hi : q = i0 * N2 + j0) by (subst i0 j0; rewrite Z.mul_comm; apply Z.div_mod; lia).
  assert (Hj0 : 0 <= j0 < N2) by (apply Z.mod_pos_bound; lia).
  assert (Hi0 : 0 <= i0) by (apply Z.div_pos; lia).
  assert (Hflat : zth l F = Some (nth f l 0)).
  { subst F. rewrite zth_nat. apply nth_error_nth'. exact Hlt. }
  exists i0, j0, k0, (nth f l 0).
  split; [|split; [|split]].
  - unfold image_index. rewrite (shape3_rect _ _ _ _ Hrect P1 P2).
    fold l. rewrite Hf. cbn [py.bind]. do 2 f_equal.
    fold F N2 N3. subst i0 q. rewrite Z.div_div by lia.
    f_equal. apply Z.mul_comm.
  - rewrite <- (zth_ravel3 seg n1 n2 n3) by (try exact Hrect; assumption).
    fold l N2 N3. rewrite <- Hi, <- Hq. exact Hflat.
  - intros p v Hv.
    assert (Hin : In v l) by (apply In_ravel3; eauto).
    destruct (In_nth _ _ 0 Hin) as (j & Hj & <-). apply Hmax, Hj.
  - intros i j k v Hlow Hv.
    assert (Hb : 0 <= i < Z.of_nat n1 /\ 0 <= j < Z.of_nat n2 /\ 0 <= k < Z.of_nat n3)
      by (apply (get3_rect seg n1 n2 n3 i j k Hrect); eauto).
    destruct Hb as (Hbi & Hbj & Hbk). fold N2 in Hbj. fold N3 in Hbk.
    rewrite <- (zth_ravel3 seg n1 n2 n3) in Hv by (try exact Hrect; lia).
    fold l N2 N3 in Hv.
    assert (Hrow : i * N2 + j + 1 <= q).
    { assert ((i + 1) * N2 <= i0 * N2) by (apply Z.mul_le_mono_nonneg_r; lia). lia. }
    assert (Hbefore : (i * N2 + j) * N3 + k < F).
    { assert ((i * N2 + j + 1) * N3 <= q * N3) by (apply Z.mul_le_mono_nonneg_r; lia).
      lia. }
    assert (Hpos : 0 <= (i * N2 + j) * N3 + k) by nia.
    rewrite <- (zth_nth _ _ _ Hv). apply Hfirst. subst F. lia.
Qed.

Lemma image_index_first_slice_witness :
  exists i0 j0 k0 m,
    image_index [[[0; 0]]; [[0; 1]]; [[1; 1]]] = py.Ok (i0 + 10) /\
    get3 [[[0; 0]]; [[0; 1]]; [[1; 1]]] (i0, j0, k0) = Some m /\
    (forall p v, get3 [[[0; 0]]; [[0; 1]]; [[1; 1]]] p = Some v -> v <= m) /\
    (forall i j k v, i < i0 -> get3 [[[0; 0]]; [[0; 1]]; [[1; 1]]] (i, j, k) = Some v -> v < m).
Proof.
  apply (image_index_first_slice [[[0; 0]]; [[0; 1]]; [[1; 1]]] 3 1 2); try lia.
  split; [reflexivity|]. repeat constructor.
Defined.

End ImageIndex.


(** ** [load_image]: an empty series, and the transposed mask *)

Section Transpose.

Import np driver.

Context {A : Type}.

Lemma zth_zrange_map {B : Type} (f : Z -> B) (n : nat) i :
  zth (map f (zrange 0 (Z.of_nat n - 1))) i
  = if (0 <=? i) && (i <? Z.of_nat n) then Some (f i) else None.
Proof.
  unfold zrange. rewrite map_map.
  replace (Z.to_nat (Z.of_nat n - 1 - 0 + 1)) with n by lia.
  destruct ((0 <=? i) && (i <? Z.of_nat n)) eqn:Hr.
  - apply andb_true_iff in Hr. destruct Hr as [H0 Hn].
    apply Z.leb_le in H0. apply Z.ltb_lt in Hn.
    unfold zth. replace (i <? 0) with false by (symmetry; apply Z.ltb_ge; lia).
    rewrite nth_error_map, nth_error_seq.
    replace (Z.to_nat i <? n)%nat with true by (symmetry; apply Nat.ltb_lt; lia).
    cbn [option_map]. do 2 f_equal. lia.
  - apply zth_None. rewrite length_map, length_seq.
    apply andb_false_iff in Hr. destruct Hr as [H|H];
      [apply Z.leb_gt in H|apply Z.ltb_ge in H]; lia.
Qed.

(** A column of values that are all there, gathered along an axis. *)
Lemma gather_all (g : Z -> option A) (l : list Z) :
  (forall i, In i l -> exists x, g i = Some x) ->
  map Some (flat_map (fun i => match g i with Some x => [x] | None => [] end) l)
  = map g l.
Proof.
  induction l as [|i l IH]; intros Hall; [reflexivity|].
  simpl. destruct (Hall i (or_introl eq_refl)) as [x Hx]. rewrite Hx. simpl.
  f_equal. apply IH. intros i' Hi'. apply Hall. right. exact Hi'.
Qed.

Lemma zth_Some_map (l : list A) i : zth (map Some l) i = option_map Some (zth l i).
Proof. apply zth_map. Qed.

Lemma get3_nil (p : pos) : get3 (@nil (list (list A))) p = None.
Proof.
  destruct p as [[i j] k]. unfold get3.
  replace (zth [] i) with (@None (list (list A))); [reflexivity|].
  symmetry. apply zth_None. simpl. lia.
Qed.

(** [np.transpose(a, [2, 1, 0])] exchanges the first and the last index. *)
Lemma get3_transpose_reversed (a : arr3 A) n1 n2 n3 i j k :
  rect3 a n1 n2 n3 ->
  get3 (transpose_reversed a) (k, j, i) = get3 a (i, j, k).
Proof.
  intros Hrect.
  destruct (Nat.eq_dec n1 0) as [E1|N1]; [|destruct (Nat.eq_dec n2 0) as [E2|N2]].
  - (* no plane *)
    destruct Hrect as [Hlen _]. destruct a; [|simpl in Hlen; lia].
    change (transpose_reversed (@nil (list (list A)))) with (@nil (list (list A))).
    rewrite !get3_nil. reflexivity.
  - (* planes without rows *)
    assert (Hnone : get3 a (i, j, k) = None).
    { destruct (get3 a (i, j, k)) as [x|] eqn:Hx; [|reflexivity].
      assert (Hb : 0 <= i < Z.of_nat n1 /\ 0 <= j < Z.of_nat n2 /\ 0 <= k < Z.of_nat n3)
        by (apply (get3_rect a n1 n2 n3 i j k Hrect); eauto).
      lia. }
    rewrite Hnone.
    destruct Hrect as [Hlen Hplanes]. destruct a as [|plane a]; [simpl in Hlen; lia|].
    inversion Hplanes as [|? ? [Hl2 _] _].
    destruct plane; [|simpl in Hl2; lia].
    change (transpose_reversed ([] :: a)) with (@nil (list (list A))).
    apply get3_nil.
  - unfold transpose_reversed.
    rewrite (shape3_rect a n1 n2 n3 Hrect) by lia.
    unfold get3 at 1, get2. rewrite zth_zrange_map.
    destruct ((0 <=? k) && (k <? Z.of_nat n3)) eqn:Hk.
    + rewrite zth_zrange_map.
      destruct ((0 <=? j) && (j <? Z.of_nat n2)) eqn:Hj.
      * apply andb_true_iff in Hk, Hj. destruct Hk as [Hk0 Hk1], Hj as [Hj0 Hj1].
        apply Z.leb_le in Hk0, Hj0. apply Z.ltb_lt in Hk1, Hj1.
        assert (Hcol : forall i', In i' (zrange 0 (Z.of_nat n1 - 1)) ->
                  exists x, get3 a (i', j, k) = Some x).
        { intros i' Hi'. apply In_zrange in Hi'.
          apply (get3_rect a n1 n2 n3 i' j k Hrect). lia. }
        pose proof (gather_all (fun i' => get3 a (i', j, k)) _ Hcol) as Hg.
        set (col := flat_map _ _) in *.
        assert (Hz : option_map Some (zth col i) = zth (map Some col) i)
          by (symmetry; apply zth_Some_map).
        rewrite Hg in Hz.
        rewrite (zth_zrange_map (fun i' => get3 a (i', j, k)) n1 i) in Hz.
        destruct ((0 <=? i) && (i <? Z.of_nat n1)) eqn:Hi.
        -- destruct (zth col i) as [x|]; cbn [option_map] in Hz; [|discriminate].
           congruence.
        -- destruct (zth col i) as [x|]; cbn [option_map] in Hz; [discriminate|].
           symmetry. destruct (get3 a (i, j, k)) as [x|] eqn:Hx; [|reflexivity].
           assert (Hb : 0 <= i < Z.of_nat n1 /\ 0 <= j < Z.of_nat n2 /\ 0 <= k < Z.of_nat n3)
             by (apply (get3_rect a n1 n2 n3 i j k Hrect); eauto).
           apply andb_false_iff in Hi. destruct Hi as [Hi|Hi];
             [apply Z.leb_gt in Hi|apply Z.ltb_ge in Hi]; lia.
      * symmetry. destruct (get3 a (i, j, k)) as [x|] eqn:Hx; [|reflexivity].
        assert (Hb : 0 <= i < Z.of_nat n1 /\ 0 <= j < Z.of_nat n2 /\ 0 <= k < Z.of_nat n3)
          by (apply (get3_rect a n1 n2 n3 i j k Hrect); eauto).
        apply andb_false_iff in Hj. destruct Hj as [Hj|Hj];
          [apply Z.leb_gt in Hj|apply Z.ltb_ge in Hj]; lia.
    + symmetry. destruct (get3 a (i, j, k)) as [x|] eqn:Hx; [|reflexivity].
      assert (Hb : 0 <= i < Z.of_nat n1 /\ 0 <= j < Z.of_nat n2 /\ 0 <= k < Z.of_nat n3)
        by (apply (get3_rect a n1 n2 n3 i j k Hrect); eauto).
      apply andb_false_iff in Hk. destruct Hk as [Hk|Hk];
        [apply Z.leb_gt in Hk|apply Z.ltb_ge in Hk]; lia.
Qed.

End Transpose.

Section LoadImageMore.

Import np ndimage preprocess driver.

Lemma resample_mask_rect image directions new_spacing img achieved n1 n2 n3 :
  rect3 image n1 n2 n3 ->
  resample_mask image directions new_spacing = py.Ok (img, achieved) ->
  exists k1 k2 k3, rect3 img k1 k2 k3.
Proof.
  intros Hrect H. unfold resample_mask in H.
  destruct directions as [[[[d00 d01] d02] [[d10 d11] d12]] [[d20 d21] d22]].
  apply bind_ok_inv in H. destruct H as (img' & Hz & H). inversion H. subst img'.
  eapply zoom_rect; eauto.
Qed.

(** The tumour mask [load_image] returns is the resampled mask with its axes
    in reverse order: the voxel at [(k, j, i)] is the voxel [resample_mask]
    put at [(i, j, k)]. *)
Theorem load_image_mask_transposed
    ct_data pet_data data directions (n1 n2 n3 : nat) ct pet mask lung :
  rect3 data n1 n2 n3 ->
  load_image (ct_data, pet_data, (data, directions)) = py.Ok (ct, pet, mask, lung) ->
  exists resampled achieved,
    resample_mask data directions (1, 1, 1)%Q = py.Ok (resampled, achieved) /\
    forall i j k, get3 mask (k, j, i) = get3 resampled (i, j, k).
Proof.
  intros Hrect H. unfold load_image in H.
  apply bind_ok_inv in H. destruct H as (ct_pixel & _ & H).
  apply bind_ok_inv in H. destruct H as (pet_pixel & _ & H).
  apply bind_ok_inv in H. destruct H as ([resampled achieved] & Hmask & H).
  apply bind_ok_inv in H. destruct H as (ct' & _ & H).
  apply bind_ok_inv in H. destruct H as (pet' & _ & H).
  apply bind_ok_inv in H. destruct H as (lung' & _ & H).
  inversion H. subst ct pet mask lung. clear H.
  cbn [fst snd] in *. exists resampled, achieved. split; [exact Hmask|].
  destruct (resample_mask_rect _ _ _ _ _ _ _ _ Hrect Hmask) as (k1 & k2 & k3 & Hk).
  intros i j k. apply (get3_transpose_reversed _ k1 k2 k3), Hk.
Qed.

Lemma load_image_mask_transposed_witness :
  exists resampled achieved,
    resample_mask [[[0; 1]]] ((1, 0, 0), (0, 1, 0), (0, 0, 1))%Q (1, 1, 1)%Q
      = py.Ok (resampled, achieved) /\
    forall i j k, get3 [[[0]]; [[1]]] (k, j, i) = get3 resampled (i, j, k).
Proof.
  apply (load_image_mask_transposed
           (one_voxel_scan 24 1%float (-1024)%float)
           (one_voxel_scan 7 1%float 0%float)
           [[[0; 1]]] ((1, 0, 0), (0, 1, 0), (0, 0, 1))%Q
           1 1 2 [[[-1000]]] [[[7]]] [[[0]]; [[1]]] [[[false]]]).
  - split; [reflexivity|]. repeat constructor.
  - vm_compute. reflexivity.
Defined.




End LoadImageMore.

